(** * Smart bulb control over JSON/UDP: command correlation, device proxy
      and broadcast discovery.

    A shallow embedding of [smartbulb.ts] (class [SmartBulb]),
    [discovery.ts] (class [BulbDiscovery]: its discovery rounds and its
    registry of proxies) and [mock-bulb.ts] (class [MockSmartBulb]), with
    the two ends of the protocol put together.  JavaScript objects are finite
    maps from property names to values, a JavaScript [Map] is an
    insertion-ordered association list, promises, timers and socket
    callbacks are explicit components of the state, and the event loop is a
    step function over the events the runtime can deliver. *)

From Stdlib Require Import ZArith String Ascii List DecimalString DecimalZ DecimalPos.
From stdpp Require Import gmap strings list fin_maps.
Set Warnings "-register-all".
Local Open Scope string_scope.
Local Open Scope list_scope.

(** * Part I: the embedding *)

(** ** JavaScript values *)

Module Js.

(** The values [JSON.parse] produces.  Numbers are the integers (the
    protocol's brightness, colour channels and ports); the decimal rendering
    below is JavaScript's for magnitudes under 10^21. *)
Inductive json : Type :=
| JNull
| JBool (b : bool)
| JNum (n : Z)
| JStr (s : string)
| JArr (l : list json)
| JObj (o : gmap string json).

(** A value that may be [undefined]. *)
Abbreviation jsval := (option json).

Abbreviation undefined := (@None json).

(** An [Error] object, identified by its message. *)
Record Error : Type := mkError { message : string }.

(** ToBoolean. *)
Definition truthy (v : jsval) : bool :=
  match v with
  | None => false
  | Some JNull => false
  | Some (JBool b) => b
  | Some (JNum n) => negb (n =? 0)%Z
  | Some (JStr s) => negb (String.eqb s "")
  | Some (JArr _) => true
  | Some (JObj _) => true
  end.

(** [typeof v === 'object'] for a truthy [v]. *)
Definition is_object (v : jsval) : bool :=
  match v with
  | Some (JArr _) | Some (JObj _) => true
  | _ => false
  end.

(** Number-to-string conversion of an integer. *)
Definition dec (n : Z) : string := NilZero.string_of_int (Z.to_int n).

(** ToString, as used by template literals and by [new Error(message)]. *)
Fixpoint to_string (v : json) : string :=
  match v with
  | JNull => "null"
  | JBool true => "true"
  | JBool false => "false"
  | JNum n => dec n
  | JStr s => s
  | JArr l =>
      (fix join (l : list json) : string :=
         match l with
         | [] => ""
         | x :: l' =>
             let e := match x with JNull => "" | _ => to_string x end in
             match l' with [] => e | _ => e +:+ "," +:+ join l' end
         end) l
  | JObj _ => "[object Object]"
  end.

Definition to_string_val (v : jsval) : string :=
  match v with
  | None => "undefined"
  | Some j => to_string j
  end.

(** The one-character strings of a string, in order. *)
Fixpoint chars (s : string) : list json :=
  match s with
  | EmptyString => []
  | String c s' => JStr (String c EmptyString) :: chars s'
  end.

Definition indexed (l : list json) : gmap string json :=
  list_to_map (imap (fun i v => (dec (Z.of_nat i), v)) l).

(** Own enumerable properties: what an object spread [{...v}] copies. *)
Definition props (v : jsval) : gmap string json :=
  match v with
  | Some (JObj o) => o
  | Some (JArr l) => indexed l
  | Some (JStr s) => indexed (chars s)
  | _ => ∅
  end.

(** Property read [v.k].  Reading a property of [null] throws a TypeError.
    Besides own properties only [length] is modelled; the names this code
    reads ([id], [success], [error], [data], [type]) are not inherited
    ones. *)
Definition get_prop (v : json) (k : string) : Error + jsval :=
  match v with
  | JNull => inl (mkError "Cannot read properties of null")
  | JObj o => inr (o !! k)
  | JArr l =>
      inr (if decide (k = "length") then Some (JNum (Z.of_nat (length l)))
           else indexed l !! k)
  | JStr s =>
      inr (if decide (k = "length") then Some (JNum (Z.of_nat (String.length s)))
           else indexed (chars s) !! k)
  | JBool _ | JNum _ => inr undefined
  end.

(** A property read on a value known not to be [null]. *)
Definition prop (v : json) (k : string) : jsval :=
  match get_prop v k with
  | inr x => x
  | inl _ => undefined
  end.

(** [a || b] on values. *)
Definition or_else (a : jsval) (b : json) : json :=
  match a with
  | Some j => if truthy a then j else b
  | None => b
  end.

End Js.

(** ** JavaScript [Map] with string keys: insertion-ordered *)

Module JsMap.

Section Ops.
Context {V : Type}.
Implicit Types (k : string) (v : V) (m : list (string * V)).

Fixpoint get k m : option V :=
  match m with
  | [] => None
  | (k', v') :: m' => if decide (k = k') then Some v' else get k m'
  end.

Definition has k m : bool :=
  match get k m with Some _ => true | None => false end.

(** [set] replaces the value of a present key in place and appends an
    absent one. *)
Fixpoint set k v m : list (string * V) :=
  match m with
  | [] => [(k, v)]
  | (k', v') :: m' =>
      if decide (k = k') then (k, v) :: m' else (k', v') :: set k v m'
  end.

Fixpoint delete k m : list (string * V) :=
  match m with
  | [] => []
  | (k', v') :: m' =>
      if decide (k = k') then delete k m' else (k', v') :: delete k m'
  end.

Definition clear m : list (string * V) := [].

Definition keys m : list string := map fst m.

Definition values m : list V := map snd m.

End Ops.

End JsMap.

(** ** The device proxy: class [SmartBulb] *)

Module Bulb.
Import Js.

(** A [number] argument: an integer, or [NaN] (which [parseInt] can
    return). Comparisons with [NaN] are false. *)
Inductive number : Type := Num (z : Z) | NaN.

Definition lt (a b : number) : bool :=
  match a, b with
  | Num x, Num y => (x <? y)%Z
  | _, _ => false
  end.

Definition gt (a b : number) : bool := lt b a.

(** The value [JSON.stringify] writes for a number. *)
Definition number_json (a : number) : json :=
  match a with
  | Num z => JNum z
  | NaN => JNull
  end.

Record BulbConfig : Type := mkConfig {
  ip : string;
  port : Z;
  timeout : option Z
}.

Record BulbCommand : Type := mkCommand {
  command : string;
  params : option json;
  id : option string
}.

(** A [BulbStatus] object. *)
Abbreviation BulbStatus := (gmap string json).

(** How a promise was settled. *)
Inductive settled : Type :=
| Fulfilled (value : json)
| Rejected (reason : Error).

(** What an async method of the proxy hands back to its caller. *)
Inductive retval : Type :=
| RetVoid
| RetBool (b : bool)
| RetStatus (s : BulbStatus).

Inductive completion : Type :=
| Returned (v : retval)
| Raised (e : Error).

(** The async method suspended on the promise of a [sendCommand] call:
    the power and colour setters only wait for it, [getStatus] and [ping]
    wrap the [await] in [try]/[catch]. *)
Inductive awaiter : Type := AwaitVoid | AwaitStatus | AwaitPing.

(** One invocation of [sendCommand]: its [id], the promise it returned
    ([None] while pending), its timer, the completion callback of its
    [socket.send], and the completion of the method awaiting it. The
    invocation's position in [requests] is the handle that stands for its
    [resolve], [reject] and [timeout]. *)
Record request : Type := mkRequest {
  req_id : string;
  req_awaiter : awaiter;
  req_promise : option settled;
  req_timer : bool;
  req_callback : bool;
  req_result : option completion
}.

(** A datagram handed to [socket.send]: the command that is serialised,
    and its destination. *)
Record datagram : Type := mkDatagram {
  dg_message : BulbCommand;
  dg_port : Z;
  dg_ip : string
}.

(** The proxy and the part of the runtime it lives in: its fields [config],
    [lastStatus] and [pendingCommands] (the entry [{resolve, reject,
    timeout}] of an identifier is the handle of the invocation that made
    it), then every [sendCommand] invocation so far, the datagrams handed
    to the socket, the promise reactions waiting to run, and whether the
    socket was closed. *)
Record SmartBulb : Type := mkBulb {
  config : BulbConfig;
  lastStatus : BulbStatus;
  pendingCommands : list (string * nat);
  requests : list request;
  outbox : list datagram;
  microtasks : list nat;
  closed : bool
}.

Definition initialStatus : BulbStatus :=
  {[ "power" := JBool false;
     "brightness" := JNum 0;
     "color" := JObj {[ "r" := JNum 255; "g" := JNum 255; "b" := JNum 255 ]};
     "connected" := JBool false ]}.

(** [constructor]: the default timeout is overridden by a supplied one. *)
Definition new (cfg : BulbConfig) : SmartBulb :=
  {| config := {| ip := ip cfg; port := port cfg;
                  timeout := Some (default 5000%Z (timeout cfg)) |};
     lastStatus := initialStatus;
     pendingCommands := [];
     requests := [];
     outbox := [];
     microtasks := [];
     closed := false |}.

(** *** Field updates *)

Definition with_lastStatus (f : BulbStatus → BulbStatus) (st : SmartBulb) :=
  {| config := config st; lastStatus := f (lastStatus st);
     pendingCommands := pendingCommands st; requests := requests st;
     outbox := outbox st; microtasks := microtasks st; closed := closed st |}.

Definition with_pendingCommands
    (f : list (string * nat) → list (string * nat)) (st : SmartBulb) :=
  {| config := config st; lastStatus := lastStatus st;
     pendingCommands := f (pendingCommands st); requests := requests st;
     outbox := outbox st; microtasks := microtasks st; closed := closed st |}.

Definition with_requests (f : list request → list request) (st : SmartBulb) :=
  {| config := config st; lastStatus := lastStatus st;
     pendingCommands := pendingCommands st; requests := f (requests st);
     outbox := outbox st; microtasks := microtasks st; closed := closed st |}.

Definition with_outbox (f : list datagram → list datagram) (st : SmartBulb) :=
  {| config := config st; lastStatus := lastStatus st;
     pendingCommands := pendingCommands st; requests := requests st;
     outbox := f (outbox st); microtasks := microtasks st; closed := closed st |}.

Definition with_microtasks (f : list nat → list nat) (st : SmartBulb) :=
  {| config := config st; lastStatus := lastStatus st;
     pendingCommands := pendingCommands st; requests := requests st;
     outbox := outbox st; microtasks := f (microtasks st); closed := closed st |}.

Definition with_closed (b : bool) (st : SmartBulb) :=
  {| config := config st; lastStatus := lastStatus st;
     pendingCommands := pendingCommands st; requests := requests st;
     outbox := outbox st; microtasks := microtasks st; closed := b |}.

Definition set_promise (o : settled) (r : request) : request :=
  {| req_id := req_id r; req_awaiter := req_awaiter r; req_promise := Some o;
     req_timer := req_timer r; req_callback := req_callback r;
     req_result := req_result r |}.

Definition set_timer (b : bool) (r : request) : request :=
  {| req_id := req_id r; req_awaiter := req_awaiter r;
     req_promise := req_promise r; req_timer := b;
     req_callback := req_callback r; req_result := req_result r |}.

Definition set_callback (b : bool) (r : request) : request :=
  {| req_id := req_id r; req_awaiter := req_awaiter r;
     req_promise := req_promise r; req_timer := req_timer r;
     req_callback := b; req_result := req_result r |}.

Definition set_result (c : completion) (r : request) : request :=
  {| req_id := req_id r; req_awaiter := req_awaiter r;
     req_promise := req_promise r; req_timer := req_timer r;
     req_callback := req_callback r; req_result := Some c |}.

(** *** Methods run in a state monad with exceptions; a [throw] keeps the
    mutations made before it. *)

Definition M (A : Type) : Type := SmartBulb → (Error + A) * SmartBulb.

Definition ret {A} (a : A) : M A := fun st => (inr a, st).

Definition throw {A} (e : Error) : M A := fun st => (inl e, st).

Definition bind {A B} (m : M A) (k : A → M B) : M B :=
  fun st => match m st with
            | (inr a, st') => k a st'
            | (inl e, st') => (inl e, st')
            end.

Definition try_catch {A} (m : M A) (h : Error → M A) : M A :=
  fun st => match m st with
            | (inr a, st') => (inr a, st')
            | (inl e, st') => h e st'
            end.

Definition gets {A} (f : SmartBulb → A) : M A := fun st => (inr (f st), st).

Definition modify (f : SmartBulb → SmartBulb) : M unit := fun st => (inr tt, f st).

Definition lift {A} (r : Error + A) : M A := fun st => (r, st).

Definition exec {A} (m : M A) (st : SmartBulb) : SmartBulb := snd (m st).

Notation "'let*' x ':=' m 'in' k" := (bind m (fun x => k))
  (at level 10, x name, m at level 100, k at level 200).

Notation "m ';;' k" := (bind m (fun _ => k))
  (at level 100, k at level 200, right associativity).

(** *** Runtime primitives *)

(** Calling the [resolve] or [reject] function of promise [n]: settles it
    and queues the reaction of the method awaiting it; without effect on a
    promise that is already settled. *)
Definition settle (n : nat) (o : settled) : M unit :=
  modify (fun st =>
    match requests st !! n with
    | Some r =>
        match req_promise r with
        | None =>
            with_microtasks (fun q => q ++ [n])
              (with_requests (fun rs => alter (set_promise o) n rs) st)
        | Some _ => st
        end
    | None => st
    end).

Definition resolve (n : nat) (value : json) : M unit := settle n (Fulfilled value).

Definition reject (n : nat) (reason : Error) : M unit := settle n (Rejected reason).

Definition clearTimeout (n : nat) : M unit :=
  modify (with_requests (fun rs => alter (set_timer false) n rs)).

(** The key a value denotes in a [Map] whose keys are all strings. *)
Definition map_key (v : jsval) : option string :=
  match v with
  | Some (JStr s) => Some s
  | _ => None
  end.

Definition pending_has (v : jsval) (st : SmartBulb) : bool :=
  match map_key v with
  | Some s => JsMap.has s (pendingCommands st)
  | None => false
  end.

Definition pending_get (v : jsval) (st : SmartBulb) : option nat :=
  match map_key v with
  | Some s => JsMap.get s (pendingCommands st)
  | None => None
  end.

Definition pending_delete (v : jsval) : M unit :=
  modify (fun st =>
    match map_key v with
    | Some s => with_pendingCommands (JsMap.delete s) st
    | None => st
    end).

(** *** [updateStatus], [handleResponse] and the socket's message listener *)

(** [{ ...this.lastStatus, ...data, connected: true }]; the emitted
    [statusUpdate] event has no listener inside the class. *)
Definition updateStatus (data : jsval) : M unit :=
  modify (with_lastStatus (fun s =>
    <["connected" := JBool true]> (props data ∪ s))).

Definition handleResponse (response : json) : M unit :=
  (let* rid := lift (get_prop response "id") in
   let* present := gets (fun st => truthy rid && pending_has rid st) in
   if present then
     let* pending := gets (pending_get rid) in
     match pending with
     | Some n =>
         clearTimeout n;;
         pending_delete rid;;
         let* success := lift (get_prop response "success") in
         if truthy success then resolve n response
         else
           let* err := lift (get_prop response "error") in
           reject n (mkError (to_string (or_else err (JStr "Unknown error"))))
     | None => ret tt
     end
   else ret tt);;
  let* data := lift (get_prop response "data") in
  if truthy data && is_object data then updateStatus data else ret tt.

(** The guard of [handleResponse]: the invocation whose entry a response
    matches, if [response.id && this.pendingCommands.has(response.id)]. *)
Definition matches (response : json) (st : SmartBulb) : option nat :=
  match get_prop response "id" with
  | inr rid => if truthy rid && pending_has rid st then pending_get rid st else None
  | inl _ => None
  end.

(** The ['message'] listener of [setupSocket]; [payload] is [None] when
    [JSON.parse] throws. Either failure is caught and logged. *)
Definition onMessage (payload : option json) : M unit :=
  try_catch
    (match payload with
     | Some response => handleResponse response
     | None => throw (mkError "Unexpected token")
     end)
    (fun _ => ret tt).

(** *** [generateCommandId] and [sendCommand] *)

(** [rnd] is the text [Math.random().toString(36)]; the identifier is its
    [substring(2, 15)]. *)
Definition generateCommandId (rnd : string) : string := String.substring 2 13 rnd.

Definition sendCommand (aw : awaiter) (rnd : string) (cmd : BulbCommand) : M nat :=
  let id := generateCommandId rnd in
  let commandWithId :=
    {| command := command cmd; params := params cmd; id := Some id |} in
  let* n := gets (fun st => length (requests st)) in
  (* the promise, and setTimeout *)
  modify (with_requests (fun rs => rs ++
    [{| req_id := id; req_awaiter := aw; req_promise := None;
        req_timer := true; req_callback := true; req_result := None |}]));;
  modify (with_pendingCommands (JsMap.set id n));;
  let* cfg := gets config in
  modify (with_outbox (fun o => o ++
    [{| dg_message := commandWithId; dg_port := port cfg; dg_ip := ip cfg |}]));;
  ret n.

(** The callback given to [setTimeout] by invocation [n]. *)
Definition onTimeout (n : nat) : M unit :=
  let* r := gets (fun st => requests st !! n) in
  match r with
  | Some r =>
      modify (with_requests (fun rs => alter (set_timer false) n rs));;
      modify (with_pendingCommands (JsMap.delete (req_id r)));;
      reject n (mkError "Command timeout")
  | None => ret tt
  end.

(** The completion callback given to [socket.send] by invocation [n]. *)
Definition onSendDone (n : nat) (error : option Error) : M unit :=
  let* r := gets (fun st => requests st !! n) in
  match r with
  | Some r =>
      modify (with_requests (fun rs => alter (set_callback false) n rs));;
      match error with
      | Some e =>
          clearTimeout n;;
          modify (with_pendingCommands (JsMap.delete (req_id r)));;
          reject n e
      | None => ret tt
      end
  | None => ret tt
  end.

(** [close]: the loop over the entries, then [clear] and [socket.close]. *)
Fixpoint close_loop (entries : list (string * nat)) : M unit :=
  match entries with
  | [] => ret tt
  | (_, n) :: rest =>
      clearTimeout n;;
      reject n (mkError "Connection closed");;
      close_loop rest
  end.

Definition close : M unit :=
  let* entries := gets pendingCommands in
  close_loop entries;;
  modify (with_pendingCommands JsMap.clear);;
  modify (with_closed true).

(** *** Hexadecimal colours *)

Definition is_digit (c : ascii) : bool :=
  let n := nat_of_ascii c in (48 <=? n)%nat && (n <=? 57)%nat.

(** The class [[a-f\d]] under the [i] flag. *)
Definition is_hex_digit (c : ascii) : bool :=
  let n := nat_of_ascii c in
  is_digit c || ((97 <=? n)%nat && (n <=? 102)%nat)
             || ((65 <=? n)%nat && (n <=? 70)%nat).

Definition hex_value (c : ascii) : option Z :=
  let n := nat_of_ascii c in
  if is_digit c then Some (Z.of_nat n - 48)%Z
  else if (97 <=? n)%nat && (n <=? 102)%nat then Some (Z.of_nat n - 87)%Z
  else if (65 <=? n)%nat && (n <=? 70)%nat then Some (Z.of_nat n - 55)%Z
  else None.

(** The three groups [([a-f\d]{2})([a-f\d]{2})([a-f\d]{2})$]. *)
Definition hex_groups (s : string) : option (string * string * string) :=
  match s with
  | String c1 (String c2 (String c3 (String c4 (String c5 (String c6 EmptyString))))) =>
      if forallb is_hex_digit [c1; c2; c3; c4; c5; c6]
      then Some (String c1 (String c2 EmptyString),
                 String c3 (String c4 EmptyString),
                 String c5 (String c6 EmptyString))
      else None
  | _ => None
  end.

(** [/^#?([a-f\d]{2})([a-f\d]{2})([a-f\d]{2})$/i.exec(hex)]: the optional
    [#] is tried first, then the match without it. *)
Definition hex_exec (hex : string) : option (string * string * string) :=
  match hex with
  | String "#" rest =>
      match hex_groups rest with
      | Some g => Some g
      | None => hex_groups hex
      end
  | _ => hex_groups hex
  end.

Definition is_space (c : ascii) : bool :=
  let n := nat_of_ascii c in
  ((9 <=? n)%nat && (n <=? 13)%nat) || (n =? 32)%nat.

Fixpoint skip_spaces (s : string) : string :=
  match s with
  | String c s' => if is_space c then skip_spaces s' else s
  | EmptyString => s
  end.

(** The longest prefix of hexadecimal digits, accumulated in base 16;
    [None] when there is none. *)
Fixpoint hex_digits (acc : option Z) (s : string) : option Z :=
  match s with
  | String c s' =>
      match hex_value c with
      | Some d => hex_digits (Some (16 * default 0%Z acc + d)%Z) s'
      | None => acc
      end
  | EmptyString => acc
  end.

Definition strip_sign (s : string) : Z * string :=
  match s with
  | String "-" s' => ((-1)%Z, s')
  | String "+" s' => (1%Z, s')
  | _ => (1%Z, s)
  end.

Definition strip_0x (s : string) : string :=
  match s with
  | String "0" (String "x" s') => s'
  | String "0" (String "X" s') => s'
  | _ => s
  end.

(** [parseInt(s, 16)]: leading white space (the ASCII part of it), a sign,
    an optional [0x] prefix, then digits. *)
Definition parseInt16 (s : string) : number :=
  let '(sign, s) := strip_sign (skip_spaces s) in
  match hex_digits None (strip_0x s) with
  | Some v => Num (sign * v)
  | None => NaN
  end.

(** *** The async methods, up to their [await] *)

Definition json_obj (l : list (string * json)) : json := JObj (list_to_map l).

Definition turnOn (rnd : string) : M nat :=
  sendCommand AwaitVoid rnd
    {| command := "set_power";
       params := Some (json_obj [("power", JBool true)]); id := None |}.

Definition turnOff (rnd : string) : M nat :=
  sendCommand AwaitVoid rnd
    {| command := "set_power";
       params := Some (json_obj [("power", JBool false)]); id := None |}.

Definition setBrightness (brightness : number) (rnd : string) : M nat :=
  if lt brightness (Num 0) || gt brightness (Num 100) then
    throw (mkError "Brightness must be between 0 and 100")
  else
    sendCommand AwaitVoid rnd
      {| command := "set_brightness";
         params := Some (json_obj [("brightness", number_json brightness)]);
         id := None |}.

Definition setColor (r g b : number) (rnd : string) : M nat :=
  if lt r (Num 0) || gt r (Num 255) || lt g (Num 0) || gt g (Num 255)
     || lt b (Num 0) || gt b (Num 255) then
    throw (mkError "RGB values must be between 0 and 255")
  else
    sendCommand AwaitVoid rnd
      {| command := "set_color";
         params := Some (json_obj
           [("color", json_obj [("r", number_json r); ("g", number_json g);
                                ("b", number_json b)])]);
         id := None |}.

Definition setColorHex (hex : string) (rnd : string) : M nat :=
  match hex_exec hex with
  | None => throw (mkError "Invalid hex color format")
  | Some (g1, g2, g3) =>
      let r := parseInt16 g1 in
      let g := parseInt16 g2 in
      let b := parseInt16 g3 in
      setColor r g b rnd
  end.

Definition getStatus (rnd : string) : M nat :=
  sendCommand AwaitStatus rnd
    {| command := "get_status"; params := None; id := None |}.

Definition ping (rnd : string) : M nat :=
  sendCommand AwaitPing rnd
    {| command := "ping"; params := None; id := None |}.

Definition getLastStatus (st : SmartBulb) : BulbStatus := lastStatus st.

Definition getConfig (st : SmartBulb) : BulbConfig := config st.

(** *** The async methods, from their [await] on *)

Definition await (o : settled) : M json :=
  match o with
  | Fulfilled v => ret v
  | Rejected e => throw e
  end.

Definition resume_void (o : settled) : M retval :=
  await o;; ret RetVoid.

Definition resume_getStatus (o : settled) : M retval :=
  try_catch
    (let* response := await o in
     let* data := lift (get_prop response "data") in
     (if truthy data then updateStatus data else ret tt);;
     let* s := gets lastStatus in
     ret (RetStatus s))
    (fun _ =>
       let* s := gets lastStatus in
       ret (RetStatus (<["connected" := JBool false]> s))).

Definition resume_ping (o : settled) : M retval :=
  try_catch
    (await o;; ret (RetBool true))
    (fun _ => ret (RetBool false)).

Definition continuation (aw : awaiter) (o : settled) : M retval :=
  match aw with
  | AwaitVoid => resume_void o
  | AwaitStatus => resume_getStatus o
  | AwaitPing => resume_ping o
  end.

Definition to_completion (res : Error + retval) : completion :=
  match res with
  | inr v => Returned v
  | inl e => Raised e
  end.

(** The reaction queued when promise [n] settles: the awaiting method runs
    to its end and its own promise completes. *)
Definition resume (n : nat) (st : SmartBulb) : SmartBulb :=
  match requests st !! n with
  | Some r =>
      match req_promise r with
      | Some o =>
          let '(res, st') := continuation (req_awaiter r) o st in
          with_requests (fun rs => alter (set_result (to_completion res)) n rs) st'
      | None => st
      end
  | None => st
  end.

(** After a callback returns, the queued reactions run in order. *)
Definition drain (st : SmartBulb) : SmartBulb :=
  foldl (fun s n => resume n s) (with_microtasks (fun _ => []) st) (microtasks st).

(** *** The event loop *)

Inductive call : Type :=
| TurnOn
| TurnOff
| SetBrightness (brightness : number)
| SetColor (r g b : number)
| SetColorHex (hex : string)
| GetStatus
| Ping.

Definition invoke (c : call) (rnd : string) : M nat :=
  match c with
  | TurnOn => turnOn rnd
  | TurnOff => turnOff rnd
  | SetBrightness b => setBrightness b rnd
  | SetColor r g b => setColor r g b rnd
  | SetColorHex hex => setColorHex hex rnd
  | GetStatus => getStatus rnd
  | Ping => ping rnd
  end.

(** What the runtime can deliver to an open proxy: a method call (with the
    random text an identifier would be cut from), an inbound datagram, the
    expiry of an armed timer, the completion of a send, and [close]. The
    proxy is not used after [close]; only callbacks already scheduled can
    still run then. The socket's ['error'] event is only logged and
    re-emitted, touches none of this state, and is left out. *)
Inductive event : Type :=
| Call (c : call) (rnd : string)
| Message (payload : option json)
| TimerExpired (n : nat)
| SendDone (n : nat) (error : option Error)
| Close.

(** The callback an event runs, when the event can occur in [st]. *)
Definition dispatch (st : SmartBulb) (ev : event) : option SmartBulb :=
  match ev with
  | Call c rnd =>
      if closed st then None else Some (exec (invoke c rnd) st)
  | Message payload =>
      if closed st then None else Some (exec (onMessage payload) st)
  | TimerExpired n =>
      match requests st !! n with
      | Some r => if req_timer r then Some (exec (onTimeout n) st) else None
      | None => None
      end
  | SendDone n error =>
      match requests st !! n with
      | Some r =>
          if req_callback r then Some (exec (onSendDone n error) st) else None
      | None => None
      end
  | Close =>
      if closed st then None else Some (exec close st)
  end.

(** One turn of the event loop: the callback, then the queued reactions. *)
Definition step (st : SmartBulb) (ev : event) : option SmartBulb :=
  drain <$> dispatch st ev.

Fixpoint run (st : SmartBulb) (evs : list event) : option SmartBulb :=
  match evs with
  | [] => Some st
  | ev :: evs' =>
      match step st ev with
      | Some st' => run st' evs'
      | None => None
      end
  end.

(** The states a proxy constructed with [cfg] can be in. *)
Definition reachable (cfg : BulbConfig) (st : SmartBulb) : Prop :=
  ∃ evs, run (new cfg) evs = Some st.

Definition promise_of (st : SmartBulb) (n : nat) : option settled :=
  r ← requests st !! n; req_promise r.

Definition result_of (st : SmartBulb) (n : nat) : option completion :=
  r ← requests st !! n; req_result r.

(** *** Sample values *)

Definition cfg0 : BulbConfig := mkConfig "192.168.1.45" 4000%Z None.

Definition response_ok (i : string) (data : json) : json :=
  json_obj [("success", JBool true); ("id", JStr i); ("data", data)].

Definition response_fail (i : string) (msg : string) : json :=
  json_obj [("success", JBool false); ("id", JStr i); ("error", JStr msg)].

(** *** Predicates and auxiliary states of the proofs *)

(** Two request records that differ at most in the completion of the
    awaiting method. *)
Definition same_core (r r' : request) : Prop :=
  req_id r' = req_id r ∧ req_awaiter r' = req_awaiter r ∧
  req_promise r' = req_promise r ∧ req_timer r' = req_timer r ∧
  req_callback r' = req_callback r.

(** The completion an awaiting method must have reached, given its
    promise. *)
Definition result_ok (r : request) : Prop :=
  match req_promise r with
  | None => req_result r = None
  | Some o =>
      match req_awaiter r, o with
      | AwaitVoid, Fulfilled _ => req_result r = Some (Returned RetVoid)
      | AwaitVoid, Rejected e => req_result r = Some (Raised e)
      | AwaitPing, Fulfilled _ => req_result r = Some (Returned (RetBool true))
      | AwaitPing, Rejected _ => req_result r = Some (Returned (RetBool false))
      | AwaitStatus, Fulfilled _ =>
          ∃ s, req_result r = Some (Returned (RetStatus s))
      | AwaitStatus, Rejected _ =>
          ∃ s, req_result r =
               Some (Returned (RetStatus (<["connected" := JBool false]> s)))
      end
  end.

(** Requests whose reaction is queued are settled; all others have the
    completion their promise calls for. *)
Definition queued_ok (st : SmartBulb) : Prop :=
  ∀ n r, requests st !! n = Some r →
    (n ∈ microtasks st → is_Some (req_promise r)) ∧
    (n ∉ microtasks st → result_ok r).

(** Every entry of the in-flight table belongs to an invocation with that
    identifier whose promise is pending and whose timer is armed. *)
Definition table_ok (st : SmartBulb) : Prop :=
  ∀ s n, JsMap.get s (pendingCommands st) = Some n →
    ∃ r, requests st !! n = Some r ∧ req_id r = s ∧
         req_promise r = None ∧ req_timer r = true.

Definition closed_ok (st : SmartBulb) : Prop :=
  closed st = true → pendingCommands st = [].

Record Inv (st : SmartBulb) : Prop := mkInv {
  inv_table : table_ok st;
  inv_queue : microtasks st = [];
  inv_results : queued_ok st;
  inv_closed : closed_ok st
}.

(** Running a queue of reactions. *)
Definition run_queue (q : list nat) (st : SmartBulb) : SmartBulb :=
  foldl (fun s n => resume n s) st q.

(** What a callback must leave behind for the invariant to hold again once
    the queued reactions have run. *)
Record Post (st : SmartBulb) : Prop := mkPost {
  post_table : table_ok st;
  post_results : queued_ok st;
  post_closed : closed_ok st
}.

(** How [handleResponse] settles a matched request. *)
Definition outcome (response : json) : settled :=
  if truthy (prop response "success") then Fulfilled response
  else Rejected (mkError (to_string (or_else (prop response "error") (JStr "Unknown error")))).

(** The status hook at the end of [handleResponse]. *)
Definition status_hook (response : json) (st : SmartBulb) : SmartBulb :=
  if truthy (prop response "data") && is_object (prop response "data")
  then with_lastStatus
         (fun s => <["connected" := JBool true]> (props (prop response "data") ∪ s)) st
  else st.

(** Removing the entry under the identifier of invocation [n] and settling
    its promise, after an update [f] of its timer or callback flag: the
    common shape of the response, timeout and send-error paths. *)
Definition finish (n : nat) (s : string) (f : request → request) (o : settled)
    (st : SmartBulb) : SmartBulb :=
  exec (settle n o)
    (with_pendingCommands (JsMap.delete s) (with_requests (alter f n) st)).

(** An update of a request that leaves its promise, its awaiting method
    and that method's completion alone. *)
Definition flag_update (f : request → request) : Prop :=
  ∀ r, req_id (f r) = req_id r ∧ req_awaiter (f r) = req_awaiter r ∧
       req_promise (f r) = req_promise r ∧ req_result (f r) = req_result r.

(** One turn of the loop in [close]. *)
Definition close_entry (n : nat) (st : SmartBulb) : SmartBulb :=
  exec (settle n (Rejected (mkError "Connection closed")))
    (with_requests (alter (set_timer false) n) st).

Definition close_entries (entries : list (string * nat)) (st : SmartBulb) : SmartBulb :=
  foldl (fun s e => close_entry e.2 s) st entries.

(** The shapes a callback's effect can take. *)
Inductive shape (st : SmartBulb) : SmartBulb → Prop :=
| shape_same : shape st st
| shape_send aw rnd cmd :
    closed st = false → shape st (exec (sendCommand aw rnd cmd) st)
| shape_finish n s f o r :
    requests st !! n = Some r → req_id r = s → flag_update f →
    shape st (finish n s f o st)
| shape_callback n :
    shape st (with_requests (alter (set_callback false) n) st)
| shape_close : shape st (exec close st)
| shape_status g st1 : shape st st1 → shape st (with_lastStatus g st1).

Definition hook_fn (response : json) : BulbStatus → BulbStatus :=
  if truthy (prop response "data") && is_object (prop response "data")
  then fun s => <["connected" := JBool true]> (props (prop response "data") ∪ s)
  else fun s => s.

Definition keeps (st st1 : SmartBulb) : Prop :=
  ∀ n o, promise_of st n = Some o → promise_of st1 n = Some o.


(** A proxy with one command in flight. *)
Definition one_in_flight : SmartBulb :=
  default (new cfg0) (run (new cfg0) [Call TurnOn "0.4fzyo82mvyr"]).

(** No other invocation of this proxy was given the identifier of
    invocation [n]. *)
Definition id_unique (st : SmartBulb) (n : nat) : Prop :=
  ∀ r k r', requests st !! n = Some r → requests st !! k = Some r' →
            req_id r' = req_id r → k = n.

(** A pending request whose identifier was never reused has its entry in
    the table. *)
Definition present (st : SmartBulb) : Prop :=
  ∀ n r, requests st !! n = Some r → req_promise r = None → id_unique st n →
         JsMap.get (req_id r) (pendingCommands st) = Some n.

(** A proxy with two commands in flight. *)
Definition two_in_flight : SmartBulb :=
  default (new cfg0)
    (run (new cfg0) [Call TurnOn "0.4fzyo82mvyr"; Call GetStatus "0.k2j9x0q1abc"]).

(** Every promise settled in [st1] was settled in [st] already, or is one
    of those [P] describes. *)
Definition news (st st1 : SmartBulb) (P : nat → settled → Prop) : Prop :=
  ∀ n o, promise_of st1 n = Some o → promise_of st n = Some o ∨ P n o.

(** The promises an event settles. *)
Definition settles (st : SmartBulb) (ev : event) (n : nat) (o : settled) : Prop :=
  match ev with
  | Message (Some response) => matches response st = Some n ∧ o = outcome response
  | TimerExpired m => n = m ∧ o = Rejected (mkError "Command timeout")
  | SendDone m (Some e) => n = m ∧ o = Rejected e
  | Close => o = Rejected (mkError "Connection closed")
  | _ => False
  end.



Definition none_fulfilled (st : SmartBulb) : Prop :=
  ∀ n v, promise_of st n ≠ Some (Fulfilled v).

(** The pattern in the words of the specification: an optional [#], then
    exactly six characters out of [0-9A-Fa-f]. *)
Definition spec_hex_chars : list ascii :=
  list_ascii_of_string "0123456789ABCDEFabcdef".

Definition spec_hex_pattern (hex : string) (ds : list ascii) : Prop :=
  length ds = 6%nat ∧ Forall (fun c => c ∈ spec_hex_chars) ds ∧
  (hex = string_of_list_ascii ds ∨ hex = String "#" (string_of_list_ascii ds)).

(** The value of a hexadecimal digit: its place among [0..9a..f], or among
    [0..9A..F]. *)
Fixpoint place (c : ascii) (l : list ascii) : option nat :=
  match l with
  | [] => None
  | x :: l' => if Ascii.eqb c x then Some 0%nat else S <$> place c l'
  end.

Definition spec_digit (c : ascii) : Z :=
  match place c (list_ascii_of_string "0123456789abcdef") with
  | Some i => Z.of_nat i
  | None =>
      match place c (list_ascii_of_string "0123456789ABCDEF") with
      | Some i => Z.of_nat i
      | None => 0
      end
  end.

(** A two-digit group read in base 16. *)
Definition spec_group (c1 c2 : ascii) : Z := (16 * spec_digit c1 + spec_digit c2)%Z.

(** *** The effect of each event *)

(** What the callback of an event does to the state, case by case. *)
Inductive effect (st : SmartBulb) : event → SmartBulb → Prop :=
| effect_throw c rnd e :
    invoke c rnd st = (inl e, st) → effect st (Call c rnd) st
| effect_send c rnd aw cmd :
    invoke c rnd st = sendCommand aw rnd cmd st →
    effect st (Call c rnd) (exec (sendCommand aw rnd cmd) st)
| effect_garbled : effect st (Message None) st
| effect_nomatch response :
    matches response st = None →
    effect st (Message (Some response)) (with_lastStatus (hook_fn response) st)
| effect_match response n s r :
    matches response st = Some n → s ≠ "" →
    JsMap.get s (pendingCommands st) = Some n →
    requests st !! n = Some r → req_id r = s → req_promise r = None →
    effect st (Message (Some response))
      (with_lastStatus (hook_fn response)
         (finish n s (set_timer false) (outcome response) st))
| effect_timer n r :
    requests st !! n = Some r → req_timer r = true →
    effect st (TimerExpired n)
      (finish n (req_id r) (set_timer false) (Rejected (mkError "Command timeout")) st)
| effect_send_error n r e :
    requests st !! n = Some r → req_callback r = true →
    effect st (SendDone n (Some e))
      (finish n (req_id r) (set_timer false ∘ set_callback false) (Rejected e) st)
| effect_send_ok n r :
    requests st !! n = Some r → req_callback r = true →
    effect st (SendDone n None) (with_requests (alter (set_callback false) n) st)
| effect_close : effect st Close (exec close st).



(** Every queued reaction belongs to a rejected promise. *)
Definition queue_rejected (st : SmartBulb) : Prop :=
  ∀ m, m ∈ microtasks st → ∃ e, promise_of st m = Some (Rejected e).

(** A call whose numeric arguments are all numbers. *)
Definition is_num (x : number) : bool :=
  match x with
  | Num _ => true
  | NaN => false
  end.

Definition finite (c : call) : bool :=
  match c with
  | SetBrightness b => is_num b
  | SetColor r g b => is_num r && is_num g && is_num b
  | _ => true
  end.

(** What [JSON.stringify] writes for a number that passed a range check
    with upper bound [hi]: an integer from 0 to [hi], or, where [nan]
    allows for a [NaN] argument, [null]. *)
Definition level (nan : bool) (hi : Z) (v : json) : Prop :=
  (nan = true ∧ v = JNull) ∨ ∃ z, v = JNum z ∧ (0 <= z <= hi)%Z.

(** The five commands of the protocol, with the parameters the public
    methods give them. *)
Inductive protocol_command (nan : bool) : string → option json → Prop :=
| is_set_power b :
    protocol_command nan "set_power" (Some (json_obj [("power", JBool b)]))
| is_set_brightness v :
    level nan 100 v →
    protocol_command nan "set_brightness" (Some (json_obj [("brightness", v)]))
| is_set_color r g b :
    level nan 255 r → level nan 255 g → level nan 255 b →
    protocol_command nan "set_color"
      (Some (json_obj [("color", json_obj [("r", r); ("g", g); ("b", b)])]))
| is_get_status : protocol_command nan "get_status" None
| is_ping : protocol_command nan "ping" None.

(** The field a call asks the device to set, with the value as it is
    serialised. *)
Definition asked (c : call) : option (string * json) :=
  match c with
  | TurnOn => Some ("power", JBool true)
  | TurnOff => Some ("power", JBool false)
  | SetBrightness b => Some ("brightness", number_json b)
  | SetColor r g b =>
      Some ("color", json_obj [("r", number_json r); ("g", number_json g);
                               ("b", number_json b)])
  | SetColorHex hex =>
      match hex_exec hex with
      | Some (g1, g2, g3) =>
          Some ("color", json_obj [("r", number_json (parseInt16 g1));
                                   ("g", number_json (parseInt16 g2));
                                   ("b", number_json (parseInt16 g3))])
      | None => None
      end
  | GetStatus | Ping => None
  end.

(** The method that awaits the [sendCommand] of a call. *)
Definition awaiter_of (c : call) : awaiter :=
  match c with
  | GetStatus => AwaitStatus
  | Ping => AwaitPing
  | _ => AwaitVoid
  end.

(** The command name a call sends. *)
Definition command_name (c : call) : string :=
  match c with
  | TurnOn | TurnOff => "set_power"
  | SetBrightness _ => "set_brightness"
  | SetColor _ _ _ | SetColorHex _ => "set_color"
  | GetStatus => "get_status"
  | Ping => "ping"
  end.

End Bulb.

(** ** Broadcast discovery: class [BulbDiscovery] *)

Module Discovery.
Import Js.

(** A [DiscoveredBulb] object. *)
Abbreviation DiscoveredBulb := (gmap string json).

(** The sender of an inbound datagram. *)
Record rinfo : Type := mkRinfo {
  address : string;
  port : Z
}.

Record datagram : Type := mkDatagram {
  dg_message : json;
  dg_port : Z;
  dg_address : string
}.

(** The discovery side of a [BulbDiscovery]: the discovered set, the
    datagrams handed to [discoverySocket.send], and for every call of
    [discoverBulbs] the value its promise resolved with ([None] while its
    window is open). The registry of managed proxies plays no part in a
    round. *)
Record BulbDiscovery : Type := mkDiscovery {
  discoveredBulbs : list (string * DiscoveredBulb);
  sent : list datagram;
  rounds : list (option (list DiscoveredBulb))
}.

Definition new : BulbDiscovery :=
  {| discoveredBulbs := []; sent := []; rounds := [] |}.

(** [{ ip: rinfo.address, port: rinfo.port, ...response.data }]: the
    properties of [data] come last and win. *)
Definition make_bulb (ri : rinfo) (data : jsval) : DiscoveredBulb :=
  props data ∪ {[ "ip" := JStr (address ri); "port" := JNum (port ri) ]}.

(** [`${bulb.ip}:${bulb.port}`] *)
Definition bulb_key (bulb : DiscoveredBulb) : string :=
  to_string_val (bulb !! "ip") +:+ ":" +:+ to_string_val (bulb !! "port").

(** The ['message'] listener of [setupDiscoverySocket]; [payload] is [None]
    when [JSON.parse] throws. Any exception is swallowed. *)
Definition onMessage (payload : option json) (ri : rinfo) (d : BulbDiscovery)
    : BulbDiscovery :=
  match payload with
  | None => d
  | Some response =>
      match get_prop response "type" with
      | inl _ => d
      | inr (Some (JStr "discovery_response")) =>
          match get_prop response "data" with
          | inl _ => d
          | inr data =>
              let bulb := make_bulb ri data in
              let key := bulb_key bulb in
              {| discoveredBulbs := JsMap.set key bulb (discoveredBulbs d);
                 sent := sent d; rounds := rounds d |}
          end
      | inr _ => d
      end
  end.

Definition discoveryMessage : json :=
  JObj {[ "type" := JStr "discovery"; "command" := JStr "discover" ]}.

Definition broadcastPorts : list Z := [4000; 4001; 4002; 8000; 8080]%Z.

Definition broadcastIP : string := "255.255.255.255".

Definition subnetBroadcast : string := "192.168.1.255".

Definition broadcast (ip : string) : list datagram :=
  map (fun p => {| dg_message := discoveryMessage; dg_port := p; dg_address := ip |})
      broadcastPorts.

(** [discoverBulbs], up to arming its timer: the handle of the round, and
    the state with the set cleared and the broadcasts sent. *)
Definition discoverBulbs (d : BulbDiscovery) : nat * BulbDiscovery :=
  (length (rounds d),
   {| discoveredBulbs := JsMap.clear (discoveredBulbs d);
      sent := sent d ++ broadcast broadcastIP ++ broadcast subnetBroadcast;
      rounds := rounds d ++ [None] |}).

(** The timer of round [n]: the promise resolves with
    [Array.from(this.discoveredBulbs.values())]. *)
Definition onTimeout (n : nat) (d : BulbDiscovery) : BulbDiscovery :=
  match rounds d !! n with
  | Some None =>
      {| discoveredBulbs := discoveredBulbs d; sent := sent d;
         rounds := <[n := Some (JsMap.values (discoveredBulbs d))]> (rounds d) |}
  | _ => d
  end.

Definition getDiscoveredBulbs (d : BulbDiscovery) : list DiscoveredBulb :=
  JsMap.values (discoveredBulbs d).

Inductive event : Type :=
| Discover
| Message (payload : option json) (ri : rinfo)
| TimerExpired (n : nat).

Definition step (d : BulbDiscovery) (ev : event) : BulbDiscovery :=
  match ev with
  | Discover => (discoverBulbs d).2
  | Message payload ri => onMessage payload ri d
  | TimerExpired n => onTimeout n d
  end.

Definition run (d : BulbDiscovery) (evs : list event) : BulbDiscovery :=
  foldl step d evs.

(** The reply of a device, as [mock-bulb.ts] sends it. *)
Definition reply (name : string) : json :=
  JObj {[ "type" := JStr "discovery_response";
          "data" := JObj {[ "name" := JStr name; "model" := JStr "MockBulb v1.0";
                            "firmwareVersion" := JStr "1.0.0";
                            "macAddress" := JStr "00:11:22:33:44:55" ]} ]}.

Definition sender_a : rinfo := mkRinfo "192.168.1.45" 4000.

Definition sender_b : rinfo := mkRinfo "192.168.1.46" 4000.

Fixpoint has_colon (s : string) : bool :=
  match s with
  | EmptyString => false
  | String c s' => Ascii.eqb c ":" || has_colon s'
  end.



(** *** Predicates of the proofs *)

(** A record names an [ip] and a [port]. *)
Definition addressed (bulb : DiscoveredBulb) : Prop :=
  is_Some (bulb !! "ip") ∧ is_Some (bulb !! "port").

(** Every entry of the discovered set sits under the key its own record
    spells. *)
Definition keyed (m : list (string * DiscoveredBulb)) : Prop :=
  Forall (fun e => e.1 = bulb_key e.2 ∧ addressed e.2) m.

(** Records that spell pairwise different keys. *)
Definition distinct (found : list DiscoveredBulb) : Prop :=
  NoDup (map bulb_key found) ∧ Forall addressed found.

Definition is_discover (ev : event) : bool :=
  match ev with
  | Discover => true
  | _ => false
  end.

(** The datagrams of one round. *)
Definition burst : list datagram :=
  broadcast broadcastIP ++ broadcast subnetBroadcast.

End Discovery.

(** ** The mock device: class [MockSmartBulb] *)

Module MockBulb.
Import Js.

(** A [MockBulbState] object. *)
Abbreviation MockBulbState := (gmap string json).

(** A response handed to [socket.send], with its destination. *)
Record datagram : Type := mkDatagram {
  dg_message : json;
  dg_port : Z;
  dg_address : string
}.

(** The mock device: its fields [state], [port] and [name], and the
    datagrams handed to its socket. *)
Record MockSmartBulb : Type := mkMock {
  state : MockBulbState;
  port : Z;
  name : string;
  outbox : list datagram
}.

Definition initialState : MockBulbState :=
  {[ "power" := JBool false;
     "brightness" := JNum 50;
     "color" := JObj {[ "r" := JNum 255; "g" := JNum 255; "b" := JNum 255 ]};
     "temperature" := JNum 3000 ]}.

(** [constructor(port = 4000, name = 'Mock Smart Bulb')] *)
Definition new (port : option Z) (name : option string) : MockSmartBulb :=
  {| state := initialState;
     port := default 4000%Z port;
     name := default "Mock Smart Bulb" name;
     outbox := [] |}.

(** [v?.k] *)
Definition opt_prop (v : jsval) (k : string) : jsval :=
  match v with
  | None | Some JNull => undefined
  | Some j => prop j k
  end.

(** The number [v] when [typeof v === 'number' && v >= 0 && v <= hi]. *)
Definition upto (hi : Z) (v : jsval) : option Z :=
  match v with
  | Some (JNum z) => if (0 <=? z)%Z && (z <=? hi)%Z then Some z else None
  | _ => None
  end.

(** [request.command === c], as the [switch] compares. *)
Definition command_is (request : json) (c : string) : bool :=
  match prop request "command" with
  | Some (JStr s) => String.eqb s c
  | _ => false
  end.

(** [request.type === t] *)
Definition type_is (request : json) (t : string) : bool :=
  match prop request "type" with
  | Some (JStr s) => String.eqb s t
  | _ => false
  end.

(** [{ success: true, id: request.id }]. A property whose value is
    [undefined] is not written by [JSON.stringify] and is left out. *)
Definition initial_response (request : json) : gmap string json :=
  match prop request "id" with
  | Some v => {[ "success" := JBool true; "id" := v ]}
  | None => {[ "success" := JBool true ]}
  end.

Definition discovery_response (name : string) : gmap string json :=
  {[ "type" := JStr "discovery_response";
     "data" := JObj {[ "name" := JStr name; "model" := JStr "MockBulb v1.0";
                       "firmwareVersion" := JStr "1.0.0";
                       "macAddress" := JStr "00:11:22:33:44:55" ]} ]}.

(** The guard of the [set_color] case: the three channels when [color] is
    truthy and each of [color.r], [color.g], [color.b] is a number from 0 to
    255. *)
Definition channels (color : jsval) : option (Z * Z * Z) :=
  match color with
  | Some c =>
      if truthy color then
        r ← upto 255 (prop c "r");
        g ← upto 255 (prop c "g");
        b ← upto 255 (prop c "b");
        Some (r, g, b)
      else None
  | None => None
  end.

(** The [try] block of [handleRequest]: the error it threw if any, the
    [response] variable and the state as it leaves them. *)
Definition try_block (request : json) (name : string) (s : MockBulbState)
    : option Error * gmap string json * MockBulbState :=
  let response := initial_response request in
  if command_is request "ping" then
    (None, <["data" := JObj {[ "pong" := JBool true ]}]> response, s)
  else if command_is request "discover" then
    (None,
     (if type_is request "discovery" then discovery_response name else response),
     s)
  else if command_is request "set_power" then
    match opt_prop (prop request "params") "power" with
    | Some (JBool b) =>
        (None, <["data" := JObj {[ "power" := JBool b ]}]> response,
         <["power" := JBool b]> s)
    | _ => (Some (mkError "Invalid power parameter"), response, s)
    end
  else if command_is request "set_brightness" then
    match upto 100 (opt_prop (prop request "params") "brightness") with
    | Some z =>
        (None, <["data" := JObj {[ "brightness" := JNum z ]}]> response,
         <["brightness" := JNum z]> s)
    | None =>
        (Some (mkError "Invalid brightness parameter (must be 0-100)"),
         response, s)
    end
  else if command_is request "set_color" then
    match channels (opt_prop (prop request "params") "color") with
    | Some (r, g, b) =>
        let color := JObj {[ "r" := JNum r; "g" := JNum g; "b" := JNum b ]} in
        (None, <["data" := JObj {[ "color" := color ]}]> response,
         <["color" := color]> s)
    | None =>
        (Some (mkError "Invalid color parameter (RGB values must be 0-255)"),
         response, s)
    end
  else if command_is request "get_status" then
    (None, <["data" := JObj (<["connected" := JBool true]> s)]> response, s)
  else
    (Some (mkError ("Unknown command: " +:+
                    to_string_val (prop request "command"))),
     response, s).

(** [handleRequest]: the first statement reads [request.command], which
    throws on [null]; the [catch] marks the response as failed; then the
    response goes to the sender. *)
Definition handleRequest (request : json) (ri : Discovery.rinfo)
    (m : MockSmartBulb) : Error + MockSmartBulb :=
  match get_prop request "command" with
  | inl e => inl e
  | inr _ =>
      let '(thrown, response, s) := try_block request (name m) (state m) in
      let response :=
        match thrown with
        | Some e => <["error" := JStr (message e)]> (<["success" := JBool false]> response)
        | None => response
        end in
      inr {| state := s; port := port m; name := name m;
             outbox := outbox m ++
               [{| dg_message := JObj response;
                   dg_port := Discovery.port ri;
                   dg_address := Discovery.address ri |}] |}
  end.

(** The ['message'] listener of [setupSocket]; [payload] is [None] when
    [JSON.parse] throws. Either failure is caught and logged. *)
Definition onMessage (payload : option json) (ri : Discovery.rinfo)
    (m : MockSmartBulb) : MockSmartBulb :=
  match payload with
  | None => m
  | Some request =>
      match handleRequest request ri m with
      | inr m' => m'
      | inl _ => m
      end
  end.

Definition getCurrentState (m : MockSmartBulb) : MockBulbState := state m.

Definition run (m : MockSmartBulb) (msgs : list (option json * Discovery.rinfo))
    : MockSmartBulb :=
  foldl (fun m x => onMessage x.1 x.2 m) m msgs.

(** *** Predicates of the proofs *)

(** A state of the declared type, with every value in its range. *)
Record state_ok (s : MockBulbState) : Prop := mkStateOk {
  ok_power : ∃ b, s !! "power" = Some (JBool b);
  ok_brightness :
    ∃ z, s !! "brightness" = Some (JNum z) ∧ (0 <= z <= 100)%Z;
  ok_color :
    ∃ r g b,
      s !! "color" =
        Some (JObj {[ "r" := JNum r; "g" := JNum g; "b" := JNum b ]}) ∧
      (0 <= r <= 255)%Z ∧ (0 <= g <= 255)%Z ∧ (0 <= b <= 255)%Z;
  ok_temperature : s !! "temperature" = Some (JNum 3000);
  ok_fields :
    ∀ k, is_Some (s !! k) →
         k ∈ ["power"; "brightness"; "color"; "temperature"]
}.

End MockBulb.

(** ** The proxy and the mock device, end to end *)

Module Wire.
Import Js.

(** [JSON.stringify(commandWithId)] as the receiver parses it: a property
    whose value is [undefined] is not written. *)
Definition stringify (cmd : Bulb.BulbCommand) : json :=
  let o := {[ "command" := JStr (Bulb.command cmd) ]} in
  let o := match Bulb.params cmd with
           | Some p => <["params" := p]> o
           | None => o
           end in
  JObj (match Bulb.id cmd with
        | Some s => <["id" := JStr s]> o
        | None => o
        end).


End Wire.

(** ** The registry of managed proxies: [BulbDiscovery.managedBulbs] *)

Module Registry.
Import Js.

(** The registry side of a [BulbDiscovery]: every proxy constructed so far,
    by handle (a proxy is an object shared by the Map and by whoever was
    handed it), and the Map from keys to proxies. *)
Record BulbDiscovery : Type := mkRegistry {
  bulbs : list Bulb.SmartBulb;
  managedBulbs : list (string * nat)
}.

Definition new : BulbDiscovery := {| bulbs := []; managedBulbs := [] |}.

(** [`${ip}:${port}`] *)
Definition key (ip : string) (port : Z) : string := ip +:+ ":" +:+ dec port.

(** [connectToBulb], up to its [await]: the proxy the call resolves with.
    A key that is present gives its proxy back at once; otherwise a proxy
    is constructed without a timeout of its own, stored, and pinged. The
    outcome of the ping is only logged. *)
Definition connectToBulb (ip : string) (port : Z) (rnd : string)
    (g : BulbDiscovery) : nat * BulbDiscovery :=
  let k := key ip port in
  match JsMap.get k (managedBulbs g) with
  | Some h => (h, g)
  | None =>
      let h := length (bulbs g) in
      let bulb := Bulb.new {| Bulb.ip := ip; Bulb.port := port; Bulb.timeout := None |} in
      (h, {| bulbs := bulbs g ++ [Bulb.exec (Bulb.ping rnd) bulb];
             managedBulbs := JsMap.set k h (managedBulbs g) |})
  end.

Definition getBulb (ip : string) (port : Z) (g : BulbDiscovery) : option nat :=
  JsMap.get (key ip port) (managedBulbs g).

Definition getAllManagedBulbs (g : BulbDiscovery) : list nat :=
  JsMap.values (managedBulbs g).

(** [bulb.close()], with the reactions it queues; [None] on a proxy that
    was closed before, whose socket cannot be closed again. *)
Definition close_bulb (h : nat) (bs : list Bulb.SmartBulb)
    : option (list Bulb.SmartBulb) :=
  b ← bs !! h;
  b' ← Bulb.step b Bulb.Close;
  Some (<[h := b']> bs).

Definition disconnectBulb (ip : string) (port : Z) (g : BulbDiscovery)
    : option BulbDiscovery :=
  let k := key ip port in
  match JsMap.get k (managedBulbs g) with
  | Some h =>
      bs ← close_bulb h (bulbs g);
      Some {| bulbs := bs; managedBulbs := JsMap.delete k (managedBulbs g) |}
  | None => Some g
  end.

(** The loop of [disconnectAllBulbs]. *)
Fixpoint close_all (entries : list (string * nat)) (bs : list Bulb.SmartBulb)
    : option (list Bulb.SmartBulb) :=
  match entries with
  | [] => Some bs
  | (_, h) :: rest => bs' ← close_bulb h bs; close_all rest bs'
  end.

Definition disconnectAllBulbs (g : BulbDiscovery) : option BulbDiscovery :=
  bs ← close_all (managedBulbs g) (bulbs g);
  Some {| bulbs := bs; managedBulbs := JsMap.clear (managedBulbs g) |}.

(** [close]: the proxies; the discovery socket is not part of this
    state. *)
Definition close (g : BulbDiscovery) : option BulbDiscovery :=
  disconnectAllBulbs g.

(** One element of [Promise.allSettled]'s argument: the proxy, the
    configuration read before the [await], and the [getStatus] request
    awaited. *)
Record inquiry : Type := mkInquiry {
  inq_bulb : nat;
  inq_config : Bulb.BulbConfig;
  inq_request : nat
}.

(** [getAllBulbStatuses], up to the [await] of [Promise.allSettled]: on
    every managed proxy, in Map order, [getConfig] and then [getStatus] up
    to its own [await]. The [i]-th identifier drawn is cut from
    [rnds i]. *)
Fixpoint ask_all (hs : list nat) (i : nat) (rnds : nat → string)
    (bs : list Bulb.SmartBulb) : option (list inquiry * list Bulb.SmartBulb) :=
  match hs with
  | [] => Some ([], bs)
  | h :: rest =>
      b ← bs !! h;
      b' ← Bulb.step b (Bulb.Call Bulb.GetStatus (rnds i));
      '(inquiries, bs') ← ask_all rest (S i) rnds (<[h := b']> bs);
      Some ({| inq_bulb := h; inq_config := Bulb.getConfig b;
               inq_request := length (Bulb.requests b) |} :: inquiries, bs')
  end.

Definition getAllBulbStatuses (rnds : nat → string) (g : BulbDiscovery)
    : option (list inquiry * BulbDiscovery) :=
  '(inquiries, bs) ← ask_all (getAllManagedBulbs g) 0 rnds (bulbs g);
  Some (inquiries, {| bulbs := bs; managedBulbs := managedBulbs g |}).

(** How the async arrow function of an inquiry completed, if it has. *)
Definition completion_of (q : inquiry) (g : BulbDiscovery)
    : option Bulb.completion :=
  b ← bulbs g !! inq_bulb q; Bulb.result_of b (inq_request q).

(** What [getAllBulbStatuses] resolves with once every inquiry has
    completed: the values of the fulfilled ones. *)
Definition statuses (inquiries : list inquiry) (g : BulbDiscovery)
    : option (list (Bulb.BulbConfig * Bulb.BulbStatus)) :=
  completions ← mapM (fun q => c ← completion_of q g; Some (q, c)) inquiries;
  Some (omap (fun qc : inquiry * Bulb.completion =>
                match qc.2 with
                | Bulb.Returned (Bulb.RetStatus s) => Some (inq_config qc.1, s)
                | _ => None
                end) completions).

(** What can happen to a registry: its own methods, and the use of a
    proxy by whoever holds it. Only the registry closes a proxy. *)
Inductive event : Type :=
| Connect (ip : string) (port : Z) (rnd : string)
| Disconnect (ip : string) (port : Z)
| DisconnectAll
| AllStatuses (rnds : nat → string)
| Use (h : nat) (ev : Bulb.event).

Definition use (h : nat) (ev : Bulb.event) (g : BulbDiscovery)
    : option BulbDiscovery :=
  match ev with
  | Bulb.Close => None
  | _ =>
      b ← bulbs g !! h;
      b' ← Bulb.step b ev;
      Some {| bulbs := <[h := b']> (bulbs g); managedBulbs := managedBulbs g |}
  end.

Definition step (g : BulbDiscovery) (ev : event) : option BulbDiscovery :=
  match ev with
  | Connect ip port rnd => Some (connectToBulb ip port rnd g).2
  | Disconnect ip port => disconnectBulb ip port g
  | DisconnectAll => disconnectAllBulbs g
  | AllStatuses rnds => snd <$> getAllBulbStatuses rnds g
  | Use h ev => use h ev g
  end.

Fixpoint run (g : BulbDiscovery) (evs : list event) : option BulbDiscovery :=
  match evs with
  | [] => Some g
  | ev :: evs' =>
      match step g ev with
      | Some g' => run g' evs'
      | None => None
      end
  end.

Definition reachable (g : BulbDiscovery) : Prop := ∃ evs, run new evs = Some g.

(** *** Predicates of the proofs *)

(** A state a proxy of that address can be in. *)
Definition stored (b : Bulb.SmartBulb) : Prop :=
  Bulb.reachable
    {| Bulb.ip := Bulb.ip (Bulb.config b); Bulb.port := Bulb.port (Bulb.config b);
       Bulb.timeout := None |} b.

Definition store_ok (bs : list Bulb.SmartBulb) : Prop :=
  ∀ h b, bs !! h = Some b → stored b.

(** Every key of the Map is the one its proxy's address spells, and that
    proxy is open. *)
Definition managed_ok (bs : list Bulb.SmartBulb) (m : list (string * nat)) : Prop :=
  ∀ k h, (k, h) ∈ m →
    ∃ b, bs !! h = Some b ∧ Bulb.closed b = false ∧
         k = key (Bulb.ip (Bulb.config b)) (Bulb.port (Bulb.config b)).

Record Inv (g : BulbDiscovery) : Prop := mkInv {
  inv_store : store_ok (bulbs g);
  inv_managed : managed_ok (bulbs g) (managedBulbs g);
  inv_keys : NoDup (JsMap.keys (managedBulbs g))
}.

(** A later state of a proxy: the configuration is the same, and the
    requests it had are still there, awaited by the same methods. *)
Definition later (b b' : Bulb.SmartBulb) : Prop :=
  Bulb.config b' = Bulb.config b ∧
  ∀ n r, Bulb.requests b !! n = Some r →
    ∃ r', Bulb.requests b' !! n = Some r' ∧
          Bulb.req_awaiter r' = Bulb.req_awaiter r.

Definition extends (bs bs' : list Bulb.SmartBulb) : Prop :=
  ∀ h b, bs !! h = Some b → ∃ b', bs' !! h = Some b' ∧ later b b'.

(** An inquiry stands for a [getStatus] of its proxy. *)
Definition tracked (q : inquiry) (bs : list Bulb.SmartBulb) : Prop :=
  ∃ b r, bs !! inq_bulb q = Some b ∧
         Bulb.requests b !! inq_request q = Some r ∧
         Bulb.req_awaiter r = Bulb.AwaitStatus.

(** What [close] leaves of a proxy: it is closed, its table is empty and
    every request that had an entry is rejected. *)
Definition shut (b b' : Bulb.SmartBulb) : Prop :=
  Bulb.closed b' = true ∧ Bulb.pendingCommands b' = [] ∧
  ∀ s n, JsMap.get s (Bulb.pendingCommands b) = Some n →
         Bulb.promise_of b' n =
           Some (Bulb.Rejected (mkError "Connection closed")).

(** An event that takes the proxy of an address out of the Map. *)
Definition forgets (ip : string) (port : Z) (ev : event) : Prop :=
  match ev with
  | Disconnect ip' port' => ip' = ip ∧ port' = port
  | DisconnectAll => True
  | _ => False
  end.

End Registry.

(** * Part II: properties *)

Module JsFacts.
Import Js.

Lemma get_prop_total v k x k' :
  get_prop v k = inr x → get_prop v k' = inr (prop v k').
Proof. unfold prop. destruct v; simpl; try done. Qed.

End JsFacts.

Module JsMapFacts.
Import JsMap.

Section Facts.
Context {V : Type}.
Implicit Types (k : string) (v : V) (m : list (string * V)).

Lemma get_set_eq k v m : get k (set k v m) = Some v.
Proof.
  induction m as [|[k' v'] m IH]; simpl.
  - by rewrite decide_True.
  - destruct (decide (k = k')) as [->|Hne]; simpl.
    + by rewrite decide_True.
    + by rewrite decide_False.
Qed.

Lemma get_set_ne k k' v m : k ≠ k' → get k' (set k v m) = get k' m.
Proof.
  intros Hne. induction m as [|[k0 v0] m IH]; simpl.
  - by rewrite decide_False.
  - destruct (decide (k = k0)) as [->|Hne0]; simpl.
    + by rewrite !decide_False.
    + destruct (decide (k' = k0)); done.
Qed.

Lemma get_delete_eq k m : get k (delete k m) = None.
Proof.
  induction m as [|[k' v'] m IH]; simpl; [done|].
  destruct (decide (k = k')) as [->|Hne]; simpl; [done|].
  by rewrite decide_False.
Qed.

Lemma get_delete_ne k k' m : k ≠ k' → get k' (delete k m) = get k' m.
Proof.
  intros Hne. induction m as [|[k0 v0] m IH]; simpl; [done|].
  destruct (decide (k = k0)) as [->|Hne0]; simpl.
  - by rewrite decide_False.
  - destruct (decide (k' = k0)); done.
Qed.

Lemma get_delete_Some k k' v m : get k' (delete k m) = Some v → get k' m = Some v.
Proof.
  destruct (decide (k = k')) as [->|Hne].
  - by rewrite get_delete_eq.
  - by rewrite get_delete_ne.
Qed.

Lemma get_None_set k v m : get k m = None → set k v m = m ++ [(k, v)].
Proof.
  induction m as [|[k' v'] m IH]; simpl; [done|].
  destruct (decide (k = k')); [done|]. intros H. by rewrite IH.
Qed.

Lemma get_Some_elem k v m : get k m = Some v → (k, v) ∈ m.
Proof.
  induction m as [|[k' v'] m IH]; simpl; [done|].
  destruct (decide (k = k')) as [->|Hne].
  - intros [= ->]. left.
  - intros H. right. by apply IH.
Qed.

Lemma length_set_Some k v m : is_Some (get k m) → length (set k v m) = length m.
Proof.
  induction m as [|[k' v'] m IH]; simpl.
  - by intros [? ?].
  - destruct (decide (k = k')); simpl; [done|]. intros H. by rewrite IH.
Qed.

Lemma has_true k m : has k m = true ↔ is_Some (get k m).
Proof.
  unfold has. destruct (get k m); split; eauto; try done.
Qed.

Lemma keys_set k v m :
  keys (set k v m) = if has k m then keys m else keys m ++ [k].
Proof.
  unfold has, keys. induction m as [|[k' v'] m IH]; simpl; [done|].
  destruct (decide (k = k')) as [->|Hne]; simpl; [done|].
  rewrite IH. by destruct (get k m).
Qed.

Lemma get_None_keys k m : get k m = None ↔ k ∉ keys m.
Proof.
  unfold keys. induction m as [|[k' v'] m IH]; simpl.
  - split; [intros _; apply not_elem_of_nil|done].
  - rewrite not_elem_of_cons. destruct (decide (k = k')) as [->|Hne].
    + split; [done|]. by intros [? _].
    + rewrite IH. tauto.
Qed.

Lemma NoDup_keys_set k v m : NoDup (keys m) → NoDup (keys (set k v m)).
Proof.
  intros Hnd. rewrite keys_set. unfold has.
  destruct (get k m) eqn:Hg; [done|].
  apply NoDup_app. split; [done|]. split; [|apply NoDup_singleton].
  intros x Hx ->%list_elem_of_singleton. by apply get_None_keys in Hg.
Qed.

Lemma Forall_set (P : string * V → Prop) k v m :
  P (k, v) → Forall P m → Forall P (set k v m).
Proof.
  intros Hkv. induction 1 as [|[k' v'] m Hx Hm IH]; simpl.
  - by apply Forall_singleton.
  - destruct (decide (k = k')); by constructor.
Qed.

Lemma elem_of_set e k v m : e ∈ set k v m → e = (k, v) ∨ e ∈ m.
Proof.
  induction m as [|[k' v'] m IH]; simpl.
  - intros ->%list_elem_of_singleton. by left.
  - destruct (decide (k = k')) as [->|Hne].
    + intros [->|H]%elem_of_cons; [by left|]. right. by right.
    + intros [->|H]%elem_of_cons; [right; by left|].
      destruct (IH H) as [->|?]; [by left|]. right. by right.
Qed.

Lemma get_elem_NoDup k v m : NoDup (keys m) → (k, v) ∈ m → get k m = Some v.
Proof.
  unfold keys. induction m as [|[k' v'] m IH]; simpl.
  - by intros _ ?%elem_of_nil.
  - intros [Hnin Hnd]%NoDup_cons [[= -> ->]|Hin]%elem_of_cons.
    + by rewrite decide_True.
    + destruct (decide (k = k')) as [->|Hne]; [|by apply IH].
      destruct Hnin. apply list_elem_of_fmap. by exists (k', v).
Qed.

Lemma delete_notin k m : get k m = None → delete k m = m.
Proof.
  induction m as [|[k' v'] m IH]; simpl; [done|].
  destruct (decide (k = k')); [done|]. intros H. by rewrite IH.
Qed.

Lemma keys_delete_subset k m x : x ∈ keys (delete k m) → x ∈ keys m ∧ x ≠ k.
Proof.
  unfold keys. induction m as [|[k' v'] m IH]; simpl.
  - by intros ?%elem_of_nil.
  - destruct (decide (k = k')) as [->|Hne]; simpl.
    + intros H. destruct (IH H). split; [by right|done].
    + intros [->|H]%elem_of_cons; [split; [by left|done]|].
      destruct (IH H). split; [by right|done].
Qed.

Lemma NoDup_keys_delete k m : NoDup (keys m) → NoDup (keys (delete k m)).
Proof.
  unfold keys. induction m as [|[k' v'] m IH]; simpl; [done|].
  intros [Hnin Hnd]%NoDup_cons. destruct (decide (k = k')); simpl; [by apply IH|].
  apply NoDup_cons. split; [|by apply IH].
  intros H. by apply keys_delete_subset in H as [? _].
Qed.

Lemma elem_of_delete e k m : e ∈ delete k m → e ∈ m ∧ e.1 ≠ k.
Proof.
  induction m as [|[k' v'] m IH]; simpl.
  - by intros ?%elem_of_nil.
  - destruct (decide (k = k')) as [->|Hne].
    + intros H. destruct (IH H). split; [by right|done].
    + intros [->|H]%elem_of_cons; [split; [by left|done]|].
      destruct (IH H). split; [by right|done].
Qed.

End Facts.

End JsMapFacts.

Module BulbProofs.
Import Js JsFacts Bulb.

(** *** Sample runs *)

Example run_turnOn_ok :
  (st ← run (new cfg0)
     [Call TurnOn "0.4fzyo82mvyr";
      Message (Some (response_ok "4fzyo82mvyr" (json_obj [("power", JBool true)])))];
   Some (promise_of st 0, result_of st 0, pendingCommands st,
         lastStatus st !! "power", lastStatus st !! "connected"))
  = Some (Some (Fulfilled (response_ok "4fzyo82mvyr" (json_obj [("power", JBool true)]))),
          Some (Returned RetVoid), [],
          Some (JBool true), Some (JBool true)).
Proof. reflexivity. Qed.

Example run_setBrightness_remote_failure :
  (st ← run (new cfg0)
     [Call (SetBrightness (Num 40)) "0.abc";
      Message (Some (response_fail "abc" "Invalid brightness parameter"))];
   Some (result_of st 0, pendingCommands st))
  = Some (Some (Raised (mkError "Invalid brightness parameter")), []).
Proof. reflexivity. Qed.

Example run_ping_timeout :
  (st ← run (new cfg0) [Call Ping "0.abc"; TimerExpired 0];
   Some (promise_of st 0, result_of st 0, pendingCommands st))
  = Some (Some (Rejected (mkError "Command timeout")),
          Some (Returned (RetBool false)), []).
Proof. reflexivity. Qed.

Example run_out_of_order :
  (st ← run (new cfg0)
     [Call TurnOn "0.aaa"; Call Ping "0.bbb";
      Message (Some (response_ok "bbb" (json_obj [("pong", JBool true)])));
      Message (Some (response_fail "aaa" "busy"))];
   Some (result_of st 0, result_of st 1))
  = Some (Some (Raised (mkError "busy")), Some (Returned (RetBool true))).
Proof. reflexivity. Qed.

Example parseInt16_ff : parseInt16 "fF" = Num 255.
Proof. reflexivity. Qed.

Example hex_exec_hash : hex_exec "#FF00aa" = Some ("FF", "00", "aa").
Proof. reflexivity. Qed.

Example hex_exec_short : hex_exec "#FF00a" = None.
Proof. reflexivity. Qed.

(** *** Invariants of the event loop *)

Create HintDb bulb.

#[local] Hint Unfold exec bind modify gets ret lift throw try_catch : bulb.

#[local] Hint Unfold await resume_void resume_getStatus resume_ping : bulb.

#[local] Hint Unfold updateStatus settle resolve reject clearTimeout : bulb.

#[local] Hint Unfold pending_delete : bulb.

Ltac munfold := autounfold with bulb in *; simpl in *.

Lemma same_core_refl r : same_core r r.
Proof. by repeat split. Qed.

Lemma same_core_trans r1 r2 r3 : same_core r1 r2 → same_core r2 r3 → same_core r1 r3.
Proof. unfold same_core. intros (?&?&?&?&?) (?&?&?&?&?). repeat split; congruence. Qed.

#[local] Instance same_core_preorder : PreOrder same_core.
Proof.
  split; [intros r; apply same_core_refl|intros r1 r2 r3; apply same_core_trans].
Qed.

Lemma same_core_set_result c r : same_core r (set_result c r).
Proof. by repeat split. Qed.

(** The continuations touch nothing but the cached status. *)
Lemma continuation_fields aw o st :
  ∃ f, (continuation aw o st).2 = with_lastStatus f st.
Proof.
  destruct st as [c ls p rq ob mq cl].
  destruct aw, o as [v|e]; unfold continuation; munfold;
    try (by exists (fun s => s)).
  destruct (get_prop v "data") as [e|d]; simpl; [by exists (fun s => s)|].
  destruct (truthy d); simpl; [|by exists (fun s => s)].
  by eexists (fun s => <["connected" := JBool true]> (props d ∪ s)).
Qed.

(** A continuation changes the cached status only when [getStatus] resumes
    on a fulfilled promise. *)
Lemma continuation_lastStatus aw o st :
  (∀ v, ¬ (aw = AwaitStatus ∧ o = Fulfilled v)) →
  lastStatus (continuation aw o st).2 = lastStatus st.
Proof.
  intros H. destruct aw, o as [v|e]; unfold continuation; munfold; try done.
  by destruct (H v).
Qed.

Lemma continuation_result_ok aw o st r :
  req_awaiter r = aw → req_promise r = Some o →
  result_ok (set_result (to_completion (continuation aw o st).1) r).
Proof.
  intros Haw Ho. unfold result_ok. simpl. rewrite Ho, Haw.
  destruct aw, o as [v|e]; unfold continuation; munfold; try done; try by eexists.
  destruct (get_prop v "data") as [e|d]; simpl; [by eexists|].
  destruct (truthy d); simpl; by eexists.
Qed.

Lemma same_core_all_refl rs : Forall2 same_core rs rs.
Proof. reflexivity. Qed.

Lemma resume_unfold n st r o :
  requests st !! n = Some r → req_promise r = Some o →
  resume n st =
    with_requests
      (fun rs => alter (set_result (to_completion (continuation (req_awaiter r) o st).1)) n rs)
      (continuation (req_awaiter r) o st).2.
Proof.
  intros Hr Ho. unfold resume. rewrite Hr, Ho.
  by destruct (continuation (req_awaiter r) o st).
Qed.

Lemma resume_idle n st :
  (∀ r, requests st !! n = Some r → req_promise r = None) → resume n st = st.
Proof.
  intros H. unfold resume. destruct (requests st !! n) as [r|]; [|done].
  by rewrite (H r eq_refl).
Qed.

Lemma resume_fields n st :
  config (resume n st) = config st ∧
  pendingCommands (resume n st) = pendingCommands st ∧
  outbox (resume n st) = outbox st ∧
  microtasks (resume n st) = microtasks st ∧
  closed (resume n st) = closed st ∧
  length (requests (resume n st)) = length (requests st).
Proof.
  destruct (requests st !! n) as [r|] eqn:Hr.
  - destruct (req_promise r) as [o|] eqn:Ho.
    + rewrite (resume_unfold n st r o Hr Ho).
      destruct (continuation_fields (req_awaiter r) o st) as [f ->]. simpl.
      by rewrite length_alter.
    + rewrite resume_idle; [done|]. intros r' Hr'. congruence.
  - rewrite resume_idle; [done|]. intros r' Hr'. congruence.
Qed.

Lemma resume_lookup_ne n m st :
  m ≠ n → requests (resume n st) !! m = requests st !! m.
Proof.
  intros Hne. destruct (requests st !! n) as [r|] eqn:Hr.
  - destruct (req_promise r) as [o|] eqn:Ho.
    + rewrite (resume_unfold n st r o Hr Ho).
      destruct (continuation_fields (req_awaiter r) o st) as [f ->]. simpl.
      by rewrite list_lookup_alter_ne.
    + rewrite resume_idle; [done|]. intros r' Hr'. congruence.
  - rewrite resume_idle; [done|]. intros r' Hr'. congruence.
Qed.

Lemma resume_lookup_eq n st r o :
  requests st !! n = Some r → req_promise r = Some o →
  requests (resume n st) !! n =
    Some (set_result (to_completion (continuation (req_awaiter r) o st).1) r).
Proof.
  intros Hr Ho. rewrite (resume_unfold n st r o Hr Ho).
  destruct (continuation_fields (req_awaiter r) o st) as [f ->]. simpl.
  by rewrite list_lookup_alter_eq, Hr.
Qed.

Lemma resume_requests n st :
  Forall2 same_core (requests st) (requests (resume n st)).
Proof.
  apply Forall2_same_length_lookup_2; [symmetry; apply resume_fields|].
  intros i x y Hx Hy. destruct (decide (i = n)) as [->|Hne].
  - destruct (req_promise x) as [o|] eqn:Ho.
    + rewrite (resume_lookup_eq n st x o Hx Ho) in Hy. injection Hy as <-.
      apply same_core_set_result.
    + rewrite resume_idle in Hy by (intros; congruence).
      rewrite Hx in Hy. injection Hy as ->. apply same_core_refl.
  - rewrite resume_lookup_ne in Hy by done. rewrite Hx in Hy. injection Hy as ->.
    apply same_core_refl.
Qed.

Lemma run_queue_fields q st :
  config (run_queue q st) = config st ∧
  pendingCommands (run_queue q st) = pendingCommands st ∧
  outbox (run_queue q st) = outbox st ∧
  microtasks (run_queue q st) = microtasks st ∧
  closed (run_queue q st) = closed st.
Proof.
  revert st. induction q as [|n q IH]; intros st; simpl; [done|].
  destruct (IH (resume n st)) as (->&->&->&->&->).
  destruct (resume_fields n st) as (->&->&->&->&->&_). done.
Qed.

Lemma run_queue_requests q st :
  Forall2 same_core (requests st) (requests (run_queue q st)).
Proof.
  revert st. induction q as [|n q IH]; intros st; simpl.
  - apply same_core_all_refl.
  - etrans; [apply resume_requests|apply IH].
Qed.

Lemma run_queue_results q st :
  (∀ n r, requests st !! n = Some r →
     (n ∈ q → is_Some (req_promise r)) ∧ (n ∉ q → result_ok r)) →
  ∀ n r, requests (run_queue q st) !! n = Some r → result_ok r.
Proof.
  revert st. induction q as [|m q IH]; intros st H n r Hr; simpl in *.
  - apply (H n r Hr). apply not_elem_of_nil.
  - apply (IH (resume m st)) with (n := n); [|done].
    clear n r Hr. intros n r Hr. destruct (decide (n = m)) as [->|Hne].
    + destruct (requests st !! m) as [r0|] eqn:Hr0.
      2:{ rewrite resume_idle in Hr by (intros; congruence). congruence. }
      destruct (H m r0 Hr0) as [Hq _].
      destruct (Hq ltac:(left)) as [o Ho].
      rewrite (resume_lookup_eq m st r0 o Hr0 Ho) in Hr. injection Hr as <-.
      split; intros _.
      * simpl. by rewrite Ho.
      * by apply continuation_result_ok.
    + rewrite resume_lookup_ne in Hr by done.
      destruct (H n r Hr) as [H1 H2]. split.
      * intros Hin. apply H1. by right.
      * intros Hnin. apply H2. intros Hin. apply Hnin.
        apply elem_of_cons in Hin as [?|?]; done.
Qed.

Lemma drain_unfold st :
  drain st = run_queue (microtasks st) (with_microtasks (fun _ => []) st).
Proof. reflexivity. Qed.

Lemma drain_fields st :
  config (drain st) = config st ∧
  pendingCommands (drain st) = pendingCommands st ∧
  outbox (drain st) = outbox st ∧
  microtasks (drain st) = [] ∧
  closed (drain st) = closed st.
Proof.
  rewrite drain_unfold.
  destruct (run_queue_fields (microtasks st) (with_microtasks (fun _ => []) st))
    as (->&->&->&->&->). done.
Qed.

Lemma drain_requests st :
  Forall2 same_core (requests st) (requests (drain st)).
Proof. rewrite drain_unfold. apply (run_queue_requests _ (with_microtasks _ st)). Qed.

Lemma drain_lookup st n r' :
  requests (drain st) !! n = Some r' →
  ∃ r, requests st !! n = Some r ∧ same_core r r'.
Proof.
  intros H. destruct (Forall2_lookup_r _ _ _ _ _ (drain_requests st) H) as (r&?&?).
  eauto.
Qed.

Lemma drain_lookup_l st n r :
  requests st !! n = Some r →
  ∃ r', requests (drain st) !! n = Some r' ∧ same_core r r'.
Proof.
  intros H. destruct (Forall2_lookup_l _ _ _ _ _ (drain_requests st) H) as (r'&?&?).
  eauto.
Qed.

Lemma drain_Inv st : Post st → Inv (drain st).
Proof.
  intros [Ht Hq Hc].
  destruct (drain_fields st) as (Hcfg&Hp&Ho&Hm&Hcl).
  split.
  - intros s n Hs. rewrite Hp in Hs. destruct (Ht s n Hs) as (r&Hr&?&?&?).
    destruct (drain_lookup_l st n r Hr) as (r'&Hr'&(?&?&?&?&?)).
    exists r'. repeat split; congruence.
  - done.
  - intros n r Hr. rewrite Hm. split; [by intros ?%elem_of_nil|intros _].
    rewrite drain_unfold in Hr.
    eapply run_queue_results; [|exact Hr]. simpl. exact Hq.
  - intros Hcl'. rewrite Hp. apply Hc. congruence.
Qed.

(** *** What each callback leaves behind *)

Lemma matches_Some response st n :
  matches response st = Some n →
  ∃ s, get_prop response "id" = inr (Some (JStr s)) ∧ s ≠ "" ∧
       JsMap.get s (pendingCommands st) = Some n.
Proof.
  unfold matches. destruct (get_prop response "id") as [e|rid] eqn:Hid; [done|].
  destruct (truthy rid && pending_has rid st) eqn:Hb; [|done].
  apply andb_prop in Hb as [Ht Hh].
  unfold pending_has, pending_get in *.
  destruct rid as [[| | |s| |]|]; simpl in *; try done.
  intros Hg. exists s. split; [done|]. split; [|done].
  intros ->. done.
Qed.


Lemma exec_onMessage_garbled st : exec (onMessage None) st = st.
Proof. reflexivity. Qed.

Lemma exec_onMessage_null st : exec (onMessage (Some JNull)) st = st.
Proof. reflexivity. Qed.

Lemma exec_onMessage_nomatch response st :
  matches response st = None →
  exec (onMessage (Some response)) st = status_hook response st.
Proof.
  unfold matches, onMessage, handleResponse, status_hook. munfold.
  destruct (get_prop response "id") as [e|rid] eqn:Hid.
  { destruct response; simpl in Hid; try done. }
  rewrite (get_prop_total _ _ _ "data" Hid).
  destruct (truthy rid && pending_has rid st) eqn:Hb.
  - intros Hg. rewrite Hg. simpl.
    by destruct (truthy (prop response "data") && is_object (prop response "data")).
  - intros _. simpl.
    by destruct (truthy (prop response "data") && is_object (prop response "data")).
Qed.

Lemma exec_onMessage_match response st n s :
  get_prop response "id" = inr (Some (JStr s)) →
  matches response st = Some n →
  exec (onMessage (Some response)) st =
    status_hook response (finish n s (set_timer false) (outcome response) st).
Proof.
  intros Hid Hm. unfold matches in Hm. rewrite Hid in Hm.
  destruct (truthy (Some (JStr s)) && pending_has (Some (JStr s)) st) eqn:Hb; [|done].
  unfold onMessage, handleResponse, status_hook, finish, outcome.
  autounfold with bulb. rewrite Hid. cbv beta iota. rewrite Hb. cbv beta iota.
  rewrite Hm. cbv beta iota.
  rewrite (get_prop_total _ _ _ "data" Hid).
  rewrite (get_prop_total _ _ _ "success" Hid).
  rewrite (get_prop_total _ _ _ "error" Hid).
  simpl.
  destruct (truthy (prop response "success")); simpl.
  - by destruct (truthy (prop response "data") && is_object (prop response "data")).
  - by destruct (truthy (prop response "data") && is_object (prop response "data")).
Qed.

Lemma flag_update_timer b : flag_update (set_timer b).
Proof. by intros r. Qed.

Lemma flag_update_callback b : flag_update (set_callback b).
Proof. by intros r. Qed.

Lemma flag_update_compose f g : flag_update f → flag_update g → flag_update (f ∘ g).
Proof.
  intros Hf Hg r. destruct (Hf (g r)) as (?&?&?&?), (Hg r) as (?&?&?&?).
  simpl. repeat split; congruence.
Qed.

Lemma result_ok_flag f r : flag_update f → result_ok (f r) ↔ result_ok r.
Proof.
  intros Hf. destruct (Hf r) as (_&Ha&Hp&Hr). unfold result_ok.
  by rewrite Ha, Hp, Hr.
Qed.

Lemma queued_ok_ext st st' :
  requests st' = requests st → microtasks st' = microtasks st →
  queued_ok st → queued_ok st'.
Proof. unfold queued_ok. intros -> ->. done. Qed.

Lemma table_ok_ext st st' :
  requests st' = requests st → pendingCommands st' = pendingCommands st →
  table_ok st → table_ok st'.
Proof. unfold table_ok. intros -> ->. done. Qed.

Lemma Post_ext st st' :
  requests st' = requests st → pendingCommands st' = pendingCommands st →
  microtasks st' = microtasks st → closed st' = closed st →
  Post st → Post st'.
Proof.
  intros Hr Hp Hm Hc [Ht Hq Hcl]. split.
  - by apply (table_ok_ext st).
  - by apply (queued_ok_ext st).
  - unfold closed_ok. rewrite Hc, Hp. done.
Qed.

Lemma Inv_Post st : Inv st → Post st.
Proof. intros [? ? ? ?]. by split. Qed.

Lemma queued_ok_alter f n st :
  flag_update f → queued_ok st → queued_ok (with_requests (alter f n) st).
Proof.
  intros Hf Hq m r'. simpl. intros Hr'.
  destruct (decide (m = n)) as [->|Hne].
  - rewrite list_lookup_alter_eq in Hr'.
    destruct (requests st !! n) as [r|] eqn:Hr; [|done].
    simpl in Hr'. injection Hr' as <-. destruct (Hq n r Hr) as [H1 H2].
    destruct (Hf r) as (_&_&Hp&_). rewrite Hp. split; [done|].
    intros ?. apply result_ok_flag; auto.
  - rewrite list_lookup_alter_ne in Hr' by done. by apply Hq.
Qed.

Lemma exec_settle n o st :
  exec (settle n o) st =
    match requests st !! n with
    | Some r =>
        match req_promise r with
        | None =>
            with_microtasks (fun q => q ++ [n])
              (with_requests (alter (set_promise o) n) st)
        | Some _ => st
        end
    | None => st
    end.
Proof. reflexivity. Qed.

Lemma queued_ok_settle n o st : queued_ok st → queued_ok (exec (settle n o) st).
Proof.
  intros Hq. rewrite exec_settle.
  destruct (requests st !! n) as [r|] eqn:Hr; [|done].
  destruct (req_promise r) eqn:Hp; [done|].
  intros m r'. simpl. intros Hr'.
  destruct (decide (m = n)) as [->|Hne].
  - rewrite list_lookup_alter_eq, Hr in Hr'. simpl in Hr'. injection Hr' as <-.
    simpl. split; [by eexists|]. intros Hn. exfalso. apply Hn.
    apply elem_of_app. right. left.
  - rewrite list_lookup_alter_ne in Hr' by done.
    destruct (Hq m r' Hr') as [H1 H2]. split.
    + intros [Hin|Hin%list_elem_of_singleton]%elem_of_app; [auto|done].
    + intros Hn. apply H2. intros Hin. apply Hn, elem_of_app. by left.
Qed.

Lemma lookup_finish_ne n s f o st m :
  m ≠ n → requests (finish n s f o st) !! m = requests st !! m.
Proof.
  intros Hne. unfold finish. rewrite exec_settle. simpl.
  destruct (alter f n (requests st) !! n) as [r|]; simpl.
  - destruct (req_promise r); simpl; by rewrite ?list_lookup_alter_ne.
  - by rewrite list_lookup_alter_ne.
Qed.

Lemma pendingCommands_finish n s f o st :
  pendingCommands (finish n s f o st) = JsMap.delete s (pendingCommands st).
Proof.
  unfold finish. rewrite exec_settle. simpl.
  destruct (alter f n (requests st) !! n) as [r|]; simpl; [|done].
  by destruct (req_promise r).
Qed.

Lemma table_ok_finish n s f o st r :
  table_ok st → requests st !! n = Some r → req_id r = s →
  table_ok (finish n s f o st).
Proof.
  intros Ht Hr Hid s' m. rewrite pendingCommands_finish. intros Hg.
  destruct (decide (s = s')) as [->|Hne]; [by rewrite JsMapFacts.get_delete_eq in Hg|].
  rewrite JsMapFacts.get_delete_ne in Hg by done.
  destruct (Ht s' m Hg) as (r0&Hr0&Hid0&Hp0&Ht0).
  assert (m ≠ n) as Hmn by (intros ->; congruence).
  exists r0. by rewrite lookup_finish_ne.
Qed.

Lemma Post_finish n s f o st r :
  Inv st → requests st !! n = Some r → req_id r = s → flag_update f →
  Post (finish n s f o st).
Proof.
  intros [Ht Hm Hq Hc] Hr Hid Hf. split.
  - by eapply table_ok_finish.
  - apply queued_ok_settle.
    apply (queued_ok_ext (with_requests (alter f n) st)); [done|done|].
    by apply queued_ok_alter.
  - unfold closed_ok. rewrite pendingCommands_finish.
    unfold finish. rewrite exec_settle. simpl.
    rewrite list_lookup_alter_eq, Hr. simpl.
    destruct (req_promise (f r)); simpl; intros Hcl; by rewrite (Hc Hcl).
Qed.

Lemma Post_status_hook response st : Post st → Post (status_hook response st).
Proof.
  unfold status_hook.
  destruct (truthy (prop response "data") && is_object (prop response "data")); [|done].
  by apply Post_ext.
Qed.

Lemma exec_onTimeout n st r :
  requests st !! n = Some r →
  exec (onTimeout n) st =
    finish n (req_id r) (set_timer false) (Rejected (mkError "Command timeout")) st.
Proof. intros Hr. unfold onTimeout, finish. munfold. by rewrite Hr. Qed.

Lemma exec_onSendDone_error n e st r :
  requests st !! n = Some r →
  exec (onSendDone n (Some e)) st =
    finish n (req_id r) (set_timer false ∘ set_callback false) (Rejected e) st.
Proof.
  intros Hr. unfold onSendDone, finish. munfold. rewrite Hr. simpl.
  unfold with_requests, with_pendingCommands, with_microtasks. simpl.
  by rewrite !list_alter_alter_eq.
Qed.

Lemma exec_onSendDone_ok n st r :
  requests st !! n = Some r →
  exec (onSendDone n None) st = with_requests (alter (set_callback false) n) st.
Proof. intros Hr. unfold onSendDone. munfold. by rewrite Hr. Qed.

Lemma exec_sendCommand aw rnd cmd st :
  sendCommand aw rnd cmd st =
    (inr (length (requests st)),
     with_outbox (fun o => o ++
        [{| dg_message := {| command := command cmd; params := params cmd;
                             id := Some (generateCommandId rnd) |};
            dg_port := port (config st); dg_ip := ip (config st) |}])
       (with_pendingCommands
          (JsMap.set (generateCommandId rnd) (length (requests st)))
          (with_requests (fun rs => rs ++
             [{| req_id := generateCommandId rnd; req_awaiter := aw;
                 req_promise := None; req_timer := true; req_callback := true;
                 req_result := None |}]) st))).
Proof. reflexivity. Qed.

Lemma Post_sendCommand aw rnd cmd st :
  Inv st → closed st = false → Post (exec (sendCommand aw rnd cmd) st).
Proof.
  intros [Ht Hm Hq Hc] Hcl. unfold exec. rewrite exec_sendCommand. simpl. split.
  - intros s m. simpl.
    destruct (decide (generateCommandId rnd = s)) as [<-|Hne].
    + rewrite JsMapFacts.get_set_eq. intros [= <-].
      eexists. split; [by rewrite lookup_app_r, Nat.sub_diag|]. done.
    + rewrite JsMapFacts.get_set_ne by done. intros Hg.
      destruct (Ht s m Hg) as (r0&Hr0&?). exists r0.
      split; [|done]. by rewrite lookup_app_l by (by eapply lookup_lt_Some).
  - intros m r'. simpl. rewrite Hm. intros Hr'.
    split; [by intros ?%elem_of_nil|intros _].
    apply lookup_app_Some in Hr' as [Hr'|[_ Hr']].
    + destruct (Hq m r' Hr') as [_ H2]. apply H2. rewrite Hm. apply not_elem_of_nil.
    + destruct (m - length (requests st))%nat; simpl in Hr'; [|done].
      by injection Hr' as <-.
  - unfold closed_ok. simpl. congruence.
Qed.

Lemma invoke_cases c rnd st :
  (∃ e, invoke c rnd st = (inl e, st)) ∨
  (∃ aw cmd, invoke c rnd st = sendCommand aw rnd cmd st).
Proof.
  destruct c; simpl; unfold turnOn, turnOff, setBrightness, setColor,
    setColorHex, getStatus, ping; eauto.
  - destruct (_ || _); eauto.
  - destruct (_ || _); eauto.
  - destruct (hex_exec hex) as [[[g1 g2] g3]|]; [|eauto].
    unfold setColor. destruct (_ || _); eauto.
Qed.

Lemma close_loop_unfold entries st :
  close_loop entries st =
    (inr tt, close_entries entries st).
Proof.
  revert st. induction entries as [|[s n] entries IH]; intros st; [done|].
  simpl. unfold bind at 1. unfold clearTimeout at 1, modify at 1.
  unfold bind at 1. unfold reject, settle at 1, modify at 1.
  by rewrite IH.
Qed.

Lemma exec_close st :
  exec close st =
    with_closed true
      (with_pendingCommands JsMap.clear
         (close_entries (pendingCommands st) st)).
Proof.
  unfold exec, close. unfold bind at 1, gets at 1.
  unfold bind at 1. by rewrite close_loop_unfold.
Qed.

Lemma close_entry_fields n st :
  pendingCommands (close_entry n st) = pendingCommands st ∧
  closed (close_entry n st) = closed st ∧
  lastStatus (close_entry n st) = lastStatus st ∧
  outbox (close_entry n st) = outbox st ∧
  config (close_entry n st) = config st.
Proof.
  unfold close_entry. rewrite exec_settle. simpl.
  destruct (alter (set_timer false) n (requests st) !! n) as [r|]; [|done].
  by destruct (req_promise r).
Qed.

Lemma queued_ok_close_entry n st : queued_ok st → queued_ok (close_entry n st).
Proof.
  intros Hq. apply queued_ok_settle.
  apply (queued_ok_alter _ n st); [apply flag_update_timer|done].
Qed.

Lemma queued_ok_close_entries entries st :
  queued_ok st → queued_ok (close_entries entries st).
Proof.
  revert st. induction entries as [|[s n] entries IH]; intros st Hq; [done|].
  simpl. by apply IH, queued_ok_close_entry.
Qed.

Lemma Post_close st : Inv st → Post (exec close st).
Proof.
  intros [Ht Hm Hq Hc]. rewrite exec_close. split.
  - intros s n. simpl. done.
  - apply (queued_ok_ext (close_entries (pendingCommands st) st));
      [done|done|].
    by apply queued_ok_close_entries.
  - done.
Qed.

Lemma new_Inv cfg : Inv (new cfg).
Proof.
  split; done.
Qed.

Lemma with_lastStatus_id st : with_lastStatus (fun s => s) st = st.
Proof. by destruct st. Qed.

Lemma status_hook_eq response st :
  status_hook response st = with_lastStatus (hook_fn response) st.
Proof.
  unfold status_hook, hook_fn.
  destruct (truthy (prop response "data") && is_object (prop response "data"));
    [done|by rewrite with_lastStatus_id].
Qed.

Lemma dispatch_shape st ev st1 :
  Inv st → dispatch st ev = Some st1 → shape st st1.
Proof.
  intros HI Hs. destruct ev as [c rnd|payload|n|n err|]; simpl in Hs.
  - destruct (closed st) eqn:Hcl; [done|]. injection Hs as <-. unfold exec.
    destruct (invoke_cases c rnd st) as [[e ->]|(aw&cmd&->)].
    + constructor.
    + by apply shape_send.
  - destruct (closed st) eqn:Hcl; [done|]. injection Hs as <-.
    destruct payload as [response|].
    2:{ rewrite exec_onMessage_garbled. constructor. }
    destruct (matches response st) as [n|] eqn:Hm.
    + destruct (matches_Some _ _ _ Hm) as (s&Hid&Hs&Hg).
      rewrite (exec_onMessage_match _ _ n s Hid Hm), status_hook_eq.
      apply shape_status.
      destruct (inv_table st HI s n Hg) as (r&Hr&Hrid&_).
      eapply shape_finish; eauto using flag_update_timer.
    + rewrite exec_onMessage_nomatch, status_hook_eq by done.
      apply shape_status. constructor.
  - destruct (requests st !! n) as [r|] eqn:Hr; [|done].
    destruct (req_timer r); [|done]. injection Hs as <-.
    rewrite (exec_onTimeout n st r Hr).
    eapply shape_finish; eauto using flag_update_timer.
  - destruct (requests st !! n) as [r|] eqn:Hr; [|done].
    destruct (req_callback r); [|done]. injection Hs as <-.
    destruct err as [e|].
    + rewrite (exec_onSendDone_error n e st r Hr).
      eapply shape_finish; eauto.
      apply flag_update_compose; [apply flag_update_timer|apply flag_update_callback].
    + rewrite (exec_onSendDone_ok n st r Hr).
      apply shape_callback.
  - destruct (closed st) eqn:Hcl; [done|]. injection Hs as <-. constructor.
Qed.

Lemma Post_callback n st :
  Inv st → Post (with_requests (alter (set_callback false) n) st).
Proof.
  intros [Ht Hm Hq Hc]. split.
  - intros s m Hg. simpl in *. destruct (Ht s m Hg) as (r0&Hr0&?&?&?).
    destruct (decide (m = n)) as [->|Hne].
    + exists (set_callback false r0). by rewrite list_lookup_alter_eq, Hr0.
    + exists r0. by rewrite list_lookup_alter_ne.
  - apply (queued_ok_alter _ n st); [apply flag_update_callback|done].
  - done.
Qed.

Lemma shape_Post st st1 : Inv st → shape st st1 → Post st1.
Proof.
  intros HI Hsh. induction Hsh.
  - by apply Inv_Post.
  - by apply Post_sendCommand.
  - by eapply Post_finish.
  - by apply Post_callback.
  - by apply Post_close.
  - by apply (Post_ext st1).
Qed.

Lemma step_dispatch st ev st' :
  step st ev = Some st' ↔ ∃ st1, dispatch st ev = Some st1 ∧ st' = drain st1.
Proof.
  unfold step. destruct (dispatch st ev) as [st1|]; simpl; split.
  - intros [= <-]. eauto.
  - by intros (?&[= <-]&->).
  - done.
  - by intros (?&?&_).
Qed.

Lemma step_Inv st ev st' : Inv st → step st ev = Some st' → Inv st'.
Proof.
  intros HI (st1&Hd&->)%step_dispatch.
  by eapply drain_Inv, shape_Post, dispatch_shape.
Qed.

Lemma run_Inv evs st st' : Inv st → run st evs = Some st' → Inv st'.
Proof.
  revert st. induction evs as [|ev evs IH]; intros st HI; simpl.
  - by intros [= <-].
  - destruct (step st ev) as [st1|] eqn:Hs; [|done].
    apply IH. by eapply step_Inv.
Qed.

Lemma reachable_Inv cfg st : reachable cfg st → Inv st.
Proof. intros [evs Hr]. eapply run_Inv; [apply new_Inv|done]. Qed.

Lemma reachable_step cfg st ev st' :
  reachable cfg st → step st ev = Some st' → reachable cfg st'.
Proof.
  intros [evs Hr] Hs. exists (evs ++ [ev]).
  revert Hr. generalize (new cfg). induction evs as [|e evs IH]; intros st0; simpl.
  - intros [= ->]. by rewrite Hs.
  - destruct (step st0 e); [apply IH|done].
Qed.

(** *** Settling one pending request and running its reaction *)

Lemma with_microtasks_nil st :
  microtasks st = [] → with_microtasks (fun _ => []) st = st.
Proof. destruct st. simpl. by intros ->. Qed.

Lemma drain_nil st : microtasks st = [] → drain st = st.
Proof. intros H. rewrite drain_unfold, H. simpl. by apply with_microtasks_nil. Qed.


Lemma continuation_rejected aw e st :
  (continuation aw (Rejected e) st).2 = st ∧
  to_completion (continuation aw (Rejected e) st).1 =
    match aw with
    | AwaitVoid => Raised e
    | AwaitStatus =>
        Returned (RetStatus (<["connected" := JBool false]> (lastStatus st)))
    | AwaitPing => Returned (RetBool false)
    end.
Proof. by destruct aw. Qed.



(** *** A settled promise stays as it is *)

Lemma promise_of_Some st n o :
  promise_of st n = Some o ↔
  ∃ r, requests st !! n = Some r ∧ req_promise r = Some o.
Proof. unfold promise_of. apply bind_Some. Qed.

Lemma promise_of_lookup st n r :
  requests st !! n = Some r → promise_of st n = req_promise r.
Proof. unfold promise_of. by intros ->. Qed.


Lemma keeps_refl st : keeps st st.
Proof. by intros n o. Qed.

Lemma keeps_trans st1 st2 st3 : keeps st1 st2 → keeps st2 st3 → keeps st1 st3.
Proof. intros H1 H2 n o H. by apply H2, H1. Qed.


Lemma keeps_alter f n st :
  flag_update f → keeps st (with_requests (alter f n) st).
Proof.
  intros Hf m o (r&Hr&Ho)%promise_of_Some. apply promise_of_Some. simpl.
  destruct (decide (m = n)) as [->|Hne].
  - exists (f r). rewrite list_lookup_alter_eq, Hr. split; [done|].
    destruct (Hf r) as (_&_&->&_). done.
  - exists r. by rewrite list_lookup_alter_ne.
Qed.

Lemma keeps_settle n o st : keeps st (exec (settle n o) st).
Proof.
  rewrite exec_settle. destruct (requests st !! n) as [r|] eqn:Hr; [|apply keeps_refl].
  destruct (req_promise r) eqn:Hp; [apply keeps_refl|].
  intros m o' (r'&Hr'&Ho')%promise_of_Some. apply promise_of_Some. simpl.
  assert (m ≠ n) by (intros ->; congruence).
  exists r'. by rewrite list_lookup_alter_ne.
Qed.


Lemma keeps_close_entries entries st : keeps st (close_entries entries st).
Proof.
  revert st. induction entries as [|[s n] entries IH]; intros st; [apply keeps_refl|].
  simpl. eapply keeps_trans; [|apply IH].
  unfold close_entry. eapply keeps_trans; [|apply keeps_settle].
  apply keeps_alter, flag_update_timer.
Qed.



Lemma drain_promise_of st n : promise_of (drain st) n = promise_of st n.
Proof.
  unfold promise_of. destruct (requests st !! n) as [r|] eqn:Hr.
  - destruct (drain_lookup_l st n r Hr) as (r'&->&(_&_&Hp&_)). done.
  - destruct (requests (drain st) !! n) as [r'|] eqn:Hr'; [|done].
    destruct (drain_lookup st n r' Hr') as (r&?&_). congruence.
Qed.



(** *** The turns that settle a request *)







(** *** Closing *)

Lemma close_entry_rejects n st r :
  requests st !! n = Some r → req_promise r = None →
  promise_of (close_entry n st) n = Some (Rejected (mkError "Connection closed")).
Proof.
  intros Hr Hp. unfold close_entry. rewrite exec_settle. simpl.
  rewrite list_lookup_alter_eq, Hr. simpl. rewrite Hp.
  unfold promise_of. simpl. by rewrite !list_lookup_alter_eq, Hr.
Qed.

Lemma close_entry_lookup_ne n m st :
  m ≠ n → requests (close_entry n st) !! m = requests st !! m.
Proof.
  intros Hne. unfold close_entry. rewrite exec_settle. simpl.
  destruct (alter (set_timer false) n (requests st) !! n) as [r|]; simpl.
  - destruct (req_promise r); simpl; by rewrite ?list_lookup_alter_ne.
  - by rewrite list_lookup_alter_ne.
Qed.

Lemma close_entries_rejects entries st s n r :
  (s, n) ∈ entries → requests st !! n = Some r → req_promise r = None →
  promise_of (close_entries entries st) n =
    Some (Rejected (mkError "Connection closed")).
Proof.
  revert st r. induction entries as [|[s0 n0] entries IH]; intros st r Hin Hr Hp.
  - by apply elem_of_nil in Hin.
  - simpl. destruct (decide (n = n0)) as [->|Hne].
    + apply keeps_close_entries. by eapply close_entry_rejects.
    + apply elem_of_cons in Hin as [[= _ ?]|Hin]; [done|].
      apply (IH _ r); [done| |done]. by rewrite close_entry_lookup_ne.
Qed.

Lemma close_entries_fields entries st :
  lastStatus (close_entries entries st) = lastStatus st ∧
  outbox (close_entries entries st) = outbox st.
Proof.
  revert st. induction entries as [|[s n] entries IH]; intros st; [done|].
  simpl. destruct (IH (close_entry n st)) as [-> ->].
  by destruct (close_entry_fields n st) as (_&_&->&->&_).
Qed.

(** *** The claims about the correlator *)









Lemma close_entry_alter n st :
  ∃ g, requests (close_entry n st) = alter g n (requests st) ∧
       ∀ r, req_id (g r) = req_id r ∧ req_awaiter (g r) = req_awaiter r ∧
            (req_promise (g r) = None → req_promise r = None).
Proof.
  unfold close_entry. rewrite exec_settle. simpl.
  destruct (alter (set_timer false) n (requests st) !! n) as [x|]; simpl.
  - destruct (req_promise x); simpl.
    + by exists (set_timer false).
    + rewrite list_alter_alter_eq. eexists. split; [done|]. by intros r.
  - by exists (set_timer false).
Qed.

Lemma close_entries_requests entries st k rk' :
  requests (close_entries entries st) !! k = Some rk' →
  ∃ rk, requests st !! k = Some rk ∧ req_id rk' = req_id rk ∧
        req_awaiter rk' = req_awaiter rk ∧
        (req_promise rk' = None → req_promise rk = None).
Proof.
  revert st. induction entries as [|[s n] entries IH]; intros st Hk; simpl in *.
  - eauto.
  - destruct (IH _ Hk) as (r1&Hr1&Hid1&Haw1&Hp1).
    destruct (close_entry_alter n st) as (g&Hg&Hgs). rewrite Hg in Hr1.
    destruct (decide (k = n)) as [->|Hkn].
    + rewrite list_lookup_alter_eq in Hr1.
      destruct (requests st !! n) as [r|]; [|done]. simpl in Hr1.
      injection Hr1 as <-. destruct (Hgs r) as (?&?&?).
      exists r. repeat split; try congruence. auto.
    + rewrite list_lookup_alter_ne in Hr1 by done. eauto.
Qed.

Lemma close_entries_length entries st :
  length (requests (close_entries entries st)) = length (requests st).
Proof.
  revert st. induction entries as [|[s n] entries IH]; intros st; [done|].
  simpl. rewrite IH. destruct (close_entry_alter n st) as (g&->&_).
  by rewrite length_alter.
Qed.






Lemma two_in_flight_reachable : reachable cfg0 two_in_flight.
Proof. by exists [Call TurnOn "0.4fzyo82mvyr"; Call GetStatus "0.k2j9x0q1abc"]. Qed.


Example close_two_in_flight :
  (st ← step two_in_flight Close;
   Some (result_of st 0, promise_of st 1, pendingCommands st))
  = Some (Some (Raised (mkError "Connection closed")),
          Some (Rejected (mkError "Connection closed")), []).
Proof. reflexivity. Qed.

(** *** Which promises a callback settles *)

Lemma news_refl st P : news st st P.
Proof. intros n o. by left. Qed.

Lemma news_trans st1 st2 st3 P :
  news st1 st2 P → news st2 st3 P → news st1 st3 P.
Proof.
  intros H1 H2 n o H. destruct (H2 n o H) as [H'|?]; [|by right]. by apply H1.
Qed.

Lemma news_weaken st st1 (P Q : nat → settled → Prop) :
  (∀ n o, P n o → Q n o) → news st st1 P → news st st1 Q.
Proof. intros HPQ H n o Ho. destruct (H n o Ho); [by left|right; auto]. Qed.

Lemma news_ext st st1 P : requests st1 = requests st → news st st1 P.
Proof. intros H n o. unfold promise_of. rewrite H. by left. Qed.

Lemma news_alter f m st P :
  flag_update f → news st (with_requests (alter f m) st) P.
Proof.
  intros Hf n o (r&Hr&Ho)%promise_of_Some. left. apply promise_of_Some.
  simpl in Hr. destruct (decide (n = m)) as [->|Hne].
  - rewrite list_lookup_alter_eq in Hr.
    destruct (requests st !! m) as [r0|]; [|done]. simpl in Hr. injection Hr as <-.
    exists r0. split; [done|]. destruct (Hf r0) as (_&_&<-&_). done.
  - rewrite list_lookup_alter_ne in Hr by done. eauto.
Qed.

Lemma news_settle m o st :
  news st (exec (settle m o) st) (fun n o' => n = m ∧ o' = o).
Proof.
  rewrite exec_settle. destruct (requests st !! m) as [r|] eqn:Hr; [|apply news_refl].
  destruct (req_promise r) eqn:Hp; [apply news_refl|].
  intros n o' (r'&Hr'&Ho')%promise_of_Some. simpl in Hr'.
  destruct (decide (n = m)) as [->|Hne].
  - rewrite list_lookup_alter_eq, Hr in Hr'. simpl in Hr'. injection Hr' as <-.
    simpl in Ho'. injection Ho' as <-. by right.
  - rewrite list_lookup_alter_ne in Hr' by done. left. apply promise_of_Some. eauto.
Qed.

Lemma news_finish m s f o st :
  flag_update f → news st (finish m s f o st) (fun n o' => n = m ∧ o' = o).
Proof.
  intros Hf. unfold finish.
  eapply news_trans; [|apply news_settle].
  eapply news_trans; [by apply (news_alter f m)|]. by apply news_ext.
Qed.

Lemma news_close_entries entries st :
  news st (close_entries entries st)
    (fun _ o => o = Rejected (mkError "Connection closed")).
Proof.
  revert st. induction entries as [|[s m] entries IH]; intros st; [apply news_refl|].
  simpl. eapply news_trans; [|apply IH].
  unfold close_entry. eapply news_trans; [apply (news_alter (set_timer false) m)|].
  { apply flag_update_timer. }
  eapply news_weaken; [|apply news_settle]. by intros n o [_ ->].
Qed.

Lemma news_sendCommand aw rnd cmd st P :
  news st (exec (sendCommand aw rnd cmd) st) P.
Proof.
  unfold exec. rewrite exec_sendCommand.
  intros n o (r&Hr&Ho)%promise_of_Some. left. apply promise_of_Some.
  simpl in Hr. apply lookup_app_Some in Hr as [Hr|[_ Hr]]; [eauto|].
  destruct (n - length (requests st))%nat; simpl in Hr; [|done].
  by injection Hr as <-.
Qed.

Lemma dispatch_news st ev st1 :
  Inv st → dispatch st ev = Some st1 → news st st1 (settles st ev).
Proof.
  intros HI Hs. destruct ev as [c rnd|payload|n|n err|]; simpl in Hs.
  - destruct (closed st) eqn:Hcl; [done|]. injection Hs as <-. unfold exec.
    destruct (invoke_cases c rnd st) as [[e ->]|(aw&cmd&->)].
    + apply news_refl.
    + apply news_sendCommand.
  - destruct (closed st) eqn:Hcl; [done|]. injection Hs as <-.
    destruct payload as [response|].
    2:{ rewrite exec_onMessage_garbled. apply news_refl. }
    destruct (matches response st) as [n|] eqn:Hm.
    + destruct (matches_Some _ _ _ Hm) as (s&Hid&Hs&Hg).
      rewrite (exec_onMessage_match _ _ n s Hid Hm), status_hook_eq.
      eapply news_trans; [|by apply news_ext].
      eapply news_weaken; [|apply news_finish, flag_update_timer].
      simpl. by intros ? ? [-> ->].
    + rewrite exec_onMessage_nomatch, status_hook_eq by done. by apply news_ext.
  - destruct (requests st !! n) as [r|] eqn:Hr; [|done].
    destruct (req_timer r); [|done]. injection Hs as <-.
    rewrite (exec_onTimeout n st r Hr). apply news_finish, flag_update_timer.
  - destruct (requests st !! n) as [r|] eqn:Hr; [|done].
    destruct (req_callback r); [|done]. injection Hs as <-.
    destruct err as [e|].
    + rewrite (exec_onSendDone_error n e st r Hr). apply news_finish.
      apply flag_update_compose; [apply flag_update_timer|apply flag_update_callback].
    + rewrite (exec_onSendDone_ok n st r Hr).
      apply news_alter, flag_update_callback.
  - destruct (closed st) eqn:Hcl; [done|]. injection Hs as <-.
    rewrite exec_close. eapply news_trans; [apply news_close_entries|].
    by apply news_ext.
Qed.

Lemma step_news st ev st' :
  Inv st → step st ev = Some st' → news st st' (settles st ev).
Proof.
  intros HI (st1&Hd&->)%step_dispatch n o Hn.
  rewrite drain_promise_of in Hn. by eapply dispatch_news.
Qed.


(** *** The claims about the proxy *)







Lemma finish_lastStatus n s f o st : lastStatus (finish n s f o st) = lastStatus st.
Proof.
  unfold finish. rewrite exec_settle. simpl.
  destruct (alter f n (requests st) !! n) as [r|]; [|done].
  by destruct (req_promise r).
Qed.





(** C4. A brightness below 0 or above 100, or a colour with a channel below
    0 or above 255, makes the setter throw its validation error at once:
    the state comes back as it was, so no datagram is queued for sending and
    no entry is added to the in-flight table. *)
Theorem validation_precedes_network st rnd :
  (∀ z : Z, (z < 0 ∨ 100 < z)%Z →
     setBrightness (Num z) rnd st =
       (inl (mkError "Brightness must be between 0 and 100"), st) ∧
     outbox (exec (setBrightness (Num z) rnd) st) = outbox st ∧
     pendingCommands (exec (setBrightness (Num z) rnd) st) = pendingCommands st) ∧
  (∀ r g b : Z,
     (r < 0 ∨ 255 < r ∨ g < 0 ∨ 255 < g ∨ b < 0 ∨ 255 < b)%Z →
     setColor (Num r) (Num g) (Num b) rnd st =
       (inl (mkError "RGB values must be between 0 and 255"), st) ∧
     outbox (exec (setColor (Num r) (Num g) (Num b) rnd) st) = outbox st ∧
     pendingCommands (exec (setColor (Num r) (Num g) (Num b) rnd) st) =
       pendingCommands st).
Proof.
  split.
  - intros z Hz.
    assert (setBrightness (Num z) rnd st =
            (inl (mkError "Brightness must be between 0 and 100"), st)) as H.
    { unfold setBrightness, gt, lt.
      destruct (Z.ltb_spec z 0), (Z.ltb_spec 100 z); simpl; try done. lia. }
    unfold exec. by rewrite H.
  - intros r g b Hc.
    assert (setColor (Num r) (Num g) (Num b) rnd st =
            (inl (mkError "RGB values must be between 0 and 255"), st)) as H.
    { unfold setColor, gt, lt.
      destruct (Z.ltb_spec r 0), (Z.ltb_spec 255 r), (Z.ltb_spec g 0),
        (Z.ltb_spec 255 g), (Z.ltb_spec b 0), (Z.ltb_spec 255 b);
        simpl; try done. lia. }
    unfold exec. by rewrite H.
Qed.

Lemma validation_precedes_network_witness :
  (setBrightness (Num 150) "0.4fzyo82mvyr" (new cfg0) =
     (inl (mkError "Brightness must be between 0 and 100"), new cfg0)) ∧
  (setColor (Num 0) (Num 256) (Num 0) "0.4fzyo82mvyr" (new cfg0) =
     (inl (mkError "RGB values must be between 0 and 255"), new cfg0)).
Proof.
  split.
  - apply (proj1 (validation_precedes_network (new cfg0) "0.4fzyo82mvyr") 150%Z).
    right. reflexivity.
  - apply (proj2 (validation_precedes_network (new cfg0) "0.4fzyo82mvyr")
             0%Z 256%Z 0%Z).
    right. right. right. left. reflexivity.
Defined.

(** In range, the setter sends one command. *)
Example setBrightness_in_range :
  (st ← step (new cfg0) (Call (SetBrightness (Num 100)) "0.4fzyo82mvyr");
   Some (outbox st, pendingCommands st))
  = Some ([{| dg_message :=
                {| command := "set_brightness";
                   params := Some (json_obj [("brightness", JNum 100)]);
                   id := Some "4fzyo82mvyr" |};
              dg_port := 4000; dg_ip := "192.168.1.45" |}],
          [("4fzyo82mvyr", 0%nat)]).
Proof. reflexivity. Qed.




(** *** Malformed datagrams *)







(** *** The status before any exchange *)

Lemma resume_promise_of n st m : promise_of (resume n st) m = promise_of st m.
Proof.
  unfold promise_of. pose proof (resume_requests n st) as HF.
  destruct (requests st !! m) as [r|] eqn:Hr.
  - destruct (Forall2_lookup_l _ _ _ _ _ HF Hr) as (r'&->&(_&_&Hp&_)). done.
  - destruct (requests (resume n st) !! m) as [r'|] eqn:Hr'; [|done].
    destruct (Forall2_lookup_r _ _ _ _ _ HF Hr') as (r&?&_). congruence.
Qed.

Lemma resume_quiet n st :
  none_fulfilled st → lastStatus (resume n st) = lastStatus st.
Proof.
  intros Hnf. destruct (requests st !! n) as [r|] eqn:Hr.
  - destruct (req_promise r) as [[v|e]|] eqn:Hp.
    + exfalso. apply (Hnf n v). by rewrite (promise_of_lookup st n r Hr).
    + rewrite (resume_unfold n st r _ Hr Hp). simpl.
      by destruct (continuation_rejected (req_awaiter r) e st) as [-> _].
    + rewrite resume_idle; [done|]. intros; congruence.
  - rewrite resume_idle; [done|]. intros; congruence.
Qed.

Lemma run_queue_quiet q st :
  none_fulfilled st → lastStatus (run_queue q st) = lastStatus st.
Proof.
  revert st. induction q as [|n q IH]; intros st Hnf; [done|].
  simpl. rewrite IH.
  - by apply resume_quiet.
  - intros m v. rewrite resume_promise_of. apply Hnf.
Qed.

Lemma drain_quiet st : none_fulfilled st → lastStatus (drain st) = lastStatus st.
Proof. intros Hnf. rewrite drain_unfold. by rewrite run_queue_quiet. Qed.

Lemma dispatch_quiet st ev st1 :
  (∀ payload, ev ≠ Message payload) → dispatch st ev = Some st1 →
  lastStatus st1 = lastStatus st.
Proof.
  intros Hev Hs. destruct ev as [c rnd|payload|n|n err|]; simpl in Hs.
  - destruct (closed st); [done|]. injection Hs as <-. unfold exec.
    destruct (invoke_cases c rnd st) as [[e ->]|(aw&cmd&->)]; [done|].
    by rewrite exec_sendCommand.
  - by destruct (Hev payload).
  - destruct (requests st !! n) as [r|] eqn:Hr; [|done].
    destruct (req_timer r); [|done]. injection Hs as <-.
    by rewrite (exec_onTimeout n st r Hr), finish_lastStatus.
  - destruct (requests st !! n) as [r|] eqn:Hr; [|done].
    destruct (req_callback r); [|done]. injection Hs as <-.
    destruct err as [e|].
    + by rewrite (exec_onSendDone_error n e st r Hr), finish_lastStatus.
    + by rewrite (exec_onSendDone_ok n st r Hr).
  - destruct (closed st); [done|]. injection Hs as <-.
    rewrite exec_close. simpl. apply close_entries_fields.
Qed.

Lemma step_quiet st ev st' :
  Inv st → none_fulfilled st → (∀ payload, ev ≠ Message payload) →
  step st ev = Some st' →
  none_fulfilled st' ∧ lastStatus st' = lastStatus st.
Proof.
  intros HI Hnf Hev Hs.
  assert (none_fulfilled st') as Hnf'.
  { intros n v Hv. destruct (step_news st ev st' HI Hs n _ Hv) as [?|Hset].
    - by apply (Hnf n v).
    - destruct ev as [c rnd|p|m|m [e|]|]; simpl in Hset; try done;
        try (by destruct Hset). by destruct (Hev p). }
  split; [done|].
  apply step_dispatch in Hs as (st1&Hd&->).
  rewrite drain_quiet; [by eapply dispatch_quiet|].
  intros n v. rewrite <- drain_promise_of. apply Hnf'.
Qed.

Lemma run_quiet evs st st' :
  Inv st → none_fulfilled st → (∀ payload, Message payload ∉ evs) →
  run st evs = Some st' → lastStatus st' = lastStatus st.
Proof.
  revert st. induction evs as [|ev evs IH]; intros st HI Hnf Hev; simpl.
  - by intros [= <-].
  - destruct (step st ev) as [st1|] eqn:Hs; [|done]. intros Hr.
    destruct (step_quiet st ev st1 HI Hnf) as [Hnf1 <-]; [|done|].
    { intros p ->. apply (Hev p). left. }
    apply IH; [by eapply step_Inv|done| |done].
    intros p Hin. apply (Hev p). by right.
Qed.

(** C10. Until a datagram has been received, whatever was called, timed
    out or failed to send in between, [getLastStatus] gives power off,
    brightness 0, white, not connected, and no other field (in particular
    no temperature). *)
Theorem initial_status cfg evs st :
  run (new cfg) evs = Some st → (∀ payload, Message payload ∉ evs) →
  getLastStatus st !! "power" = Some (JBool false) ∧
  getLastStatus st !! "brightness" = Some (JNum 0) ∧
  getLastStatus st !! "color" =
    Some (JObj {[ "r" := JNum 255; "g" := JNum 255; "b" := JNum 255 ]}) ∧
  getLastStatus st !! "connected" = Some (JBool false) ∧
  getLastStatus st !! "temperature" = None ∧
  dom (getLastStatus st) = {[ "power"; "brightness"; "color"; "connected" ]}.
Proof.
  intros Hrun Hev. unfold getLastStatus.
  rewrite (run_quiet evs (new cfg) st (new_Inv cfg)); [| |done|done].
  - simpl. repeat split; reflexivity.
  - by intros n v.
Qed.

Lemma initial_status_witness :
  dom (getLastStatus one_in_flight) =
    {[ "power"; "brightness"; "color"; "connected" ]}.
Proof.
  refine (proj2 (proj2 (proj2 (proj2 (proj2
    (initial_status cfg0 [Call TurnOn "0.4fzyo82mvyr"] one_in_flight eq_refl _)))))).
  intros payload Hin. apply list_elem_of_singleton in Hin. discriminate.
Defined.

Example initial_status_fresh :
  getLastStatus (new cfg0) = initialStatus ∧
  getLastStatus (new cfg0) !! "temperature" = None.
Proof. split; reflexivity. Qed.

(** *** Hexadecimal colours *)

Ltac each_ascii c := destruct c as [[] [] [] [] [] [] [] []].

Lemma spec_hex_char_code c :
  c ∈ spec_hex_chars ↔ is_hex_digit c = true.
Proof.
  split.
  - intros Hin. unfold spec_hex_chars in Hin. simpl in Hin.
    repeat (apply elem_of_cons in Hin as [->|Hin]; [reflexivity|]).
    by apply elem_of_nil in Hin.
  - each_ascii c; intros H; try discriminate H;
      unfold spec_hex_chars; simpl; repeat (first [left | right]).
Qed.

Lemma hex_value_spec c :
  is_hex_digit c = true →
  hex_value c = Some (spec_digit c) ∧ (0 <= spec_digit c <= 15)%Z ∧
  is_space c = false ∧ strip_sign (String c "") = (1%Z, String c "").
Proof. each_ascii c; intros H; try discriminate H; vm_compute; intuition congruence. Qed.

Lemma strip_sign_hex c s :
  is_hex_digit c = true → strip_sign (String c s) = (1%Z, String c s).
Proof. each_ascii c; intros H; try discriminate H; reflexivity. Qed.

Lemma strip_0x_hex c1 c2 s :
  is_hex_digit c2 = true → strip_0x (String c1 (String c2 s)) = String c1 (String c2 s).
Proof.
  intros H2. each_ascii c1; try reflexivity.
  each_ascii c2; try discriminate H2; reflexivity.
Qed.

Lemma parseInt16_group c1 c2 :
  is_hex_digit c1 = true → is_hex_digit c2 = true →
  parseInt16 (String c1 (String c2 "")) = Num (spec_group c1 c2).
Proof.
  intros H1 H2.
  destruct (hex_value_spec c1 H1) as (Hv1&_&Hs1&_).
  destruct (hex_value_spec c2 H2) as (Hv2&_&_&_).
  unfold parseInt16. simpl. rewrite Hs1.
  rewrite strip_sign_hex, strip_0x_hex by done.
  simpl. rewrite Hv1, Hv2. simpl. unfold spec_group. f_equal. lia.
Qed.

Lemma hex_groups_Some s g1 g2 g3 :
  hex_groups s = Some (g1, g2, g3) →
  ∃ c1 c2 c3 c4 c5 c6,
    s = string_of_list_ascii [c1; c2; c3; c4; c5; c6] ∧
    Forall (fun c => is_hex_digit c = true) [c1; c2; c3; c4; c5; c6] ∧
    g1 = String c1 (String c2 "") ∧ g2 = String c3 (String c4 "") ∧
    g3 = String c5 (String c6 "").
Proof.
  unfold hex_groups.
  destruct s as [|c1 [|c2 [|c3 [|c4 [|c5 [|c6 [|c7 s]]]]]]]; try done.
  destruct (forallb _ _) eqn:Hall; [|done]. intros [= <- <- <-].
  exists c1, c2, c3, c4, c5, c6. split; [done|]. split; [|done].
  apply Forall_forall. intros c Hin. rewrite forallb_forall in Hall.
  apply Hall. by apply list_elem_of_In.
Qed.

Lemma hex_groups_intro c1 c2 c3 c4 c5 c6 :
  Forall (fun c => is_hex_digit c = true) [c1; c2; c3; c4; c5; c6] →
  hex_groups (string_of_list_ascii [c1; c2; c3; c4; c5; c6]) =
    Some (String c1 (String c2 ""), String c3 (String c4 ""),
          String c5 (String c6 "")).
Proof.
  intros Hall. unfold hex_groups. cbn [string_of_list_ascii].
  assert (forallb is_hex_digit [c1; c2; c3; c4; c5; c6] = true) as ->; [|done].
  apply forallb_forall. intros c Hin. rewrite Forall_forall in Hall.
  apply Hall. by apply list_elem_of_In.
Qed.

(** The regular expression accepts exactly the strings of the pattern. *)
Lemma hex_exec_spec hex :
  match hex_exec hex with
  | Some (g1, g2, g3) =>
      ∃ c1 c2 c3 c4 c5 c6,
        spec_hex_pattern hex [c1; c2; c3; c4; c5; c6] ∧
        g1 = String c1 (String c2 "") ∧ g2 = String c3 (String c4 "") ∧
        g3 = String c5 (String c6 "")
  | None => ∀ ds, ¬ spec_hex_pattern hex ds
  end.
Proof.
  assert (Hsome : ∀ s g1 g2 g3, hex_groups s = Some (g1, g2, g3) →
    (hex = s ∨ hex = String "#" s) →
    ∃ c1 c2 c3 c4 c5 c6,
        spec_hex_pattern hex [c1; c2; c3; c4; c5; c6] ∧
        g1 = String c1 (String c2 "") ∧ g2 = String c3 (String c4 "") ∧
        g3 = String c5 (String c6 "")).
  { intros s g1 g2 g3 Hg Hs.
    destruct (hex_groups_Some s g1 g2 g3 Hg) as (c1&c2&c3&c4&c5&c6&->&Hall&?&?&?).
    exists c1, c2, c3, c4, c5, c6. split; [|done]. split; [done|]. split; [|done].
    eapply Forall_impl; [exact Hall|]. intros c. apply spec_hex_char_code. }
  assert (Hnone : ∀ ds, spec_hex_pattern hex ds → is_Some (hex_exec hex)).
  { intros ds (Hlen&Hall&Hs).
    destruct ds as [|c1 [|c2 [|c3 [|c4 [|c5 [|c6 [|c7 ds]]]]]]]; try done.
    assert (Forall (fun c => is_hex_digit c = true) [c1; c2; c3; c4; c5; c6]) as Hall'.
    { eapply Forall_impl; [exact Hall|]. intros c. apply spec_hex_char_code. }
    pose proof (hex_groups_intro _ _ _ _ _ _ Hall') as Hg.
    destruct Hs as [->| ->].
    - unfold hex_exec.
      change (string_of_list_ascii [c1; c2; c3; c4; c5; c6])
        with (String c1 (string_of_list_ascii [c2; c3; c4; c5; c6])) in *.
      rewrite Hg. clear Hg. each_ascii c1; by eexists.
    - unfold hex_exec. rewrite Hg. by eexists. }
  destruct (hex_exec hex) as [[[g1 g2] g3]|] eqn:He.
  - unfold hex_exec in He. destruct hex as [|c hex'].
    + by apply (Hsome "" g1 g2 g3); auto.
    + destruct (Ascii.eqb_spec c "#") as [->|Hne].
      * destruct (hex_groups hex') as [[[h1 h2] h3]|] eqn:Hg.
        -- injection He as <- <- <-. apply (Hsome hex'); auto.
        -- apply (Hsome (String "#" hex')); auto.
      * apply (Hsome (String c hex')); [|auto].
        revert He. clear -Hne. each_ascii c; done.
  - intros ds Hp. destruct (Hnone ds Hp) as [? ?]. congruence.
Qed.

Lemma hex_exec_intro hex c1 c2 c3 c4 c5 c6 :
  spec_hex_pattern hex [c1; c2; c3; c4; c5; c6] →
  hex_exec hex = Some (String c1 (String c2 ""), String c3 (String c4 ""),
                       String c5 (String c6 "")) ∧
  Forall (fun c => is_hex_digit c = true) [c1; c2; c3; c4; c5; c6].
Proof.
  intros (_&Hall&Hs).
  assert (Forall (fun c => is_hex_digit c = true) [c1; c2; c3; c4; c5; c6]) as Hall'.
  { eapply Forall_impl; [exact Hall|]. intros c. apply spec_hex_char_code. }
  split; [|done].
  pose proof (hex_groups_intro _ _ _ _ _ _ Hall') as Hg.
  destruct Hs as [->| ->].
  - unfold hex_exec.
    change (string_of_list_ascii [c1; c2; c3; c4; c5; c6])
      with (String c1 (string_of_list_ascii [c2; c3; c4; c5; c6])) in *.
    rewrite Hg. clear Hg. by each_ascii c1.
  - unfold hex_exec. by rewrite Hg.
Qed.

Lemma spec_group_range c1 c2 :
  is_hex_digit c1 = true → is_hex_digit c2 = true →
  (0 <= spec_group c1 c2 <= 255)%Z.
Proof.
  intros H1 H2. destruct (hex_value_spec c1 H1) as (_&?&_).
  destruct (hex_value_spec c2 H2) as (_&?&_). unfold spec_group. lia.
Qed.

Lemma setColor_in_range (r g b : Z) rnd st :
  (0 <= r <= 255)%Z → (0 <= g <= 255)%Z → (0 <= b <= 255)%Z →
  setColor (Num r) (Num g) (Num b) rnd st =
    sendCommand AwaitVoid rnd
      {| command := "set_color";
         params := Some (json_obj
           [("color", json_obj [("r", JNum r); ("g", JNum g); ("b", JNum b)])]);
         id := None |} st.
Proof.
  intros Hr Hg Hb. unfold setColor, gt, lt.
  destruct (Z.ltb_spec r 0), (Z.ltb_spec 255 r), (Z.ltb_spec g 0),
    (Z.ltb_spec 255 g), (Z.ltb_spec b 0), (Z.ltb_spec 255 b); simpl; try lia.
  done.
Qed.

(** C8. For a string made of an optional [#] and six hexadecimal digits the
    setter calls [setColor] with the three two-digit groups read in base
    16, which is then a [set_color] command with those channels; for any
    other string it throws the format error and the state, with its queue
    of sent datagrams, is as before. *)
Theorem setColorHex_decodes hex rnd st :
  (∀ c1 c2 c3 c4 c5 c6,
     spec_hex_pattern hex [c1; c2; c3; c4; c5; c6] →
     let r := spec_group c1 c2 in
     let g := spec_group c3 c4 in
     let b := spec_group c5 c6 in
     setColorHex hex rnd st = setColor (Num r) (Num g) (Num b) rnd st ∧
     setColor (Num r) (Num g) (Num b) rnd st =
       sendCommand AwaitVoid rnd
         {| command := "set_color";
            params := Some (json_obj
              [("color", json_obj [("r", JNum r); ("g", JNum g); ("b", JNum b)])]);
            id := None |} st) ∧
  ((∀ ds, ¬ spec_hex_pattern hex ds) →
     setColorHex hex rnd st = (inl (mkError "Invalid hex color format"), st) ∧
     outbox (exec (setColorHex hex rnd) st) = outbox st).
Proof.
  split.
  - intros c1 c2 c3 c4 c5 c6 Hp.
    destruct (hex_exec_intro hex c1 c2 c3 c4 c5 c6 Hp) as [He Hall].
    apply Forall_cons_1 in Hall as [H1 Hall]. apply Forall_cons_1 in Hall as [H2 Hall].
    apply Forall_cons_1 in Hall as [H3 Hall]. apply Forall_cons_1 in Hall as [H4 Hall].
    apply Forall_cons_1 in Hall as [H5 Hall]. apply Forall_cons_1 in Hall as [H6 _].
    cbv zeta. split.
    + unfold setColorHex. rewrite He.
      by rewrite !parseInt16_group.
    + apply setColor_in_range; by apply spec_group_range.
  - intros Hno. pose proof (hex_exec_spec hex) as Hs.
    assert (setColorHex hex rnd st = (inl (mkError "Invalid hex color format"), st))
      as H.
    { unfold setColorHex. destruct (hex_exec hex) as [[[g1 g2] g3]|]; [|done].
      destruct Hs as (c1&c2&c3&c4&c5&c6&Hp&_). by destruct (Hno _ Hp). }
    unfold exec. by rewrite H.
Qed.

Lemma hash_ff8000_pattern :
  spec_hex_pattern "#fF8000" (list_ascii_of_string "fF8000").
Proof.
  split; [reflexivity|]. split; [|by right].
  repeat (apply Forall_cons; split; [apply spec_hex_char_code; reflexivity|]).
  apply Forall_nil_2.
Qed.

Lemma no_pattern_for_short ds : ¬ spec_hex_pattern "#fff" ds.
Proof.
  intros (Hlen&_&Hs).
  destruct ds as [|c1 [|c2 [|c3 [|c4 [|c5 [|c6 [|c7 ds]]]]]]]; try done.
  by destruct Hs.
Qed.

Lemma setColorHex_decodes_witness :
  setColorHex "#fF8000" "0.4fzyo82mvyr" (new cfg0) =
    setColor (Num 255) (Num 128) (Num 0) "0.4fzyo82mvyr" (new cfg0) ∧
  setColorHex "#fff" "0.4fzyo82mvyr" (new cfg0) =
    (inl (mkError "Invalid hex color format"), new cfg0).
Proof.
  split.
  - exact (proj1 (proj1 (setColorHex_decodes "#fF8000" "0.4fzyo82mvyr" (new cfg0))
             _ _ _ _ _ _ hash_ff8000_pattern)).
  - exact (proj1 (proj2 (setColorHex_decodes "#fff" "0.4fzyo82mvyr" (new cfg0))
             no_pattern_for_short)).
Defined.

(** *** The effect of each event *)

Lemma dispatch_effect st ev st1 :
  Inv st → dispatch st ev = Some st1 → effect st ev st1.
Proof.
  intros HI Hs. destruct ev as [c rnd|payload|n|n err|]; simpl in Hs.
  - destruct (closed st) eqn:Hcl; [done|]. injection Hs as <-. unfold exec.
    destruct (invoke_cases c rnd st) as [[e He]|(aw&cmd&He)].
    + rewrite He. by eapply effect_throw.
    + rewrite He. by apply effect_send.
  - destruct (closed st) eqn:Hcl; [done|]. injection Hs as <-.
    destruct payload as [response|].
    2:{ rewrite exec_onMessage_garbled. constructor. }
    destruct (matches response st) as [n|] eqn:Hm.
    + destruct (matches_Some _ _ _ Hm) as (s&Hid&Hs&Hg).
      rewrite (exec_onMessage_match _ _ n s Hid Hm), status_hook_eq.
      destruct (inv_table st HI s n Hg) as (r&Hr&Hrid&Hp&_).
      by eapply effect_match.
    + rewrite exec_onMessage_nomatch, status_hook_eq by done.
      by apply effect_nomatch.
  - destruct (requests st !! n) as [r|] eqn:Hr; [|done].
    destruct (req_timer r) eqn:Ht; [|done]. injection Hs as <-.
    rewrite (exec_onTimeout n st r Hr). by apply effect_timer.
  - destruct (requests st !! n) as [r|] eqn:Hr; [|done].
    destruct (req_callback r) eqn:Hc; [|done]. injection Hs as <-.
    destruct err as [e|].
    + rewrite (exec_onSendDone_error n e st r Hr). by apply effect_send_error.
    + rewrite (exec_onSendDone_ok n st r Hr). by eapply effect_send_ok.
  - destruct (closed st) eqn:Hcl; [done|]. injection Hs as <-. constructor.
Qed.

Lemma step_effect st ev st' :
  Inv st → step st ev = Some st' → ∃ st1, effect st ev st1 ∧ st' = drain st1.
Proof.
  intros HI (st1&Hd&->)%step_dispatch. exists st1. split; [|done].
  by apply dispatch_effect.
Qed.

Lemma run_snoc st evs ev :
  run st (evs ++ [ev]) = st' ← run st evs; step st' ev.
Proof.
  revert st. induction evs as [|e evs IH]; intros st; simpl.
  - by destruct (step st ev).
  - destruct (step st e); [apply IH|done].
Qed.

(** Induction over the reachable states. *)
Lemma reachable_ind cfg (P : SmartBulb → Prop) :
  P (new cfg) →
  (∀ st ev st', reachable cfg st → P st → step st ev = Some st' → P st') →
  ∀ st, reachable cfg st → P st.
Proof.
  intros H0 Hstep st [evs Hr]. revert st Hr.
  induction evs as [|ev evs IH] using rev_ind; intros st Hr.
  - simpl in Hr. by injection Hr as <-.
  - rewrite run_snoc in Hr. destruct (run (new cfg) evs) as [st0|] eqn:H; [|done].
    simpl in Hr. apply (Hstep st0 ev st); [by exists evs|by apply IH|done].
Qed.

(** *** Timers *)

Lemma finish_lookup_eq n s f o st r :
  requests st !! n = Some r →
  requests (finish n s f o st) !! n =
    Some (match req_promise (f r) with
          | None => set_promise o (f r)
          | Some _ => f r
          end).
Proof.
  intros Hr. unfold finish. rewrite exec_settle. simpl.
  rewrite list_lookup_alter_eq, Hr. simpl.
  destruct (req_promise (f r)); simpl; by rewrite ?list_lookup_alter_eq, Hr.
Qed.










(** *** Configuration and traffic *)

Lemma finish_fields n s f o st :
  config (finish n s f o st) = config st ∧
  outbox (finish n s f o st) = outbox st ∧
  closed (finish n s f o st) = closed st ∧
  lastStatus (finish n s f o st) = lastStatus st.
Proof.
  unfold finish. rewrite exec_settle. simpl.
  destruct (alter f n (requests st) !! n) as [r|]; [|done].
  by destruct (req_promise r).
Qed.

Lemma finish_alter n s f o st :
  ∃ g, requests (finish n s f o st) = alter g n (requests st) ∧
       ∀ r, req_id (g r) = req_id (f r).
Proof.
  unfold finish. rewrite exec_settle. simpl.
  destruct (alter f n (requests st) !! n) as [r|]; simpl.
  - destruct (req_promise r); simpl.
    + by exists f.
    + rewrite list_alter_alter_eq. eexists. split; [done|]. by intros r0.
  - by exists f.
Qed.

Lemma close_entries_config entries st :
  config (close_entries entries st) = config st.
Proof.
  revert st. induction entries as [|[s n] entries IH]; intros st; [done|].
  simpl. rewrite IH. by destruct (close_entry_fields n st) as (_&_&_&_&->).
Qed.

Lemma ids_alter (g : request → request) n rs :
  (∀ r, req_id (g r) = req_id r) →
  map (fun r => Some (req_id r)) (alter g n rs) = map (fun r => Some (req_id r)) rs.
Proof.
  intros Hg. apply list_eq. intros i.
  change (map ?f ?l) with (f <$> l). rewrite !list_lookup_fmap.
  destruct (decide (i = n)) as [->|Hne].
  - rewrite list_lookup_alter_eq. destruct (rs !! n); simpl; [|done]. by rewrite Hg.
  - by rewrite list_lookup_alter_ne.
Qed.

Lemma close_entries_ids entries st :
  map (fun r => Some (req_id r)) (requests (close_entries entries st)) =
  map (fun r => Some (req_id r)) (requests st).
Proof.
  revert st. induction entries as [|[s n] entries IH]; intros st; [done|].
  simpl. rewrite IH. destruct (close_entry_alter n st) as (g&->&Hg).
  apply ids_alter. intros r. by destruct (Hg r).
Qed.

(** What an event leaves of the configuration, of the identifiers of the
    requests and of the datagrams sent. *)
Lemma effect_traffic st ev st1 :
  effect st ev st1 →
  config st1 = config st ∧
  ((outbox st1 = outbox st ∧
    map (fun r => Some (req_id r)) (requests st1) =
      map (fun r => Some (req_id r)) (requests st)) ∨
   (∃ c rnd dg, ev = Call c rnd ∧ (invoke c rnd st).1 = inr (length (requests st)) ∧
      outbox st1 = outbox st ++ [dg] ∧
      id (dg_message dg) = Some (generateCommandId rnd) ∧
      dg_ip dg = ip (config st) ∧ dg_port dg = port (config st) ∧
      map (fun r => Some (req_id r)) (requests st1) =
        map (fun r => Some (req_id r)) (requests st) ++ [Some (generateCommandId rnd)])).
Proof.
  assert (Hfin : ∀ n s f o, flag_update f →
    map (fun r => Some (req_id r)) (requests (finish n s f o st)) =
    map (fun r => Some (req_id r)) (requests st)).
  { intros n s f o Hf. destruct (finish_alter n s f o st) as (g&->&Hg).
    apply ids_alter. intros r. rewrite Hg. by destruct (Hf r). }
  intros He. destruct He.
  - split; [done|]. by left.
  - unfold exec. split; [by rewrite exec_sendCommand|]. right.
    eexists c, rnd, _. split; [done|]. rewrite H. rewrite exec_sendCommand. simpl.
    repeat split; try done. by rewrite map_app.
  - split; [done|]. by left.
  - split; [done|]. by left.
  - simpl. destruct (finish_fields n s (set_timer false) (outcome response) st)
      as (->&->&_). split; [done|]. left. split; [done|].
    apply Hfin, flag_update_timer.
  - destruct (finish_fields n (req_id r) (set_timer false)
                (Rejected (mkError "Command timeout")) st) as (->&->&_).
    split; [done|]. left. split; [done|]. apply Hfin, flag_update_timer.
  - destruct (finish_fields n (req_id r) (set_timer false ∘ set_callback false)
                (Rejected e) st) as (->&->&_).
    split; [done|]. left. split; [done|]. apply Hfin.
    apply flag_update_compose; [apply flag_update_timer|apply flag_update_callback].
  - split; [done|]. left. split; [done|]. simpl. by apply ids_alter.
  - rewrite exec_close. simpl. rewrite close_entries_config.
    split; [done|]. left.
    destruct (close_entries_fields (pendingCommands st) st) as [_ ->].
    split; [done|]. apply close_entries_ids.
Qed.

Lemma drain_ids st :
  map (fun r => Some (req_id r)) (requests (drain st)) =
  map (fun r => Some (req_id r)) (requests st).
Proof.
  pose proof (drain_requests st) as HF.
  induction HF as [|r r' rs rs' (Hid&_) _ IH]; [done|].
  simpl. by rewrite Hid, IH.
Qed.

Lemma reachable_config cfg st : reachable cfg st → config st = config (new cfg).
Proof.
  revert st. apply reachable_ind; [done|].
  intros st ev st' Hreach IH Hs.
  destruct (step_effect st ev st' (reachable_Inv _ _ Hreach) Hs) as (st1&He&->).
  destruct (drain_fields st1) as (->&_).
  by destruct (effect_traffic st ev st1 He) as [-> _].
Qed.





(** *** The cached status changes on receipt only *)

Lemma run_queue_rejected q st :
  (∀ m, m ∈ q → ∃ e, promise_of st m = Some (Rejected e)) →
  lastStatus (run_queue q st) = lastStatus st.
Proof.
  revert st. induction q as [|n q IH]; intros st Hq; [done|].
  simpl. rewrite IH.
  - destruct (Hq n ltac:(left)) as [e He].
    apply promise_of_Some in He as (r&Hr&Hp).
    rewrite (resume_unfold n st r _ Hr Hp). simpl.
    by destruct (continuation_rejected (req_awaiter r) e st) as [-> _].
  - intros m Hm. rewrite resume_promise_of. apply Hq. by right.
Qed.

Lemma drain_rejected st : queue_rejected st → lastStatus (drain st) = lastStatus st.
Proof.
  intros Hq. rewrite drain_unfold.
  by rewrite (run_queue_rejected _ (with_microtasks _ st)).
Qed.

Lemma finish_queue n s f o st :
  microtasks (finish n s f o st) = microtasks st ∨
  (microtasks (finish n s f o st) = microtasks st ++ [n] ∧
   promise_of (finish n s f o st) n = Some o).
Proof.
  unfold finish. rewrite exec_settle. simpl.
  destruct (alter f n (requests st) !! n) as [r|] eqn:Hr; [|by left].
  destruct (req_promise r); [by left|]. right. split; [done|].
  unfold promise_of. simpl. by rewrite list_lookup_alter_eq, Hr.
Qed.

Lemma queue_rejected_finish n s f e st :
  microtasks st = [] → queue_rejected (finish n s f (Rejected e) st).
Proof.
  intros Hq m Hm. destruct (finish_queue n s f (Rejected e) st) as [H|[H Hp]];
    rewrite H, Hq in Hm.
  - by apply elem_of_nil in Hm.
  - apply list_elem_of_singleton in Hm as ->. eauto.
Qed.

Lemma close_entry_queue n st m :
  m ∈ microtasks (close_entry n st) →
  m ∈ microtasks st ∨
  (m = n ∧ promise_of (close_entry n st) n =
             Some (Rejected (mkError "Connection closed"))).
Proof.
  unfold close_entry, promise_of. rewrite exec_settle. simpl.
  destruct (alter (set_timer false) n (requests st) !! n) as [r|] eqn:Hr; simpl;
    [|by left].
  destruct (req_promise r); simpl; [by left|].
  intros [Hm|Hm%list_elem_of_singleton]%elem_of_app; [by left|]. right.
  split; [done|]. by rewrite list_lookup_alter_eq, Hr.
Qed.

Lemma keeps_close_entry n st : keeps st (close_entry n st).
Proof.
  unfold close_entry. eapply keeps_trans; [|apply keeps_settle].
  apply keeps_alter, flag_update_timer.
Qed.

Lemma queue_rejected_close_entries entries st :
  queue_rejected st → queue_rejected (close_entries entries st).
Proof.
  revert st. induction entries as [|[s n] entries IH]; intros st Hq; [done|].
  simpl. apply IH. intros m Hm.
  destruct (close_entry_queue n st m Hm) as [Hin|[-> Hp]]; [|eauto].
  destruct (Hq m Hin) as [e He]. exists e. by apply keeps_close_entry.
Qed.

(** X4. Only an inbound datagram changes the cached status: calls, timer
    expiries, send completions and [close] leave it as it is (a setter does
    not write the value it asks for into the cache; the cache follows what
    the device answers). *)
Theorem status_changes_on_receipt_only cfg st ev st' :
  reachable cfg st → step st ev = Some st' →
  (∀ payload, ev ≠ Message payload) →
  getLastStatus st' = getLastStatus st.
Proof.
  intros Hreach Hs Hev. pose proof (reachable_Inv _ _ Hreach) as HI.
  destruct (step_effect st ev st' HI Hs) as (st1&He&->). unfold getLastStatus.
  assert (queue_rejected st1 ∧ lastStatus st1 = lastStatus st) as [Hq <-].
  { destruct He.
    - split; [|done]. intros m Hm. rewrite (inv_queue st HI) in Hm.
      by apply elem_of_nil in Hm.
    - unfold exec. rewrite exec_sendCommand. split; [|done]. intros m Hm.
      simpl in Hm. rewrite (inv_queue st HI) in Hm. by apply elem_of_nil in Hm.
    - by destruct (Hev None).
    - by destruct (Hev (Some response)).
    - by destruct (Hev (Some response)).
    - split; [apply queue_rejected_finish, HI|apply finish_fields].
    - split; [apply queue_rejected_finish, HI|apply finish_fields].
    - split; [|done]. intros m Hm. simpl in Hm. rewrite (inv_queue st HI) in Hm.
      by apply elem_of_nil in Hm.
    - rewrite exec_close. simpl. split; [|apply close_entries_fields].
      intros m Hm. simpl in Hm.
      destruct (queue_rejected_close_entries (pendingCommands st) st) with (m := m)
        as [e He]; [|done|].
      + intros x Hx. rewrite (inv_queue st HI) in Hx. by apply elem_of_nil in Hx.
      + exists e. done. }
  by apply drain_rejected.
Qed.

Lemma status_changes_on_receipt_only_witness :
  ∃ st', step two_in_flight (TimerExpired 0) = Some st' ∧
         getLastStatus st' = getLastStatus two_in_flight.
Proof.
  eexists. split; [reflexivity|].
  apply (status_changes_on_receipt_only cfg0 two_in_flight (TimerExpired 0));
    [exact two_in_flight_reachable|reflexivity|discriminate].
Defined.

(** *** Concurrent commands *)



(** *** Setters *)



Lemma level_number_json hi x :
  lt x (Num 0) || gt x (Num hi) = false → level (negb (is_num x)) hi (number_json x).
Proof.
  destruct x as [z|]; [|by left]. unfold gt, lt. intros H.
  apply orb_false_iff in H as [H1 H2].
  right. exists z. split; [done|].
  apply Z.ltb_ge in H1. apply Z.ltb_ge in H2. lia.
Qed.

Lemma level_weaken (n1 n2 : bool) hi v :
  (n1 = true → n2 = true) → level n1 hi v → level n2 hi v.
Proof. intros Hn [[H1 ->]|H]; [left; auto|by right]. Qed.

Lemma protocol_command_weaken (n1 n2 : bool) c p :
  (n1 = true → n2 = true) → protocol_command n1 c p → protocol_command n2 c p.
Proof.
  intros Hn H. destruct H; constructor; by eapply level_weaken.
Qed.

(** A call throws before it touches anything, or is a [sendCommand] of a
    command of the protocol. *)
Lemma invoke_protocol c rnd st :
  (∃ e, invoke c rnd st = (inl e, st)) ∨
  (∃ cmd, invoke c rnd st = sendCommand (awaiter_of c) rnd cmd st ∧
          protocol_command (negb (finite c)) (command cmd) (params cmd) ∧
          params cmd = (fun kv => json_obj [kv]) <$> asked c ∧
          command cmd = command_name c).
Proof.
  assert (Hcol : ∀ r g b,
    (∃ e, setColor r g b rnd st = (inl e, st)) ∨
    (∃ cmd, setColor r g b rnd st = sendCommand AwaitVoid rnd cmd st ∧
            protocol_command (negb (is_num r && is_num g && is_num b))
              (command cmd) (params cmd) ∧
            params cmd =
              Some (json_obj [("color",
                json_obj [("r", number_json r); ("g", number_json g);
                          ("b", number_json b)])]) ∧
            command cmd = "set_color")).
  { intros r g b. unfold setColor.
    destruct (lt r (Num 0)) eqn:H1, (gt r (Num 255)) eqn:H2,
      (lt g (Num 0)) eqn:H3, (gt g (Num 255)) eqn:H4,
      (lt b (Num 0)) eqn:H5, (gt b (Num 255)) eqn:H6;
      simpl; try (by left; eexists).
    right. eexists. split; [done|]. split; [|done]. simpl.
    constructor.
    - apply (level_weaken (negb (is_num r))); [by destruct r|].
      apply level_number_json. by rewrite H1, H2.
    - apply (level_weaken (negb (is_num g))); [by destruct r, g|].
      apply level_number_json. by rewrite H3, H4.
    - apply (level_weaken (negb (is_num b))); [by destruct r, g, b|].
      apply level_number_json. by rewrite H5, H6. }
  destruct c; simpl; unfold turnOn, turnOff, setBrightness, setColorHex,
    getStatus, ping.
  - right. eexists. split; [done|]. split; [constructor|done].
  - right. eexists. split; [done|]. split; [constructor|done].
  - destruct (_ || _) eqn:Hb; [by left; eexists|].
    right. eexists. split; [done|]. split; [|done]. simpl.
    constructor. by apply level_number_json.
  - destruct (Hcol r g b) as [He|(cmd&H1&H2&H3&H4)]; [by left|].
    right. exists cmd. split; [exact H1|]. split; [exact H2|]. by rewrite H3.
  - pose proof (hex_exec_spec hex) as Hs.
    destruct (hex_exec hex) as [[[g1 g2] g3]|] eqn:Hx; [|by left; eexists].
    destruct Hs as (c1&c2&c3&c4&c5&c6&Hp&->&->&->).
    destruct (hex_exec_intro hex c1 c2 c3 c4 c5 c6 Hp) as [_ Hall].
    apply Forall_cons_1 in Hall as [Hd1 Hall]. apply Forall_cons_1 in Hall as [Hd2 Hall].
    apply Forall_cons_1 in Hall as [Hd3 Hall]. apply Forall_cons_1 in Hall as [Hd4 Hall].
    apply Forall_cons_1 in Hall as [Hd5 Hall]. apply Forall_cons_1 in Hall as [Hd6 _].
    rewrite !parseInt16_group by done.
    destruct (Hcol (Num (spec_group c1 c2)) (Num (spec_group c3 c4))
                (Num (spec_group c5 c6))) as [He|(cmd&H1&H2&H3&H4)]; [by left|].
    right. exists cmd. split; [exact H1|]. split; [exact H2|]. by rewrite H3.
  - right. eexists. split; [done|]. split; [constructor|done].
  - right. eexists. split; [done|]. split; [constructor|done].
Qed.

Lemma effect_outbox st ev st1 :
  effect st ev st1 →
  outbox st1 = outbox st ∨
  ∃ c rnd aw cmd,
    ev = Call c rnd ∧ invoke c rnd st = sendCommand aw rnd cmd st ∧
    outbox st1 = outbox st ++
      [{| dg_message := {| command := command cmd; params := params cmd;
                           id := Some (generateCommandId rnd) |};
          dg_port := port (config st); dg_ip := ip (config st) |}].
Proof.
  intros He.
  destruct (effect_traffic _ _ _ He) as [_ [[Ho _]|(c0&rnd0&dg&Hev&_)]]; [by left|].
  destruct He; try discriminate Hev.
  - by left.
  - right. exists c, rnd, aw, cmd. split; [done|]. split; [done|].
    unfold exec. by rewrite exec_sendCommand.
Qed.

(** X7. Whatever the calls and their arguments, a proxy only ever sends
    the five commands of the protocol with parameters in range: a
    brightness from 0 to 100 and colour channels from 0 to 255, or [null]
    where the argument was [NaN]. *)
Theorem only_protocol_commands_sent cfg st :
  reachable cfg st →
  Forall (fun dg => protocol_command true (command (dg_message dg))
                                          (params (dg_message dg)))
         (outbox st).
Proof.
  revert st. apply reachable_ind; [by apply Forall_nil|].
  intros st ev st' Hreach IH Hs.
  destruct (step_effect st ev st' (reachable_Inv _ _ Hreach) Hs) as (st1&He&->).
  destruct (drain_fields st1) as (_&_&->&_).
  destruct (effect_outbox _ _ _ He) as [->|(c&rnd&aw&cmd&_&Hinv&->)]; [done|].
  apply Forall_app. split; [done|]. apply Forall_singleton. simpl.
  destruct (invoke_protocol c rnd st) as [[e He']|(cmd'&He'&Hp&_)].
  - rewrite He' in Hinv. by rewrite exec_sendCommand in Hinv.
  - rewrite He' in Hinv. rewrite !exec_sendCommand in Hinv.
    apply (f_equal (fun p => outbox p.2)) in Hinv. simpl in Hinv.
    apply app_inj_tail in Hinv as [_ Hdg]. injection Hdg as <- <-.
    by apply (protocol_command_weaken (negb (finite c))).
Qed.

Lemma only_protocol_commands_sent_witness :
  Forall (fun dg => protocol_command true (command (dg_message dg))
                                          (params (dg_message dg)))
         (outbox two_in_flight).
Proof. exact (only_protocol_commands_sent cfg0 two_in_flight two_in_flight_reachable). Defined.

(** *** Identifiers *)

Lemma length_substring n m s :
  String.length (substring n m s) = Nat.min m (String.length s - n).
Proof.
  revert n m. induction s as [|c s IH]; intros [|n] [|m]; simpl; try done;
    rewrite IH; try done; destruct (Nat.min_spec m (String.length s - 0));
    destruct (Nat.min_spec m (String.length s)); lia.
Qed.

(** X8. An identifier has at most 13 characters: those of the random text
    from its third character on. It is empty exactly when the random text
    has no more than two characters (as for ["0"], the text of a draw of
    0). *)
Theorem generateCommandId_length rnd :
  String.length (generateCommandId rnd) = Nat.min 13 (String.length rnd - 2) ∧
  (generateCommandId rnd = "" ↔ (String.length rnd <= 2)%nat) ∧
  (∀ a b t, rnd = String a (String b t) → (String.length t <= 13)%nat →
     generateCommandId rnd = t).
Proof.
  unfold generateCommandId. split; [apply length_substring|]. split.
  - pose proof (length_substring 2 13 rnd) as Hlen.
    destruct (Nat.min_spec 13 (String.length rnd - 2)) as [[Hlt Hmin]|[Hlt Hmin]];
      rewrite Hmin in Hlen; split.
    + intros He. rewrite He in Hlen. simpl in Hlen. lia.
    + intros He. lia.
    + intros He. rewrite He in Hlen. simpl in Hlen. lia.
    + intros He. destruct (substring 2 13 rnd); [done|]. simpl in Hlen. lia.
  - intros a b t -> Hlen. simpl.
    assert (∀ m s, (String.length s <= m)%nat → substring 0 m s = s) as Hsub.
    { intros m s. revert m. induction s as [|c s IH]; intros [|m] H; simpl in *;
        try done; try lia. f_equal. apply IH. lia. }
    by apply Hsub.
Qed.

Lemma generateCommandId_length_witness : generateCommandId "0.4fzyo82mvyr" = "4fzyo82mvyr".
Proof.
  apply (proj2 (proj2 (generateCommandId_length "0.4fzyo82mvyr")) "0"%char "."%char).
  - reflexivity.
  - simpl. lia.
Defined.

Lemma step_ids st ev st' n r' :
  Inv st → step st ev = Some st' → requests st' !! n = Some r' →
  (n < length (requests st))%nat →
  ∃ r, requests st !! n = Some r ∧ req_id r = req_id r'.
Proof.
  intros HI Hs Hr' Hlt. destruct (step_effect st ev st' HI Hs) as (st1&He&->).
  assert (map (fun r => Some (req_id r)) (requests (drain st1)) !! n =
          map (fun r => Some (req_id r)) (requests st) !! n) as Heq.
  { rewrite drain_ids.
    destruct (effect_traffic st ev st1 He) as [_ [[_ ->]|(?&?&?&_&_&_&_&_&_&->)]];
      [done|].
    rewrite lookup_app_l; [done|]. by rewrite length_map. }
  change (map ?f ?l) with (f <$> l) in Heq. rewrite !list_lookup_fmap, Hr' in Heq.
  destruct (requests st !! n) as [r|]; [|done]. simpl in Heq.
  exists r. split; [done|]. congruence.
Qed.

(** X9. A request sent under the empty identifier can only fail: no
    datagram settles it, whatever [id] the datagram carries, and it is
    never fulfilled. *)
Theorem empty_identifier_never_answered cfg st n r :
  reachable cfg st → requests st !! n = Some r → req_id r = "" →
  (∀ v, req_promise r ≠ Some (Fulfilled v)) ∧
  (∀ payload st', step st (Message payload) = Some st' →
     promise_of st' n = req_promise r).
Proof.
  intros Hreach Hr Hid. split.
  - revert n r Hr Hid. revert st Hreach. apply (reachable_ind cfg
      (fun st => ∀ n r, requests st !! n = Some r → req_id r = "" →
                 ∀ v, req_promise r ≠ Some (Fulfilled v))).
    + intros n r. simpl. by rewrite lookup_nil.
    + intros st ev st' Hreach IH Hs n r' Hr' Hid' v Hv.
      pose proof (reachable_Inv _ _ Hreach) as HI.
      assert (promise_of st' n = Some (Fulfilled v)) as Hp
        by (by rewrite (promise_of_lookup _ _ _ Hr')).
      destruct (step_news st ev st' HI Hs n _ Hp) as [Hold|Hset].
      * apply promise_of_Some in Hold as (r&Hr&Ho).
        destruct (step_ids st ev st' n r' HI Hs Hr') as (r0&Hr0&Hid0);
          [by eapply lookup_lt_Some|].
        assert (r0 = r) as -> by congruence.
        apply (IH n r Hr ltac:(congruence) v Ho).
      * destruct ev as [| [response|] |k|k [e|]|]; simpl in Hset; try done;
          try (by destruct Hset).
        destruct Hset as [Hm _]. destruct (matches_Some _ _ _ Hm) as (s&_&Hs0&Hg).
        destruct (inv_table st HI s n Hg) as (r&Hr&Hrid&_).
        destruct (step_ids st _ st' n r' HI Hs Hr') as (r0&Hr0&Hid0);
          [by eapply lookup_lt_Some|].
        congruence.
  - intros payload st' Hs. pose proof (reachable_Inv _ _ Hreach) as HI.
    destruct (step_effect st _ st' HI Hs) as (st1&He&->).
    rewrite drain_promise_of. inversion He; subst.
    + by apply promise_of_lookup.
    + unfold promise_of. simpl. by rewrite Hr.
    + unfold promise_of. simpl.
      rewrite lookup_finish_ne; [by rewrite Hr|].
      intros ->. congruence.
Qed.

(** A proxy whose only request went out under the empty identifier. *)
Lemma empty_identifier_reachable :
  reachable cfg0 (default (new cfg0) (run (new cfg0) [Call Ping "0"])).
Proof. by exists [Call Ping "0"]. Qed.

Lemma empty_identifier_never_answered_witness :
  promise_of
    (default (new cfg0)
       (run (new cfg0) [Call Ping "0"; Message (Some (response_ok "" (JBool true)))]))
    0 = None.
Proof.
  exact (proj2 (empty_identifier_never_answered cfg0 _ 0 _
                  empty_identifier_reachable eq_refl eq_refl)
               (Some (response_ok "" (JBool true))) _ eq_refl).
Defined.

(** *** What a turn keeps of a proxy *)

Lemma effect_awaiter st ev st1 :
  effect st ev st1 → ∀ n r, requests st !! n = Some r →
  ∃ r1, requests st1 !! n = Some r1 ∧ req_awaiter r1 = req_awaiter r.
Proof.
  assert (Hfin : ∀ m s f o, flag_update f → ∀ n r, requests st !! n = Some r →
    ∃ r1, requests (finish m s f o st) !! n = Some r1 ∧
          req_awaiter r1 = req_awaiter r).
  { intros m s f o Hf n r Hr. destruct (decide (n = m)) as [->|Hne].
    - rewrite (finish_lookup_eq m s f o st r Hr). eexists. split; [done|].
      destruct (Hf r) as (_&Haw&_). by destruct (req_promise (f r)).
    - rewrite lookup_finish_ne by done. eauto. }
  intros He n r Hr. destruct He; eauto.
  - unfold exec. rewrite exec_sendCommand. simpl. exists r.
    split; [|done]. apply lookup_app_l_Some, Hr.
  - simpl. apply Hfin; [apply flag_update_timer|done].
  - apply Hfin; [apply flag_update_timer|done].
  - apply Hfin; [|done].
    apply flag_update_compose; [apply flag_update_timer|apply flag_update_callback].
  - simpl. destruct (decide (n = n0)) as [->|Hne].
    + rewrite list_lookup_alter_eq, Hr. by eexists.
    + rewrite list_lookup_alter_ne by done. eauto.
  - rewrite exec_close. simpl.
    destruct (lookup_lt_is_Some_2 (requests (close_entries (pendingCommands st) st)) n)
      as [r1 Hr1].
    { rewrite close_entries_length. by eapply lookup_lt_Some. }
    destruct (close_entries_requests _ _ n r1 Hr1) as (r0&Hr0&_&Haw&_).
    exists r1. split; [done|]. congruence.
Qed.

Lemma step_awaiter st ev st' n r :
  Inv st → step st ev = Some st' → requests st !! n = Some r →
  ∃ r', requests st' !! n = Some r' ∧ req_awaiter r' = req_awaiter r.
Proof.
  intros HI Hs Hr. destruct (step_effect st ev st' HI Hs) as (st1&He&->).
  destruct (effect_awaiter st ev st1 He n r Hr) as (r1&Hr1&Haw1).
  destruct (drain_lookup_l st1 n r1 Hr1) as (r'&Hr'&(_&Haw&_)).
  exists r'. split; [done|]. congruence.
Qed.

Lemma step_closed st ev st' :
  Inv st → step st ev = Some st' → ev ≠ Close → closed st' = closed st.
Proof.
  intros HI Hs Hev. destruct (step_effect st ev st' HI Hs) as (st1&He&->).
  destruct (drain_fields st1) as (_&_&_&_&->).
  destruct He; try done.
  - simpl. by destruct (finish_fields n s (set_timer false) (outcome response) st)
      as (_&_&->&_).
  - by destruct (finish_fields n (req_id r) (set_timer false)
                   (Rejected (mkError "Command timeout")) st) as (_&_&->&_).
  - by destruct (finish_fields n (req_id r) (set_timer false ∘ set_callback false)
                   (Rejected e) st) as (_&_&->&_).
Qed.

(** [close] on an open proxy. *)
Lemma step_close st :
  Inv st → closed st = false →
  ∃ st', step st Close = Some st' ∧ closed st' = true ∧
         pendingCommands st' = [] ∧ config st' = config st ∧
         ∀ s n, JsMap.get s (pendingCommands st) = Some n →
                promise_of st' n = Some (Rejected (mkError "Connection closed")).
Proof.
  intros HI Hopen. exists (drain (exec close st)). unfold step. simpl.
  rewrite Hopen. split; [done|].
  destruct (drain_fields (exec close st)) as (->&->&_&_&->).
  rewrite exec_close. simpl. split; [done|]. split; [done|].
  split; [apply close_entries_config|].
  intros s n Hg. rewrite drain_promise_of.
  destruct (inv_table st HI s n Hg) as (r&Hr&Hid&Hp&Ht).
  unfold promise_of. simpl.
  apply (close_entries_rejects _ _ s n r); [|done|done].
  by apply JsMapFacts.get_Some_elem.
Qed.

(** A [getStatus] that has completed has returned a status. *)
Lemma status_result st n r c :
  Inv st → requests st !! n = Some r → req_awaiter r = AwaitStatus →
  req_result r = Some c → ∃ s, c = Returned (RetStatus s).
Proof.
  intros HI Hr Haw Hc. destruct (inv_results st HI n r Hr) as [_ Hok].
  specialize (Hok ltac:(rewrite (inv_queue st HI); apply not_elem_of_nil)).
  unfold result_ok in Hok. rewrite Haw in Hok.
  destruct (req_promise r) as [[v|e]|].
  - destruct Hok as [s Hs]. exists s. congruence.
  - destruct Hok as [s Hs]. rewrite Hs in Hc. injection Hc as <-. by eexists.
  - congruence.
Qed.

Lemma step_getStatus st rnd :
  Inv st → closed st = false →
  step st (Call GetStatus rnd) = Some (exec (getStatus rnd) st) ∧
  requests (exec (getStatus rnd) st) !! length (requests st) =
    Some {| req_id := generateCommandId rnd; req_awaiter := AwaitStatus;
            req_promise := None; req_timer := true; req_callback := true;
            req_result := None |}.
Proof.
  intros HI Hopen. unfold step. simpl. rewrite Hopen. simpl.
  unfold getStatus, exec. rewrite exec_sendCommand. simpl. split.
  - f_equal. apply drain_nil. apply HI.
  - by rewrite lookup_app_r, Nat.sub_diag.
Qed.

End BulbProofs.

Module DiscoveryProofs.
Import Js JsFacts Discovery.

Example round_two_replies :
  let d := run new [Discover; Message (Some (reply "A")) sender_a;
                    Message (Some (reply "B")) sender_b; TimerExpired 0] in
  JsMap.keys (discoveredBulbs d) = ["192.168.1.45:4000"; "192.168.1.46:4000"] ∧
  match rounds d !! 0%nat with
  | Some (Some found) => length found = 2%nat
  | _ => False
  end ∧
  length (sent d) = 10%nat.
Proof. repeat split; reflexivity. Qed.

(** *** Keys *)

Lemma uint_no_colon d : has_colon (NilEmpty.string_of_uint d) = false.
Proof. induction d; simpl; auto. Qed.

Lemma dec_no_colon z : has_colon (dec z) = false.
Proof.
  unfold dec. destruct z as [|p|p]; simpl; [done| |].
  - unfold NilZero.string_of_uint.
    destruct (Pos.to_uint p) eqn:Hp; rewrite <- ?Hp; [done|..]; apply uint_no_colon.
  - unfold NilZero.string_of_uint.
    destruct (Pos.to_uint p) eqn:Hp; rewrite <- ?Hp; [done|..]; apply uint_no_colon.
Qed.

Lemma dec_inj z1 z2 : dec z1 = dec z2 → z1 = z2.
Proof.
  intros H. apply DecimalZ.to_int_inj.
  assert (∀ z, NilZero.int_of_string (dec z) = Some (Z.to_int z)) as Hisi.
  { intros z. unfold dec. apply NilZero.isi.
    - destruct z; simpl; try done. intros [= Hp]. by apply DecimalPos.Unsigned.to_uint_nonnil in Hp.
    - destruct z; simpl; try done. intros [= Hp]. by apply DecimalPos.Unsigned.to_uint_nonnil in Hp. }
  pose proof (Hisi z1) as H1. rewrite H, Hisi in H1. by injection H1.
Qed.

Lemma has_colon_append a s : has_colon (a +:+ String ":" s) = true.
Proof. induction a as [|c a IH]; simpl; [done|]. rewrite IH. apply orb_true_r. Qed.

Lemma append_colon_inj a1 a2 s1 s2 :
  has_colon s1 = false → has_colon s2 = false →
  a1 +:+ String ":" s1 = a2 +:+ String ":" s2 → a1 = a2 ∧ s1 = s2.
Proof.
  intros H1 H2. revert a2.
  induction a1 as [|c a1 IH]; intros [|c' a2]; simpl.
  - by intros [= ->].
  - intros [= <- ->]. by rewrite has_colon_append in H1.
  - intros [= -> <-]. by rewrite has_colon_append in H2.
  - intros [= <- H]. by destruct (IH a2 H) as [-> ->].
Qed.



Lemma onMessage_reply response ri d :
  prop response "type" = Some (JStr "discovery_response") →
  onMessage (Some response) ri d =
    {| discoveredBulbs :=
         JsMap.set (bulb_key (make_bulb ri (prop response "data")))
           (make_bulb ri (prop response "data")) (discoveredBulbs d);
       sent := sent d; rounds := rounds d |}.
Proof.
  unfold prop at 1. unfold onMessage.
  destruct (get_prop response "type") as [e|ty] eqn:Hty; [done|]. intros ->.
  by rewrite (get_prop_total _ _ _ "data" Hty).
Qed.




(** *** The discovered set over a run *)

Lemma run_app d evs1 evs2 : run d (evs1 ++ evs2) = run (run d evs1) evs2.
Proof. apply foldl_app. Qed.

Lemma addressed_make_bulb ri data : addressed (make_bulb ri data).
Proof.
  unfold addressed, make_bulb. split.
  - destruct (props data !! "ip") eqn:H.
    + exists j. by apply lookup_union_Some_l.
    + rewrite lookup_union_r by done. by eexists.
  - destruct (props data !! "port") eqn:H.
    + exists j. by apply lookup_union_Some_l.
    + rewrite lookup_union_r by done. by eexists.
Qed.

(** A message leaves the set alone or stores one record under its key. *)
Lemma onMessage_cases payload ri d :
  onMessage payload ri d = d ∨
  ∃ bulb, addressed bulb ∧
    onMessage payload ri d =
      {| discoveredBulbs := JsMap.set (bulb_key bulb) bulb (discoveredBulbs d);
         sent := sent d; rounds := rounds d |}.
Proof.
  destruct payload as [response|]; [|by left]. unfold onMessage.
  destruct (get_prop response "type") as [e|[[]|]]; try by left.
  destruct (decide (s = "discovery_response")) as [->|Hne].
  - destruct (get_prop response "data") as [e|data]; [by left|].
    right. eexists. split; [apply addressed_make_bulb|done].
  - left. repeat (destruct s as [|[[] [] [] [] [] [] [] []] s]; try done).
Qed.

Lemma keyed_values m : keyed m → map bulb_key (JsMap.values m) = JsMap.keys m.
Proof.
  unfold JsMap.values, JsMap.keys. induction 1 as [|[k b] m [Hk _] _ IH]; simpl; [done|].
  simpl in Hk. by rewrite IH, Hk.
Qed.

Lemma keyed_addressed m : keyed m → Forall addressed (JsMap.values m).
Proof.
  unfold JsMap.values. induction 1 as [|[k b] m [_ Ha] _ IH]; simpl; by constructor.
Qed.

Lemma step_set_ok d ev :
  NoDup (JsMap.keys (discoveredBulbs d)) → keyed (discoveredBulbs d) →
  NoDup (JsMap.keys (discoveredBulbs (step d ev))) ∧ keyed (discoveredBulbs (step d ev)).
Proof.
  intros Hnd Hk. destruct ev as [|payload ri|n]; simpl.
  - split; [apply NoDup_nil_2|apply Forall_nil_2].
  - destruct (onMessage_cases payload ri d) as [->|(bulb&Ha&->)]; [done|]. simpl.
    split; [by apply JsMapFacts.NoDup_keys_set|by apply JsMapFacts.Forall_set].
  - unfold onTimeout. by destruct (rounds d !! n) as [[|]|].
Qed.

Lemma step_rounds_ok d ev :
  NoDup (JsMap.keys (discoveredBulbs d)) → keyed (discoveredBulbs d) →
  (∀ n found, rounds d !! n = Some (Some found) → distinct found) →
  ∀ n found, rounds (step d ev) !! n = Some (Some found) → distinct found.
Proof.
  intros Hnd Hk Hr n found. destruct ev as [|payload ri|m]; simpl.
  - intros [H|[_ H]]%lookup_app_Some; [by eapply Hr|].
    by destruct (n - length (rounds d))%nat.
  - destruct (onMessage_cases payload ri d) as [->|(bulb&Ha&->)]; [apply Hr|].
    simpl. apply Hr.
  - unfold onTimeout. destruct (rounds d !! m) as [[|]|] eqn:Hm; try apply Hr.
    simpl. destruct (decide (m = n)) as [->|Hne].
    + rewrite list_lookup_insert_eq by (by eapply lookup_lt_Some).
      intros [= <-]. split; [by rewrite keyed_values|by apply keyed_addressed].
    + rewrite list_lookup_insert_ne by done. apply Hr.
Qed.

(** X10. The records of the discovered set, and those of every list a
    round resolved with, name an [ip] and a [port] and spell pairwise
    different ["ip:port"] keys: a device that answers several of the ten
    broadcasts of a round, or several rounds, is listed once. *)
Theorem discovered_records_distinct evs :
  distinct (getDiscoveredBulbs (run new evs)) ∧
  ∀ n found, rounds (run new evs) !! n = Some (Some found) → distinct found.
Proof.
  assert (∀ d,
    NoDup (JsMap.keys (discoveredBulbs d)) → keyed (discoveredBulbs d) →
    (∀ n found, rounds d !! n = Some (Some found) → distinct found) →
    NoDup (JsMap.keys (discoveredBulbs (run d evs))) ∧
    keyed (discoveredBulbs (run d evs)) ∧
    (∀ n found, rounds (run d evs) !! n = Some (Some found) → distinct found)) as H.
  { induction evs as [|ev evs IH]; intros d Hnd Hk Hr; [done|].
    simpl. destruct (step_set_ok d ev Hnd Hk) as [Hnd' Hk'].
    apply IH; [done|done|]. by apply step_rounds_ok. }
  destruct (H new) as (Hnd&Hk&Hr); [apply NoDup_nil_2|apply Forall_nil_2|done|].
  split; [|done]. unfold getDiscoveredBulbs.
  split; [by rewrite keyed_values|by apply keyed_addressed].
Qed.

Lemma discovered_records_distinct_witness :
  distinct [make_bulb sender_a (prop (reply "A") "data")].
Proof.
  exact (proj2 (discovered_records_distinct
                  [Discover; Message (Some (reply "A")) sender_a; TimerExpired 0])
               0%nat _ eq_refl).
Defined.

(** *** Traffic *)

Lemma step_sent d ev :
  sent (step d ev) = sent d ++ (if is_discover ev then burst else []) ∧
  length (rounds (step d ev)) =
    (length (rounds d) + (if is_discover ev then 1 else 0))%nat.
Proof.
  destruct ev as [|payload ri|n]; simpl.
  - split; [done|]. by rewrite length_app.
  - rewrite app_nil_r, Nat.add_0_r.
    by destruct (onMessage_cases payload ri d) as [->|(bulb&Ha&->)].
  - rewrite app_nil_r, Nat.add_0_r. unfold onTimeout.
    destruct (rounds d !! n) as [[|]|]; try done. simpl.
    by rewrite length_insert.
Qed.

(** X11. Each call of [discoverBulbs] sends the same ten datagrams (the
    discovery message to five ports on each of two broadcast addresses)
    and opens one round; replies and timers send nothing, so nothing is
    ever sent again within a round. *)
Theorem ten_datagrams_per_round d evs :
  let k := length (List.filter is_discover evs) in
  sent (run d evs) = sent d ++ mjoin (replicate k burst) ∧
  length (sent (run d evs)) = (length (sent d) + 10 * k)%nat ∧
  length (rounds (run d evs)) = (length (rounds d) + k)%nat.
Proof.
  cbv zeta. revert d. induction evs as [|ev evs IH]; intros d.
  - simpl. rewrite app_nil_r. repeat split; lia.
  - change (run d (ev :: evs)) with (run (step d ev) evs).
    destruct (IH (step d ev)) as (Hs&Hl&Hr). destruct (step_sent d ev) as [Hs1 Hr1].
    rewrite Hl, Hr, Hr1, Hs, Hs1, length_app. simpl.
    destruct (is_discover ev); simpl.
    + rewrite <- app_assoc. split; [done|]. change (length burst) with 10%nat. lia.
    + rewrite !app_nil_r. split; [done|]. simpl. lia.
Qed.

(** *** Rounds that overlap *)

Lemma run_set_only d1 d2 evs :
  discoveredBulbs d1 = discoveredBulbs d2 →
  discoveredBulbs (run d1 evs) = discoveredBulbs (run d2 evs).
Proof.
  revert d1 d2. induction evs as [|ev evs IH]; intros d1 d2 H; [done|].
  simpl. apply IH. destruct ev as [|payload ri|n]; simpl.
  - done.
  - destruct payload as [response|]; [|done]. unfold onMessage.
    destruct (get_prop response "type") as [e|[[]|]]; try done.
    destruct (decide (s = "discovery_response")) as [->|Hne].
    + destruct (get_prop response "data") as [e|data]; [done|]. simpl. by rewrite H.
    + repeat (destruct s as [|[[] [] [] [] [] [] [] []] s]; try done).
  - unfold onTimeout.
    by destruct (rounds d1 !! n) as [[|]|], (rounds d2 !! n) as [[|]|].
Qed.

Lemma step_round_open d ev n :
  rounds d !! n = Some None → ev ≠ TimerExpired n →
  rounds (step d ev) !! n = Some None.
Proof.
  intros Hn Hev. destruct ev as [|payload ri|m]; simpl.
  - by apply lookup_app_l_Some.
  - by destruct (onMessage_cases payload ri d) as [->|(bulb&Ha&->)].
  - unfold onTimeout. destruct (rounds d !! m) as [[|]|] eqn:Hm; try done.
    simpl. rewrite list_lookup_insert_ne; [done|]. congruence.
Qed.

Lemma run_round_open d evs n :
  rounds d !! n = Some None → TimerExpired n ∉ evs →
  rounds (run d evs) !! n = Some None.
Proof.
  revert d. induction evs as [|ev evs IH]; intros d Hn Hnin; [done|].
  apply not_elem_of_cons in Hnin as [Hne Hnin]. simpl.
  apply IH; [|done]. by apply step_round_open.
Qed.

(** X12. Rounds share one discovered set. When [discoverBulbs] is called
    again while round [n] is still open, the set is cleared under it: at
    the end of its window round [n] resolves with the replies that came
    after the later call only, whatever had arrived before. *)
Theorem overlapping_rounds_share_set d n evs :
  rounds d !! n = Some None → TimerExpired n ∉ evs →
  rounds (run d (Discover :: evs ++ [TimerExpired n])) !! n =
    Some (Some (getDiscoveredBulbs (run new (Discover :: evs)))).
Proof.
  intros Hn Hnin.
  change (Discover :: evs ++ [TimerExpired n])
    with ((Discover :: evs) ++ [TimerExpired n]).
  rewrite run_app.
  change (run d (Discover :: evs)) with (run (discoverBulbs d).2 evs).
  change (run new (Discover :: evs)) with (run (discoverBulbs new).2 evs).
  set (d1 := run (discoverBulbs d).2 evs).
  assert (rounds d1 !! n = Some None) as Hopen.
  { apply run_round_open; [|done]. simpl. by apply lookup_app_l_Some. }
  change (run d1 [TimerExpired n]) with (onTimeout n d1).
  unfold onTimeout. rewrite Hopen. simpl.
  rewrite list_lookup_insert_eq by (by eapply lookup_lt_Some).
  unfold getDiscoveredBulbs. do 3 f_equal. by apply run_set_only.
Qed.

Lemma overlapping_rounds_share_set_witness :
  rounds (run new [Discover; Message (Some (reply "A")) sender_a;
                   Discover; Message (Some (reply "B")) sender_b;
                   TimerExpired 0]) !! 0%nat =
    Some (Some [make_bulb sender_b (prop (reply "B") "data")]).
Proof.
  refine (overlapping_rounds_share_set
            (run new [Discover; Message (Some (reply "A")) sender_a]) 0
            [Message (Some (reply "B")) sender_b] eq_refl _).
  intros [[=]|?%elem_of_nil]%elem_of_cons. done.
Defined.

(** X13. What a round resolved with is a snapshot: replies that arrive
    after its window, later rounds and their timers leave the list it
    returned as it was. *)
Theorem round_result_is_snapshot d n found evs :
  rounds d !! n = Some (Some found) →
  rounds (run d evs) !! n = Some (Some found).
Proof.
  revert d. induction evs as [|ev evs IH]; intros d Hn; [done|].
  simpl. apply IH. destruct ev as [|payload ri|m]; simpl.
  - by apply lookup_app_l_Some.
  - by destruct (onMessage_cases payload ri d) as [->|(bulb&Ha&->)].
  - unfold onTimeout. destruct (rounds d !! m) as [[|]|] eqn:Hm; try done.
    simpl. rewrite list_lookup_insert_ne; [done|]. congruence.
Qed.

Lemma round_result_is_snapshot_witness :
  rounds (run new [Discover; Message (Some (reply "A")) sender_a; TimerExpired 0;
                   Message (Some (reply "B")) sender_b; Discover]) !! 0%nat =
    Some (Some [make_bulb sender_a (prop (reply "A") "data")]).
Proof.
  exact (round_result_is_snapshot
           (run new [Discover; Message (Some (reply "A")) sender_a; TimerExpired 0])
           0 _ [Message (Some (reply "B")) sender_b; Discover] eq_refl).
Defined.

End DiscoveryProofs.

Module MockBulbProofs.
Import Js JsFacts MockBulb.

Example mock_ping :
  outbox (onMessage (Some (JObj {[ "command" := JStr "ping"; "id" := JStr "a1" ]}))
            Discovery.sender_a (new None None)) =
  [{| dg_message := JObj {[ "success" := JBool true; "id" := JStr "a1";
                            "data" := JObj {[ "pong" := JBool true ]} ]};
      dg_port := 4000; dg_address := "192.168.1.45" |}].
Proof. reflexivity. Qed.

Example mock_unknown_command :
  outbox (onMessage (Some (JObj {[ "command" := JStr "reboot"; "id" := JStr "a1" ]}))
            Discovery.sender_a (new None None)) =
  [{| dg_message := JObj {[ "success" := JBool false; "id" := JStr "a1";
                            "error" := JStr "Unknown command: reboot" ]};
      dg_port := 4000; dg_address := "192.168.1.45" |}].
Proof. reflexivity. Qed.

(** *** The state *)

Lemma upto_Some hi v z :
  upto hi v = Some z → v = Some (JNum z) ∧ (0 <= z <= hi)%Z.
Proof.
  destruct v as [[]|]; simpl; try done.
  destruct (Z.leb_spec 0 n), (Z.leb_spec n hi); simpl; try done.
  intros [= <-]. split; [done|lia].
Qed.

Lemma channels_Some color r g b :
  channels color = Some (r, g, b) →
  (0 <= r <= 255)%Z ∧ (0 <= g <= 255)%Z ∧ (0 <= b <= 255)%Z ∧
  ∃ c, color = Some c ∧ prop c "r" = Some (JNum r) ∧
       prop c "g" = Some (JNum g) ∧ prop c "b" = Some (JNum b).
Proof.
  unfold channels. destruct color as [c|]; [|done].
  destruct (truthy (Some c)); [|done]. simpl.
  destruct (upto 255 (prop c "r")) as [r'|] eqn:Hr; [|done]. simpl.
  destruct (upto 255 (prop c "g")) as [g'|] eqn:Hg; [|done]. simpl.
  destruct (upto 255 (prop c "b")) as [b'|] eqn:Hb; [|done]. simpl.
  intros [= <- <- <-].
  apply upto_Some in Hr as [? ?]. apply upto_Some in Hg as [? ?].
  apply upto_Some in Hb as [? ?]. repeat split; try lia. by exists c.
Qed.

Lemma initialState_ok : state_ok initialState.
Proof.
  split.
  - by exists false.
  - exists 50%Z. split; [done|lia].
  - exists 255%Z, 255%Z, 255%Z. split; [done|lia].
  - done.
  - intros k [v Hk]. unfold initialState in Hk.
    repeat (apply lookup_insert_Some in Hk as [[<- _]|[_ Hk]];
            [repeat constructor|]).
    apply lookup_singleton_Some in Hk as [<- _]. repeat constructor.
Qed.

Lemma state_ok_insert k v s :
  state_ok s →
  k ∈ ["power"; "brightness"; "color"; "temperature"] →
  state_ok (<[k := v]> s) ↔
  match k with
  | "power" => ∃ b, v = JBool b
  | "brightness" => ∃ z, v = JNum z ∧ (0 <= z <= 100)%Z
  | "color" =>
      ∃ r g b, v = JObj {[ "r" := JNum r; "g" := JNum g; "b" := JNum b ]} ∧
               (0 <= r <= 255)%Z ∧ (0 <= g <= 255)%Z ∧ (0 <= b <= 255)%Z
  | _ => v = JNum 3000
  end.
Proof.
  intros [Hp Hb Hc Ht Hf] Hk.
  assert (Hdom : ∀ k', is_Some (<[k := v]> s !! k') →
                       k' ∈ ["power"; "brightness"; "color"; "temperature"]).
  { intros k' [x Hx]. apply lookup_insert_Some in Hx as [[<- _]|[_ Hx]]; [done|].
    by apply Hf. }
  repeat (apply elem_of_cons in Hk as [->|Hk]); [..|by apply elem_of_nil in Hk].
  - split.
    + intros [[b Hb'] _ _ _ _]. rewrite lookup_insert_eq in Hb'. exists b. congruence.
    + intros [b ->]. split; try done; rewrite ?lookup_insert_eq, ?lookup_insert_ne by done;
        eauto.
  - split.
    + intros [_ (z&Hz&?) _ _ _]. rewrite lookup_insert_eq in Hz. exists z.
      split; [congruence|done].
    + intros (z&->&?). split; try done;
        rewrite ?lookup_insert_eq, ?lookup_insert_ne by done; eauto.
  - split.
    + intros [_ _ (r&g&b&Hz&?) _ _]. rewrite lookup_insert_eq in Hz. exists r, g, b.
      split; [congruence|done].
    + intros (r&g&b&->&?). split; try done;
        rewrite ?lookup_insert_eq, ?lookup_insert_ne by done; eauto 10.
  - split.
    + intros [_ _ _ Hz _]. rewrite lookup_insert_eq in Hz. congruence.
    + intros ->. split; try done;
        rewrite ?lookup_insert_eq, ?lookup_insert_ne by done; eauto.
Qed.

Lemma try_block_state_ok request name s :
  state_ok s → state_ok (try_block request name s).2.
Proof.
  intros Hs. unfold try_block.
  destruct (command_is request "ping"); [done|].
  destruct (command_is request "discover"); [done|].
  destruct (command_is request "set_power").
  { destruct (opt_prop _ "power") as [[]|]; try done. simpl.
    apply state_ok_insert; [done|repeat constructor|]. by eexists. }
  destruct (command_is request "set_brightness").
  { destruct (upto 100 _) as [z|] eqn:Hz; [|done]. simpl.
    apply upto_Some in Hz as [_ ?].
    apply state_ok_insert; [done|repeat constructor|]. by exists z. }
  destruct (command_is request "set_color").
  { destruct (channels _) as [[[r g] b]|] eqn:Hc; [|done]. simpl.
    apply channels_Some in Hc as (?&?&?&_).
    apply state_ok_insert; [done|repeat constructor|]. by exists r, g, b. }
  by destruct (command_is request "get_status").
Qed.

Lemma onMessage_fields payload ri m :
  port (onMessage payload ri m) = port m ∧ name (onMessage payload ri m) = name m.
Proof.
  destruct payload as [request|]; [|done]. unfold onMessage, handleRequest.
  destruct (get_prop request "command"); [done|].
  by destruct (try_block request (name m) (state m)) as [[thrown response] s].
Qed.

Lemma onMessage_state payload ri m :
  state (onMessage payload ri m) = state m ∨
  ∃ request, payload = Some request ∧
    state (onMessage payload ri m) = (try_block request (name m) (state m)).2.
Proof.
  destruct payload as [request|]; [|by left]. unfold onMessage, handleRequest.
  destruct (get_prop request "command"); [by left|]. right. exists request.
  split; [done|].
  by destruct (try_block request (name m) (state m)) as [[thrown response] s].
Qed.

(** X14. Whatever datagrams arrive, in whatever order, the state of the
    mock device keeps its declared shape and ranges: [power] is a boolean,
    [brightness] a number from 0 to 100, [color] three channels from 0 to
    255, and [temperature] stays at 3000. *)
Theorem mock_state_stays_valid p nm msgs :
  state_ok (getCurrentState (run (new p nm) msgs)).
Proof.
  unfold getCurrentState.
  assert (∀ m, state_ok (state m) → state_ok (state (run m msgs))) as H.
  { induction msgs as [|[payload ri] msgs IH]; intros m Hm; [done|].
    simpl. apply IH.
    destruct (onMessage_state payload ri m) as [->|(request&_&->)]; [done|].
    by apply try_block_state_ok. }
  apply H, initialState_ok.
Qed.

(** *** The reply *)




End MockBulbProofs.

Module WireProofs.
Import Js JsFacts Bulb BulbProofs.

Example turnOn_end_to_end :
  let st1 := default (new cfg0) (step (new cfg0) (Call TurnOn "0.4fzyo82mvyr")) in
  let m := MockBulb.onMessage
             (Some (Wire.stringify {| command := "set_power";
                                      params := Some (json_obj [("power", JBool true)]);
                                      id := Some "4fzyo82mvyr" |}))
             Discovery.sender_a (MockBulb.new None None) in
  (dg_message <$> outbox st1) =
    [{| command := "set_power"; params := Some (json_obj [("power", JBool true)]);
        id := Some "4fzyo82mvyr" |}] ∧
  MockBulb.state m !! "power" = Some (JBool true) ∧
  match MockBulb.outbox m with
  | [reply] =>
      match step st1 (Message (Some (MockBulb.dg_message reply))) with
      | Some st2 =>
          result_of st2 0 = Some (Returned RetVoid) ∧
          getLastStatus st2 !! "power" = Some (JBool true) ∧
          getLastStatus st2 !! "connected" = Some (JBool true)
      | None => False
      end
  | _ => False
  end.
Proof. repeat split; reflexivity. Qed.

(** *** What the mock device answers to a command of the protocol *)











(** *** What the proxy makes of the answer *)








(** *** The exchange *)




(** *** A number that is not one *)





(** *** Discovery *)

Lemma mock_discovery_reply ri m :
  MockBulb.onMessage (Some Discovery.discoveryMessage) ri m =
    {| MockBulb.state := MockBulb.state m; MockBulb.port := MockBulb.port m;
       MockBulb.name := MockBulb.name m;
       MockBulb.outbox := MockBulb.outbox m ++
         [{| MockBulb.dg_message :=
               JObj (MockBulb.discovery_response (MockBulb.name m));
             MockBulb.dg_port := Discovery.port ri;
             MockBulb.dg_address := Discovery.address ri |}] |}.
Proof. reflexivity. Qed.

Lemma run_cons_message d payload ri l :
  Discovery.run d (Discovery.Message payload ri :: l) =
  Discovery.run (Discovery.onMessage payload ri d) l.
Proof. reflexivity. Qed.

Lemma run_replies bulb response ri d k :
  (∀ d', Discovery.onMessage (Some response) ri d' =
    {| Discovery.discoveredBulbs :=
         JsMap.set (Discovery.bulb_key bulb) bulb (Discovery.discoveredBulbs d');
       Discovery.sent := Discovery.sent d'; Discovery.rounds := Discovery.rounds d' |}) →
  Discovery.discoveredBulbs d = [] →
  Discovery.discoveredBulbs
    (Discovery.run d (replicate (S k) (Discovery.Message (Some response) ri))) =
  [(Discovery.bulb_key bulb, bulb)].
Proof.
  intros Hall Hd.
  assert (∀ d', Discovery.discoveredBulbs d' = [(Discovery.bulb_key bulb, bulb)] →
    Discovery.discoveredBulbs
      (Discovery.run d' (replicate k (Discovery.Message (Some response) ri))) =
    [(Discovery.bulb_key bulb, bulb)]) as Hk.
  { induction k as [|k IH]; intros d' Hd'; [done|].
    cbn [replicate]. rewrite run_cons_message. apply IH.
    rewrite Hall. cbn [Discovery.discoveredBulbs]. rewrite Hd'.
    cbn [JsMap.set]. by rewrite decide_True. }
  cbn [replicate]. rewrite run_cons_message. apply Hk.
  rewrite Hall. cbn [Discovery.discoveredBulbs]. by rewrite Hd.
Qed.

(** X18. Discovery finds the mock device. The device answers each of the
    ten broadcast datagrams with its discovery reply, sent back to the
    discoverer, and does not change state; however many of these replies
    come back within a round, the round lists the device once, under its
    sender address and port, with the name it was started with and its
    model, firmware version and MAC address. *)
Theorem discovery_finds_mock m ri_d ri_m d k :
  let response := JObj (MockBulb.discovery_response (MockBulb.name m)) in
  let d' := Discovery.run d
              (Discovery.Discover ::
               replicate (S k) (Discovery.Message (Some response) ri_m)) in
  Forall (fun dg =>
            MockBulb.state (MockBulb.onMessage (Some (Discovery.dg_message dg)) ri_d m)
              = MockBulb.state m ∧
            MockBulb.outbox (MockBulb.onMessage (Some (Discovery.dg_message dg)) ri_d m)
              = MockBulb.outbox m ++
                  [{| MockBulb.dg_message := response;
                      MockBulb.dg_port := Discovery.port ri_d;
                      MockBulb.dg_address := Discovery.address ri_d |}])
         (Discovery.burst) ∧
  JsMap.keys (Discovery.discoveredBulbs d') =
    [Discovery.address ri_m +:+ ":" +:+ dec (Discovery.port ri_m)] ∧
  Discovery.getDiscoveredBulbs d' =
    [ {[ "ip" := JStr (Discovery.address ri_m);
         "port" := JNum (Discovery.port ri_m);
         "name" := JStr (MockBulb.name m);
         "model" := JStr "MockBulb v1.0";
         "firmwareVersion" := JStr "1.0.0";
         "macAddress" := JStr "00:11:22:33:44:55" ]} ].
Proof.
  cbv zeta. split.
  { assert (Forall (fun dg => Discovery.dg_message dg = Discovery.discoveryMessage)
              Discovery.burst) as Hb by (repeat constructor).
    eapply Forall_impl; [exact Hb|]. intros dg ->.
    by rewrite mock_discovery_reply. }
  set (response := JObj (MockBulb.discovery_response (MockBulb.name m))).
  set (bulb := Discovery.make_bulb ri_m (prop response "data")).
  assert (Hall : ∀ d0, Discovery.onMessage (Some response) ri_m d0 =
    {| Discovery.discoveredBulbs :=
         JsMap.set (Discovery.bulb_key bulb) bulb (Discovery.discoveredBulbs d0);
       Discovery.sent := Discovery.sent d0; Discovery.rounds := Discovery.rounds d0 |}).
  { intros d0. by apply DiscoveryProofs.onMessage_reply. }
  pose proof (run_replies bulb response ri_m (Discovery.discoverBulbs d).2 k
                Hall eq_refl) as Hrun.
  change (Discovery.run d (Discovery.Discover :: ?l))
    with (Discovery.run (Discovery.discoverBulbs d).2 l).
  unfold Discovery.getDiscoveredBulbs. rewrite Hrun. simpl.
  split.
  - reflexivity.
  - reflexivity.
Qed.

End WireProofs.

Module RegistryProofs.
Import Js JsFacts Registry.

Example connect_twice :
  let g := default new
             (run new [Connect "192.168.1.45" 4000 "0.4fzyo82mvyr";
                       Connect "192.168.1.45" 4000 "0.k2j9x0q1abc"]) in
  managedBulbs g = [("192.168.1.45:4000", 0%nat)] ∧ length (bulbs g) = 1%nat.
Proof. split; reflexivity. Qed.

(** *** Keys *)

Lemma key_inj ip1 p1 ip2 p2 : key ip1 p1 = key ip2 p2 → ip1 = ip2 ∧ p1 = p2.
Proof.
  unfold key. intros H.
  change (ip1 +:+ String ":" (dec p1) = ip2 +:+ String ":" (dec p2)) in H.
  apply DiscoveryProofs.append_colon_inj in H as [-> Hp];
    try apply DiscoveryProofs.dec_no_colon.
  split; [done|]. by apply DiscoveryProofs.dec_inj.
Qed.

(** *** Proxies in the store *)

Lemma stored_step b ev b' :
  stored b → Bulb.step b ev = Some b' →
  stored b' ∧ Bulb.config b' = Bulb.config b.
Proof.
  unfold stored. intros Hb Hs.
  pose proof (BulbProofs.reachable_step _ _ _ _ Hb Hs) as Hb'.
  assert (Bulb.config b' = Bulb.config b) as Hc.
  { rewrite (BulbProofs.reachable_config _ _ Hb').
    by rewrite (BulbProofs.reachable_config _ _ Hb). }
  split; [by rewrite Hc|done].
Qed.

Lemma later_refl b : later b b.
Proof. split; eauto. Qed.

Lemma later_trans b1 b2 b3 : later b1 b2 → later b2 b3 → later b1 b3.
Proof.
  intros [Hc1 H1] [Hc2 H2]. split; [congruence|].
  intros n r Hr. destruct (H1 n r Hr) as (r2&Hr2&Ha2).
  destruct (H2 n r2 Hr2) as (r3&Hr3&Ha3). exists r3. split; [done|]. congruence.
Qed.

Lemma step_later b ev b' : stored b → Bulb.step b ev = Some b' → later b b'.
Proof.
  intros Hb Hs. split; [by apply (stored_step b ev b' Hb Hs)|].
  intros n r Hr.
  by apply (BulbProofs.step_awaiter b ev b' n r (BulbProofs.reachable_Inv _ _ Hb) Hs).
Qed.

Lemma extends_refl bs : extends bs bs.
Proof. intros h b Hb. exists b. split; [done|apply later_refl]. Qed.

Lemma extends_trans bs1 bs2 bs3 : extends bs1 bs2 → extends bs2 bs3 → extends bs1 bs3.
Proof.
  intros H1 H2 h b Hb. destruct (H1 h b Hb) as (b2&Hb2&Hl2).
  destruct (H2 h b2 Hb2) as (b3&Hb3&Hl3). exists b3. split; [done|].
  by eapply later_trans.
Qed.

Lemma extends_insert bs h b b' :
  bs !! h = Some b → later b b' → extends bs (<[h := b']> bs).
Proof.
  intros Hb Hl h0 b0 Hb0. destruct (decide (h0 = h)) as [->|Hne].
  - exists b'. rewrite list_lookup_insert_eq by (by eapply lookup_lt_Some).
    split; [done|]. congruence.
  - exists b0. rewrite list_lookup_insert_ne by done. split; [done|apply later_refl].
Qed.

Lemma store_ok_insert bs h b' :
  store_ok bs → stored b' → store_ok (<[h := b']> bs).
Proof.
  intros Hs Hb' h0 b0 Hb0. destruct (decide (h0 = h)) as [->|Hne].
  - apply list_lookup_insert_Some in Hb0 as [(_&<-&_)|[? _]]; done.
  - rewrite list_lookup_insert_ne in Hb0 by done. by eapply Hs.
Qed.

Lemma tracked_extends q bs bs' : tracked q bs → extends bs bs' → tracked q bs'.
Proof.
  intros (b&r&Hb&Hr&Ha) He. destruct (He _ _ Hb) as (b'&Hb'&_&Hl).
  destruct (Hl _ _ Hr) as (r'&Hr'&Ha'). exists b', r'.
  split; [done|]. split; [done|]. congruence.
Qed.

(** A step on one proxy that leaves it open or closed as it was. *)
Lemma managed_ok_insert bs m h b b' :
  managed_ok bs m → bs !! h = Some b →
  Bulb.config b' = Bulb.config b → Bulb.closed b' = Bulb.closed b →
  managed_ok (<[h := b']> bs) m.
Proof.
  intros Hm Hb Hc Hcl k h0 Hin. destruct (Hm k h0 Hin) as (b0&Hb0&Hopen&Hk).
  destruct (decide (h0 = h)) as [->|Hne].
  - exists b'. rewrite list_lookup_insert_eq by (by eapply lookup_lt_Some).
    assert (b0 = b) as -> by congruence.
    split; [done|]. split; [congruence|]. by rewrite Hc.
  - exists b0. by rewrite list_lookup_insert_ne.
Qed.

(** *** The invariant *)

Lemma registry_new_Inv : Inv new.
Proof.
  split.
  - by intros h b ?.
  - by intros k h ?%elem_of_nil.
  - apply NoDup_nil_2.
Qed.

Lemma fresh_proxy ip port rnd :
  let b := Bulb.exec (Bulb.ping rnd)
             (Bulb.new {| Bulb.ip := ip; Bulb.port := port; Bulb.timeout := None |}) in
  stored b ∧ Bulb.closed b = false ∧
  Bulb.ip (Bulb.config b) = ip ∧ Bulb.port (Bulb.config b) = port.
Proof.
  cbv zeta. split; [|done].
  by exists [Bulb.Call Bulb.Ping rnd].
Qed.

Lemma connectToBulb_Inv ip port rnd g : Inv g → Inv (connectToBulb ip port rnd g).2.
Proof.
  intros [Hs Hm Hk]. unfold connectToBulb.
  destruct (JsMap.get (key ip port) (managedBulbs g)) as [h|] eqn:Hg; [done|].
  destruct (fresh_proxy ip port rnd) as (Hst&Hopen&Hip&Hport).
  simpl. split; simpl.
  - intros h b [Hb|[_ Hb]]%lookup_app_Some; [by eapply Hs|].
    destruct (h - length (bulbs g))%nat; [|done]. by injection Hb as <-.
  - intros k h Hin. rewrite (JsMapFacts.get_None_set _ _ _ Hg) in Hin.
    apply elem_of_app in Hin as [Hin|Hin].
    + destruct (Hm k h Hin) as (b&Hb&?&?). exists b.
      split; [by apply lookup_app_l_Some|done].
    + apply list_elem_of_singleton in Hin. injection Hin as -> ->.
      eexists. split; [by rewrite lookup_app_r, Nat.sub_diag|]. done.
  - by apply JsMapFacts.NoDup_keys_set.
Qed.

Lemma close_bulb_Some h bs bs' :
  close_bulb h bs = Some bs' →
  ∃ b b', bs !! h = Some b ∧ Bulb.step b Bulb.Close = Some b' ∧ bs' = <[h := b']> bs.
Proof.
  unfold close_bulb. destruct (bs !! h) as [b|] eqn:Hb; [|done]. simpl.
  destruct (Bulb.step b Bulb.Close) as [b'|] eqn:Hs; [|done]. simpl.
  intros [= <-]. eauto.
Qed.

Lemma close_bulb_open h bs b :
  store_ok bs → bs !! h = Some b → Bulb.closed b = false →
  ∃ b', close_bulb h bs = Some (<[h := b']> bs) ∧
        Bulb.step b Bulb.Close = Some b' ∧ shut b b' ∧ stored b' ∧ later b b'.
Proof.
  intros Hs Hb Hopen.
  destruct (BulbProofs.step_close b (BulbProofs.reachable_Inv _ _ (Hs _ _ Hb)) Hopen)
    as (b'&Hstep&Hcl&Hp&_&Hrej).
  exists b'. unfold close_bulb. rewrite Hb. simpl. rewrite Hstep. simpl.
  split; [done|]. split; [done|]. split; [done|].
  split; [by apply (stored_step b _ b' (Hs _ _ Hb) Hstep)|].
  by apply (step_later b _ b' (Hs _ _ Hb) Hstep).
Qed.

(** The proxies of the Map are pairwise different. *)
Lemma values_NoDup bs m :
  managed_ok bs m → NoDup (JsMap.keys m) → NoDup (JsMap.values m).
Proof.
  unfold JsMap.keys, JsMap.values. intros Hm.
  induction m as [|[k h] m IH]; simpl; [intros; apply NoDup_nil_2|].
  intros [Hnin Hnd]%NoDup_cons. apply NoDup_cons. split.
  - intros Hin. apply list_elem_of_fmap in Hin as ([k' h']&Heq&Hin).
    simpl in Heq. subst h'. apply Hnin.
    destruct (Hm k h) as (b&Hb&_&Hk); [left|].
    destruct (Hm k' h) as (b'&Hb'&_&Hk'); [by right|].
    assert (b' = b) as -> by congruence. subst k'. subst k.
    apply list_elem_of_fmap. by eexists (_, h).
  - apply IH; [|done]. intros k' h' Hin. apply Hm. by right.
Qed.

Lemma disconnectBulb_Inv ip port g g' :
  Inv g → disconnectBulb ip port g = Some g' → Inv g'.
Proof.
  intros [Hs Hm Hk]. unfold disconnectBulb.
  destruct (JsMap.get (key ip port) (managedBulbs g)) as [h|] eqn:Hg.
  2:{ by intros [= <-]. }
  destruct (close_bulb h (bulbs g)) as [bs|] eqn:Hc; [|done]. simpl.
  intros [= <-]. apply close_bulb_Some in Hc as (b&b'&Hb&Hstep&->).
  destruct (stored_step b _ b' (Hs _ _ Hb) Hstep) as [Hst' Hcfg].
  split; simpl.
  - by apply store_ok_insert.
  - intros k h0 Hin. apply JsMapFacts.elem_of_delete in Hin as [Hin Hne].
    simpl in Hne. destruct (Hm k h0 Hin) as (b0&Hb0&Hopen&Hk0).
    assert (h0 ≠ h) as Hh.
    { intros ->. apply Hne.
      destruct (Hm _ _ (JsMapFacts.get_Some_elem _ _ _ Hg)) as (b1&Hb1&_&Hk1).
      congruence. }
    exists b0. by rewrite list_lookup_insert_ne.
  - by apply JsMapFacts.NoDup_keys_delete.
Qed.

(** The loop of [disconnectAllBulbs] over open, pairwise different
    proxies. *)
Lemma close_all_spec entries bs :
  store_ok bs → NoDup (JsMap.values entries) →
  (∀ k h, (k, h) ∈ entries → ∃ b, bs !! h = Some b ∧ Bulb.closed b = false) →
  ∃ bs', close_all entries bs = Some bs' ∧ store_ok bs' ∧ extends bs bs' ∧
         (∀ h, h ∉ JsMap.values entries → bs' !! h = bs !! h) ∧
         (∀ k h, (k, h) ∈ entries →
            ∃ b b', bs !! h = Some b ∧ bs' !! h = Some b' ∧ shut b b').
Proof.
  unfold JsMap.values. revert bs.
  induction entries as [|[k h] entries IH]; intros bs Hs Hnd Hopen; simpl.
  - exists bs. split; [done|]. split; [done|]. split; [apply extends_refl|].
    split; [done|]. by intros ? ? ?%elem_of_nil.
  - apply NoDup_cons in Hnd as [Hnin Hnd].
    destruct (Hopen k h) as (b&Hb&Hcl); [left|].
    destruct (close_bulb_open h bs b Hs Hb Hcl) as (b'&->&Hstep&Hshut&Hst'&Hl).
    simpl.
    destruct (IH (<[h := b']> bs)) as (bs'&->&Hs'&He'&Hout&Hin).
    { by apply store_ok_insert. }
    { done. }
    { intros k0 h0 Hin0. destruct (Hopen k0 h0) as (b0&Hb0&Hcl0); [by right|].
      assert (h0 ≠ h) as Hne.
      { intros Heq. subst h0. apply Hnin. apply list_elem_of_fmap.
        by exists (k0, h). }
      exists b0. by rewrite list_lookup_insert_ne. }
    exists bs'. split; [done|]. split; [done|]. split.
    { eapply extends_trans; [|exact He']. by eapply extends_insert. }
    split.
    + intros h0 [Hne Hnin0]%not_elem_of_cons. rewrite Hout by done.
      by rewrite list_lookup_insert_ne.
    + intros k0 h0 [[= -> ->]|Hin0]%elem_of_cons.
      * exists b, b'. split; [done|]. split; [|done].
        rewrite Hout by done.
        by rewrite list_lookup_insert_eq by (by eapply lookup_lt_Some).
      * destruct (Hin k0 h0 Hin0) as (b0&b0'&Hb0&Hb0'&Hshut0).
        assert (h0 ≠ h) as Hne.
        { intros Heq. subst h0. apply Hnin. apply list_elem_of_fmap.
          by exists (k0, h). }
        rewrite list_lookup_insert_ne in Hb0 by done. eauto.
Qed.

Lemma disconnectAllBulbs_spec g :
  Inv g →
  ∃ g', disconnectAllBulbs g = Some g' ∧ Inv g' ∧ managedBulbs g' = [] ∧
        extends (bulbs g) (bulbs g') ∧
        (∀ h, h ∉ getAllManagedBulbs g → bulbs g' !! h = bulbs g !! h) ∧
        (∀ k h, (k, h) ∈ managedBulbs g →
           ∃ b b', bulbs g !! h = Some b ∧ bulbs g' !! h = Some b' ∧ shut b b').
Proof.
  intros [Hs Hm Hk].
  destruct (close_all_spec (managedBulbs g) (bulbs g) Hs)
    as (bs'&Hc&Hs'&He&Hout&Hin).
  { by eapply values_NoDup. }
  { intros k h Hkh. destruct (Hm k h Hkh) as (b&?&?&_). eauto. }
  unfold disconnectAllBulbs. rewrite Hc. simpl. eexists. split; [done|].
  split; [|done]. split; simpl; [done| |apply NoDup_nil_2].
  by intros k h ?%elem_of_nil.
Qed.

(** The loop of [getAllBulbStatuses] over open proxies. *)
Lemma ask_all_spec hs i rnds bs :
  store_ok bs →
  (∀ h, h ∈ hs → ∃ b, bs !! h = Some b ∧ Bulb.closed b = false) →
  ∃ inquiries bs',
    ask_all hs i rnds bs = Some (inquiries, bs') ∧
    store_ok bs' ∧ extends bs bs' ∧
    (∀ h b, bs !! h = Some b →
       ∃ b', bs' !! h = Some b' ∧ Bulb.closed b' = Bulb.closed b) ∧
    inq_bulb <$> inquiries = hs ∧
    Forall (fun q => tracked q bs' ∧
                     ∃ b, bs !! inq_bulb q = Some b ∧
                          inq_config q = Bulb.getConfig b) inquiries.
Proof.
  revert i bs. induction hs as [|h hs IH]; intros i bs Hs Hopen; simpl.
  - exists [], bs. split; [done|]. split; [done|]. split; [apply extends_refl|].
    split; [eauto|]. split; [done|apply Forall_nil_2].
  - destruct (Hopen h) as (b&Hb&Hcl); [left|]. rewrite Hb. simpl.
    pose proof (BulbProofs.reachable_Inv _ _ (Hs _ _ Hb)) as HI.
    destruct (BulbProofs.step_getStatus b (rnds i) HI Hcl) as [Hstep Hreq].
    rewrite Hstep. simpl.
    set (b1 := Bulb.exec (Bulb.getStatus (rnds i)) b) in *.
    destruct (stored_step b _ b1 (Hs _ _ Hb) Hstep) as [Hst1 Hcfg1].
    pose proof (step_later b _ b1 (Hs _ _ Hb) Hstep) as Hl1.
    assert (Bulb.closed b1 = Bulb.closed b) as Hcl1 by done.
    destruct (IH (S i) (<[h := b1]> bs)) as (inqs&bs'&->&Hs'&He'&Hc'&Hh'&Hq').
    { by apply store_ok_insert. }
    { intros h0 Hin0. destruct (Hopen h0) as (b0&Hb0&Hcl0); [by right|].
      destruct (decide (h0 = h)) as [->|Hne].
      - exists b1. rewrite list_lookup_insert_eq by (by eapply lookup_lt_Some).
        split; [done|]. congruence.
      - exists b0. by rewrite list_lookup_insert_ne. }
    simpl. eexists _, bs'. split; [done|]. split; [done|].
    assert (extends bs bs') as He.
    { eapply extends_trans; [|exact He']. by eapply extends_insert. }
    split; [done|]. split.
    { intros h0 b0 Hb0. destruct (decide (h0 = h)) as [->|Hne].
      - destruct (Hc' h b1) as (b'&Hb'&Hcl');
          [by rewrite list_lookup_insert_eq by (by eapply lookup_lt_Some)|].
        exists b'. split; [done|]. congruence.
      - apply Hc'. by rewrite list_lookup_insert_ne. }
    split; [by rewrite fmap_cons, Hh'|].
    apply Forall_cons. split.
    + split; [|eauto]. apply (tracked_extends _ (<[h := b1]> bs)); [|done].
      exists b1. eexists. simpl.
      split; [by rewrite list_lookup_insert_eq by (by eapply lookup_lt_Some)|].
      split; [exact Hreq|done].
    + eapply Forall_impl; [exact Hq'|]. intros q [Ht (b0&Hb0&Hc0)].
      split; [done|]. destruct (decide (inq_bulb q = h)) as [Heq|Hne].
      * rewrite Heq in Hb0.
        rewrite list_lookup_insert_eq in Hb0 by (by eapply lookup_lt_Some).
        injection Hb0 as <-. exists b. rewrite Heq. split; [done|].
        rewrite Hc0. unfold Bulb.getConfig. done.
      * rewrite list_lookup_insert_ne in Hb0 by done. eauto.
Qed.

Lemma getAllBulbStatuses_spec rnds g :
  Inv g →
  ∃ inquiries g1,
    getAllBulbStatuses rnds g = Some (inquiries, g1) ∧ Inv g1 ∧
    managedBulbs g1 = managedBulbs g ∧ extends (bulbs g) (bulbs g1) ∧
    inq_bulb <$> inquiries = getAllManagedBulbs g ∧
    Forall (fun q => tracked q (bulbs g1) ∧
                     ∃ b, bulbs g !! inq_bulb q = Some b ∧
                          inq_config q = Bulb.getConfig b) inquiries.
Proof.
  intros [Hs Hm Hk].
  destruct (ask_all_spec (getAllManagedBulbs g) 0 rnds (bulbs g) Hs)
    as (inqs&bs'&Ha&Hs'&He&Hc&Hh&Hq).
  { intros h Hin. apply list_elem_of_fmap in Hin as ([k h']&->&Hin).
    destruct (Hm k h' Hin) as (b&?&?&_). eauto. }
  unfold getAllBulbStatuses. rewrite Ha. simpl. eexists _, _. split; [done|].
  split; [|done]. split; simpl; [done| |done].
  intros k h Hin. destruct (Hm k h Hin) as (b&Hb&Hopen&Hkey).
  destruct (Hc h b Hb) as (b'&Hb'&Hcl'). destruct (He h b Hb) as (b''&Hb''&Hcfg&_).
  assert (b'' = b') as -> by congruence.
  exists b'. split; [done|]. split; [congruence|]. by rewrite Hcfg.
Qed.

Lemma use_Some h ev g g' :
  use h ev g = Some g' →
  ev ≠ Bulb.Close ∧
  ∃ b b', bulbs g !! h = Some b ∧ Bulb.step b ev = Some b' ∧
          g' = {| bulbs := <[h := b']> (bulbs g); managedBulbs := managedBulbs g |}.
Proof.
  unfold use. intros H.
  assert (ev ≠ Bulb.Close) as Hev by (by intros ->).
  split; [done|].
  assert ((b ← bulbs g !! h; b' ← Bulb.step b ev;
           Some {| bulbs := <[h := b']> (bulbs g); managedBulbs := managedBulbs g |})
          = Some g') as H' by (by destruct ev).
  destruct (bulbs g !! h) as [b|] eqn:Hb; [|done]. simpl in H'.
  destruct (Bulb.step b ev) as [b'|] eqn:Hs; [|done]. simpl in H'.
  injection H' as <-. eauto.
Qed.

Lemma registry_step_Inv g ev g' : Inv g → step g ev = Some g' → Inv g'.
Proof.
  intros HI Hstep. destruct ev as [ip port rnd|ip port| |rnds|h ev]; simpl in Hstep.
  - injection Hstep as <-. by apply connectToBulb_Inv.
  - by eapply disconnectBulb_Inv.
  - destruct (disconnectAllBulbs_spec g HI) as (g1&Hd&HI1&_). congruence.
  - destruct (getAllBulbStatuses_spec rnds g HI) as (inqs&g1&Hd&HI1&_).
    rewrite Hd in Hstep. simpl in Hstep. congruence.
  - apply use_Some in Hstep as (Hev&b&b'&Hb&Hs&->). destruct HI as [Hst Hm Hk].
    destruct (stored_step b ev b' (Hst _ _ Hb) Hs) as [Hst' Hcfg].
    split; simpl; [by apply store_ok_insert| |done].
    eapply managed_ok_insert; [done|done|done|].
    by apply (BulbProofs.step_closed b ev b' (BulbProofs.reachable_Inv _ _ (Hst _ _ Hb))).
Qed.

Lemma registry_run_Inv evs g g' : Inv g → run g evs = Some g' → Inv g'.
Proof.
  revert g. induction evs as [|ev evs IH]; intros g HI; simpl.
  - by intros [= <-].
  - destruct (step g ev) as [g1|] eqn:Hs; [|done]. apply IH. by eapply registry_step_Inv.
Qed.

Lemma registry_reachable_Inv g : reachable g → Inv g.
Proof. intros [evs Hr]. eapply registry_run_Inv; [apply registry_new_Inv|done]. Qed.

Lemma step_extends g ev g' :
  Inv g → step g ev = Some g' → extends (bulbs g) (bulbs g').
Proof.
  intros HI Hstep. destruct ev as [ip port rnd|ip port| |rnds|h ev]; simpl in Hstep.
  - injection Hstep as <-. unfold connectToBulb.
    destruct (JsMap.get _ _); simpl; [apply extends_refl|].
    intros h b Hb. exists b. split; [by apply lookup_app_l_Some|apply later_refl].
  - unfold disconnectBulb in Hstep.
    destruct (JsMap.get _ _) as [h|]; [|injection Hstep as <-; apply extends_refl].
    destruct (close_bulb h (bulbs g)) as [bs|] eqn:Hc; [|done].
    simpl in Hstep. injection Hstep as <-. simpl.
    apply close_bulb_Some in Hc as (b&b'&Hb&Hs&->).
    eapply extends_insert; [done|].
    exact (step_later b _ b' (inv_store g HI _ _ Hb) Hs).
  - destruct (disconnectAllBulbs_spec g HI) as (g1&Hd&_&_&He&_).
    rewrite Hd in Hstep. by injection Hstep as <-.
  - destruct (getAllBulbStatuses_spec rnds g HI) as (inqs&g1&Hd&_&_&He&_).
    rewrite Hd in Hstep. simpl in Hstep. by injection Hstep as <-.
  - apply use_Some in Hstep as (Hev&b&b'&Hb&Hs&->). simpl.
    eapply extends_insert; [done|].
    exact (step_later b _ b' (inv_store g HI _ _ Hb) Hs).
Qed.

Lemma run_extends evs g g' :
  Inv g → run g evs = Some g' → extends (bulbs g) (bulbs g').
Proof.
  revert g. induction evs as [|ev evs IH]; intros g HI; simpl.
  - intros [= <-]. apply extends_refl.
  - destruct (step g ev) as [g1|] eqn:Hs; [|done]. intros Hr.
    eapply extends_trans; [by eapply step_extends|].
    apply IH; [by eapply registry_step_Inv|done].
Qed.

(** *** The registry *)

Lemma connected_reachable :
  reachable (connectToBulb "192.168.1.45" 4000 "0.4fzyo82mvyr" new).2.
Proof. by exists [Connect "192.168.1.45" 4000 "0.4fzyo82mvyr"]. Qed.

(** X19. One proxy per address. The proxy the registry gives for an
    address is open and was constructed for exactly that address and port,
    and it is registered under no other address: two different addresses
    never share a proxy. *)
Theorem one_proxy_per_address g ip port h :
  reachable g → getBulb ip port g = Some h →
  (∃ b, bulbs g !! h = Some b ∧ Bulb.closed b = false ∧
        Bulb.ip (Bulb.getConfig b) = ip ∧ Bulb.port (Bulb.getConfig b) = port) ∧
  (∀ ip' port', getBulb ip' port' g = Some h → ip' = ip ∧ port' = port).
Proof.
  intros Hreach Hg. destruct (registry_reachable_Inv g Hreach) as [Hs Hm Hk].
  unfold getBulb in *.
  destruct (Hm _ _ (JsMapFacts.get_Some_elem _ _ _ Hg)) as (b&Hb&Hopen&Hkey).
  apply key_inj in Hkey as [Hip Hport]. split.
  - exists b. unfold Bulb.getConfig. by rewrite <- Hip, <- Hport.
  - intros ip' port' Hg'.
    destruct (Hm _ _ (JsMapFacts.get_Some_elem _ _ _ Hg')) as (b'&Hb'&_&Hkey').
    assert (b' = b) as -> by congruence.
    apply key_inj in Hkey' as [-> ->]. done.
Qed.

Lemma one_proxy_per_address_witness :
  ∃ b, bulbs (connectToBulb "192.168.1.45" 4000 "0.4fzyo82mvyr" new).2 !! 0%nat
         = Some b ∧
       Bulb.closed b = false ∧
       Bulb.ip (Bulb.getConfig b) = "192.168.1.45" ∧
       Bulb.port (Bulb.getConfig b) = 4000%Z.
Proof.
  exact (proj1 (one_proxy_per_address _ "192.168.1.45" 4000 0
                  connected_reachable eq_refl)).
Defined.

Lemma step_keeps_key g ev g' ip port :
  step g ev = Some g' → ¬ forgets ip port ev →
  ∀ h, getBulb ip port g = Some h → getBulb ip port g' = Some h.
Proof.
  unfold getBulb. intros Hstep Hnf h Hg.
  destruct ev as [ip' port' rnd|ip' port'| |rnds|h' ev]; simpl in Hstep.
  - injection Hstep as <-. unfold connectToBulb.
    destruct (JsMap.get (key ip' port') (managedBulbs g)) eqn:Hg'; [done|].
    simpl. rewrite JsMapFacts.get_set_ne; [done|]. congruence.
  - unfold disconnectBulb in Hstep.
    destruct (JsMap.get (key ip' port') (managedBulbs g)) as [h0|];
      [|by injection Hstep as <-].
    destruct (close_bulb h0 (bulbs g)); [|done]. simpl in Hstep.
    injection Hstep as <-. simpl. rewrite JsMapFacts.get_delete_ne; [done|].
    intros [-> ->]%key_inj. by apply Hnf.
  - by destruct Hnf.
  - unfold getAllBulbStatuses in Hstep.
    destruct (ask_all _ _ _ _) as [[inqs bs]|]; [|done]. simpl in Hstep.
    by injection Hstep as <-.
  - apply use_Some in Hstep as (_&b&b'&_&_&->). done.
Qed.

(** X20. A connection is kept. Once [connectToBulb] has answered for an
    address, and as long as neither that address is disconnected nor the
    registry closed, [getBulb] gives the same proxy for it and connecting
    again gives it back without constructing a proxy or sending a ping,
    whatever else was connected, disconnected or sent in between. *)
Theorem connection_is_kept g ip port rnd evs g' :
  run (connectToBulb ip port rnd g).2 evs = Some g' →
  Forall (fun ev => ¬ forgets ip port ev) evs →
  getBulb ip port g' = Some (connectToBulb ip port rnd g).1 ∧
  ∀ rnd', connectToBulb ip port rnd' g' = ((connectToBulb ip port rnd g).1, g').
Proof.
  intros Hrun Hall.
  assert (getBulb ip port (connectToBulb ip port rnd g).2
          = Some (connectToBulb ip port rnd g).1) as H0.
  { unfold getBulb, connectToBulb.
    destruct (JsMap.get (key ip port) (managedBulbs g)) eqn:Hg; [done|].
    simpl. apply JsMapFacts.get_set_eq. }
  assert (getBulb ip port g' = Some (connectToBulb ip port rnd g).1) as H.
  { revert Hrun H0. generalize (connectToBulb ip port rnd g).1.
    generalize (connectToBulb ip port rnd g).2.
    induction Hall as [|ev evs Hev _ IH]; intros g0 h Hrun H0; simpl in Hrun.
    - by injection Hrun as <-.
    - destruct (step g0 ev) as [g1|] eqn:Hs; [|done].
      apply (IH g1 h Hrun). by eapply step_keeps_key. }
  split; [done|]. intros rnd'. unfold getBulb in H.
  unfold connectToBulb at 1. by rewrite H.
Qed.

Lemma connection_is_kept_witness :
  getBulb "192.168.1.45" 4000
    (default new
       (run new [Connect "192.168.1.45" 4000 "0.4fzyo82mvyr";
                 Connect "192.168.1.46" 4000 "0.k2j9x0q1abc";
                 Disconnect "192.168.1.46" 4000])) = Some 0%nat.
Proof.
  refine (proj1 (connection_is_kept new "192.168.1.45" 4000 "0.4fzyo82mvyr"
                   [Connect "192.168.1.46" 4000 "0.k2j9x0q1abc";
                    Disconnect "192.168.1.46" 4000] _ eq_refl _)).
  apply Forall_cons. split; [intros []|].
  apply Forall_cons. split; [intros [? _]; discriminate|apply Forall_nil_2].
Defined.





(** *** Statuses of all proxies *)

Lemma statuses_spec inquiries g found :
  Inv g → Forall (fun q => tracked q (bulbs g)) inquiries →
  statuses inquiries g = Some found →
  found.*1 = inq_config <$> inquiries.
Proof.
  intros HI Ht. unfold statuses.
  destruct (mapM _ inquiries) as [cs|] eqn:Hcs; [|done]. simpl.
  intros [= <-]. apply mapM_Some in Hcs.
  induction Hcs as [|q [q' c] qs cs Hq _ IH]; [done|].
  apply Forall_cons in Ht as [(b&r&Hb&Hr&Ha) Ht].
  unfold completion_of in Hq. rewrite Hb in Hq. simpl in Hq.
  unfold Bulb.result_of in Hq. rewrite Hr in Hq. simpl in Hq.
  destruct (Bulb.req_result r) as [c0|] eqn:Hc0; [|done]. simpl in Hq.
  injection Hq as <- <-.
  destruct (BulbProofs.status_result b _ r c0
              (BulbProofs.reachable_Inv _ _ (inv_store g HI _ _ Hb)) Hr Ha Hc0)
    as [s ->].
  cbn. f_equal. by apply IH.
Qed.

(** X23. [getAllBulbStatuses] leaves no proxy out. It asks every managed
    proxy in Map order and never fails doing so; since a [getStatus] that
    has completed has always returned a status, whatever happened to its
    request, the filter for fulfilled results drops nothing: once every
    inquiry has completed the result lists, in the same order, the
    configuration of each managed proxy with a status. *)
Theorem no_bulb_left_out g rnds :
  reachable g →
  ∃ inquiries g1,
    getAllBulbStatuses rnds g = Some (inquiries, g1) ∧
    inq_bulb <$> inquiries = getAllManagedBulbs g ∧
    Forall (fun q => ∃ b, bulbs g !! inq_bulb q = Some b ∧
                          inq_config q = Bulb.getConfig b) inquiries ∧
    ∀ evs g2 found,
      run g1 evs = Some g2 → statuses inquiries g2 = Some found →
      found.*1 = inq_config <$> inquiries.
Proof.
  intros Hreach.
  destruct (getAllBulbStatuses_spec rnds g (registry_reachable_Inv g Hreach))
    as (inqs&g1&Ha&HI1&_&_&Hh&Hq).
  exists inqs, g1. split; [done|]. split; [done|]. split.
  { eapply Forall_impl; [exact Hq|]. by intros q [_ ?]. }
  intros evs g2 found Hrun Hst.
  apply (statuses_spec inqs g2 found); [by eapply registry_run_Inv| |done].
  eapply Forall_impl; [exact Hq|]. intros q [Ht _].
  eapply tracked_extends; [exact Ht|]. by eapply run_extends.
Qed.

Lemma no_bulb_left_out_witness :
  ∃ inquiries g1,
    getAllBulbStatuses (fun _ => "0.k2j9x0q1abc")
      (connectToBulb "192.168.1.45" 4000 "0.4fzyo82mvyr" new).2
      = Some (inquiries, g1) ∧
    inq_bulb <$> inquiries = [0%nat].
Proof.
  destruct (no_bulb_left_out _ (fun _ => "0.k2j9x0q1abc") connected_reachable)
    as (inquiries & g1 & Ha & Hh & _).
  exists inquiries, g1. split; [exact Ha|exact Hh].
Defined.

End RegistryProofs.
